(** * S3 storage driver: resumable multipart writes

    A shallow embedding of [storagedriver/s3/s3.go] and the properties of
    its chunk planner, upload-session resolution, stream writer, size
    accounting, listing and deletion.

    Conventions.
    - Go's [uint64] is a [Z] in [[0, 2^64)]; every arithmetic operation that
      can wrap is written with its reduction modulo [2^64].  Go's [int] is
      taken to be 64 bits wide.
    - A Go function returning [(v, err)] returns a pair whose second
      component is an [option]; [None] is [nil].
    - A run-time panic and the exhaustion of the fuel of a loop are separate
      results, never confused with a normal return.
    - The remote object store (the goamz client and the service behind it)
      is not part of the driver: the driver is written against an interface
      [Remote] and every property about the driver's logic is proved for all
      implementations of it. *)

From Stdlib Require Import ZArith List String Ascii Bool Lia.
Import ListNotations.
Open Scope Z_scope.

(** ** Machine integers *)

Module U64.

Definition modulus : Z := 2 ^ 64.

(** Conversion to [uint64] (also the conversion [uint64(x)] of an [int] or
    [int64]). *)
Definition wrap (z : Z) : Z := z mod modulus.

Definition add (a b : Z) : Z := wrap (a + b).
Definition sub (a b : Z) : Z := wrap (a - b).
Definition mul (a b : Z) : Z := wrap (a * b).

Definition in_range (z : Z) : Prop := 0 <= z < modulus.

End U64.

Module Int.

(** Go's [int] on a 64-bit platform: two's complement on 64 bits. *)
Definition wrap (z : Z) : Z :=
  let r := z mod 2 ^ 64 in
  if r <? 2 ^ 63 then r else r - 2 ^ 64.

Definition add (a b : Z) : Z := wrap (a + b).
Definition sub (a b : Z) : Z := wrap (a - b).

End Int.

(** ** Results of running a piece of the driver *)

Inductive PanicKind : Type :=
| DivideByZero
| IndexOutOfRange
| SliceBoundsOutOfRange
| NilDereference.

Inductive Outcome (A : Type) : Type :=
| Done (a : A)
| Panic (k : PanicKind)
| OutOfFuel.

Arguments Done {A} a.
Arguments Panic {A} k.
Arguments OutOfFuel {A}.

(** ** Constants of the driver *)

(** [const minChunkSize = uint64(5 * 1024 * 1024)] *)
Definition minChunkSize : Z := 5 * 1024 * 1024.

(** [const listPartsMax = 1000] *)
Definition listPartsMax : Z := 1000.

(** One megabyte, the unit of the sizes in the examples. *)
Definition MB : Z := 1024 * 1024.

(** ** Chunk planner *)

(** The loop at the head of [WriteStream]:
<<
    chunkSize := minChunkSize
    for size/chunkSize >= listPartsMax {
        chunkSize *= 2
    }
>>
    [chunkSizeLoop fuel size chunkSize] runs the loop from the current value
    of [chunkSize].  The division panics on a zero divisor and the doubling
    wraps at [2^64]. *)
Fixpoint chunkSizeLoop (fuel : nat) (size chunkSize : Z) : Outcome Z :=
  match fuel with
  | O => OutOfFuel
  | S fuel' =>
      if chunkSize =? 0 then Panic DivideByZero
      else if listPartsMax <=? size / chunkSize
           then chunkSizeLoop fuel' size (U64.mul chunkSize 2)
           else Done chunkSize
  end.

(** An iteration bound that is never reached for a [uint64] size. *)
Definition chunkSizeFuel : nat := 64.

Definition deriveChunkSize (size : Z) : Outcome Z :=
  chunkSizeLoop chunkSizeFuel size minChunkSize.

(** Number of parts needed to hold [size] bytes in chunks of [chunkSize]. *)
Definition partCount (size chunkSize : Z) : Z :=
  (size + chunkSize - 1) / chunkSize.

(** ** Errors *)

(** Errors produced outside the driver: by the input stream ([io.EOF],
    [io.ErrUnexpectedEOF], any other read failure) or by the store client
    ([*aws.Error] and [*s3.Error], which carry a code, and anything else). *)
Inductive ExtError : Type :=
| EOF
| ErrUnexpectedEOF
| AwsError (code : string)
| S3Error (code : string)
| OtherError (msg : string).

(** Values of Go's [error] that [WriteStream], [CurrentSize], [List] and
    [Delete] can return: the two error types of package [storagedriver]
    that the driver constructs itself, or an error passed through. *)
Inductive error : Type :=
| PathNotFoundError (Path : string)
| InvalidOffsetError (Path : string) (Offset : Z)
| Ext (e : ExtError).

(** [hasCode]: the error is an [*aws.Error] with the given code. *)
Definition hasCode (err : ExtError) (code : string) : bool :=
  match err with
  | AwsError c => String.eqb c code
  | _ => false
  end.

(** ** Data of the store client *)

(** [s3.Multi]: an open multipart upload. *)
Record Multi : Type := mkMulti {
  Key : string;
  UploadId : string
}.

(** [s3.Part] *)
Record Part : Type := mkPart {
  N : Z;
  ETag : string;
  Size : Z
}.

(** [s3.ListResp], with the fields the driver reads; [Contents] holds the
    [Key] field of each entry. *)
Record ListResp : Type := mkListResp {
  Contents : list string;
  CommonPrefixes : list string;
  IsTruncated : bool;
  NextMarker : string
}.

(** ** The remote object capability

    One field per method of [s3.Bucket] and [s3.Multi] that the modelled
    operations call.  [W] is the state of everything outside the driver; a
    call maps the state before it to its Go results and the state after it.
    The content type, ACL and options arguments are constants of the driver
    and are left out; the bytes handed to [PutPart] are represented by their
    number.  A response pointer is only dereferenced by the driver after
    the accompanying error was found to be [nil]. *)
Record Remote (W : Type) : Type := mkRemote {
  ListMulti : string -> string -> W -> (list Multi * option ExtError) * W;
  InitMulti : string -> W -> (option Multi * option ExtError) * W;
  ListParts : Multi -> W -> (list Part * option ExtError) * W;
  PutPart : Multi -> Z -> Z -> W -> (Part * option ExtError) * W;
  Complete : Multi -> list Part -> W -> option ExtError * W;
  BucketList : string -> string -> string -> Z -> W
               -> (ListResp * option ExtError) * W;
  DelMulti : list string -> W -> option ExtError * W
}.

Arguments ListMulti {W} _ _ _ _.
Arguments InitMulti {W} _ _ _.
Arguments ListParts {W} _ _ _.
Arguments PutPart {W} _ _ _ _ _.
Arguments Complete {W} _ _ _ _.
Arguments BucketList {W} _ _ _ _ _ _.
Arguments DelMulti {W} _ _ _.

(** ** The input stream

    [io.ReadFull(reader, buf)] returns the number of bytes read and an
    error.  A reader is the list of the results of its successive
    [ReadFull] calls; once the list is used up every call returns
    [(0, io.EOF)]. *)
Definition ReadResult : Type := (Z * option ExtError)%type.
Definition Reader : Type := list ReadResult.

Definition ReadFull (reader : Reader) : ReadResult * Reader :=
  match reader with
  | [] => ((0, Some EOF), [])
  | r :: rest => (r, rest)
  end.

(** [err != nil && err != io.ErrUnexpectedEOF && err != io.EOF] *)
Definition fatalRead (err : option ExtError) : bool :=
  match err with
  | None => false
  | Some EOF => false
  | Some ErrUnexpectedEOF => false
  | Some _ => true
  end.

(** ** Strings and slices *)

(** [s[i]] for a Go string: panics outside [[0, len(s))]. *)
Definition stringIndex (s : string) (i : Z) : Outcome ascii :=
  if i <? 0 then Panic IndexOutOfRange
  else match String.get (Z.to_nat i) s with
       | Some c => Done c
       | None => Panic IndexOutOfRange
       end.

(** [s[0:j]] for a Go string. *)
Definition stringPrefix (s : string) (j : Z) : Outcome string :=
  if (j <? 0) || (Z.of_nat (String.length s) <? j)
  then Panic SliceBoundsOutOfRange
  else Done (String.substring 0 (Z.to_nat j) s).

(** [l[0:j]] for a slice whose capacity is its length. *)
Definition sliceTo {A : Type} (l : list A) (j : Z) : Outcome (list A) :=
  if (j <? 0) || (Z.of_nat (List.length l) <? j)
  then Panic SliceBoundsOutOfRange
  else Done (firstn (Z.to_nat j) l).

(** ** The driver *)

Section Driver.

Context {W : Type} (R : Remote W).

(** Driver code: a function of the outside state to a result and the
    state left behind. *)
Definition M (A : Type) : Type := W -> Outcome A * W.

(** One step of the selection loop of [getHighestIDMulti]:
<<
    if m.Key == path && m.UploadId >= uploadID {
        uploadID = m.UploadId
        multi = m
    }
>> *)
Definition pickMulti (path : string) (acc : string * option Multi)
           (m : Multi) : string * option Multi :=
  let '(uploadID, multi) := acc in
  if String.eqb (Key m) path && String.leb uploadID (UploadId m)
  then (UploadId m, Some m)
  else (uploadID, multi).

(** [err != nil && !hasCode(err, "NoSuchUpload")] *)
Definition listMultiFailed (err : option ExtError) : bool :=
  match err with
  | Some e => negb (hasCode e "NoSuchUpload")
  | None => false
  end.

(** [getHighestIDMulti]; the named result [multi] is nil until the
    selection loop assigns it. *)
Definition getHighestIDMulti (path : string)
  : M (option Multi * option error) :=
  fun w =>
    let '((multis, err), w1) := ListMulti R path "" w in
    if listMultiFailed err
    then (Done (None, option_map Ext err), w1)
    else
      if 0 <? Z.of_nat (List.length multis)
      then (Done (snd (fold_left (pickMulti path) multis
                                 (""%string, None)), None), w1)
      else let '((multi, ierr), w2) := InitMulti R path w1 in
           (Done (multi, option_map Ext ierr), w2).

(** [getAllParts]; calling [ListParts] on a nil [*s3.Multi] dereferences
    the nil pointer. *)
Definition getAllParts (path : string)
  : M (option Multi * list Part * option error) :=
  fun w =>
    match getHighestIDMulti path w with
    | (Done (_, Some e), w1) => (Done (None, [], Some e), w1)
    | (Done (None, None), w1) => (Panic NilDereference, w1)
    | (Done (Some multi, None), w1) =>
        let '((parts, err), w2) := ListParts R multi w1 in
        (Done (Some multi, parts, option_map Ext err), w2)
    | (Panic k, w1) => (Panic k, w1)
    | (OutOfFuel, w1) => (OutOfFuel, w1)
    end.

(** The offset check of [WriteStream]:
<<
    (offset) > uint64(len(parts))*chunkSize ||
      (offset < size && offset%chunkSize != 0)
>> *)
Definition invalidOffset (offset size chunkSize : Z) (parts : list Part)
  : bool :=
  (U64.mul (U64.wrap (Z.of_nat (List.length parts))) chunkSize <? offset)
  || ((offset <? size) && negb (offset mod chunkSize =? 0)).

(** The state in which the streaming loop is entered:
<<
    partNumber := 1
    totalRead := uint64(0)
    ...
    if len(parts) > 0 {
        partNumber = int(offset/chunkSize) + 1
        totalRead = offset
        parts = parts[0 : partNumber-1]
    }
>> *)
Definition resumeState (offset chunkSize : Z) (parts : list Part)
  : Outcome (Z * Z * list Part) :=
  if 0 <? Z.of_nat (List.length parts)
  then
    let partNumber := Int.add (Int.wrap (offset / chunkSize)) 1 in
    match sliceTo parts (Int.sub partNumber 1) with
    | Done parts' => Done (partNumber, offset, parts')
    | Panic k => Panic k
    | OutOfFuel => OutOfFuel
    end
  else Done (1, 0, parts).

(** The streaming loop of [WriteStream] (the [for] from the [ReadFull]
    call to the final [return nil]); one unit of fuel per iteration.  The
    buffer is represented by the number of bytes read into it. *)
Fixpoint streamLoop (fuel : nat) (multi : option Multi)
         (chunkSize size : Z) (reader : Reader)
         (partNumber totalRead : Z) (parts : list Part)
  : M (option error) :=
  fun w =>
    match fuel with
    | O => (OutOfFuel, w)
    | S fuel' =>
        let '((bytesRead, err), reader') := ReadFull reader in
        let totalRead' := U64.add totalRead (U64.wrap bytesRead) in
        if fatalRead err then (Done (option_map Ext err), w)
        else if (U64.wrap bytesRead <? chunkSize)
                && negb (totalRead' =? size)
        then (Done None, w)
        else
          match multi with
          | None => (Panic NilDereference, w)
          | Some m =>
              let '((part, perr), w1) :=
                PutPart R m partNumber bytesRead w in
              match perr with
              | Some e => (Done (Some (Ext e)), w1)
              | None =>
                  let parts' := parts ++ [part] in
                  if totalRead' =? size
                  then let '(_, w2) := Complete R m parts' w1 in
                       (Done None, w2)
                  else streamLoop fuel' multi chunkSize size reader'
                                  (Int.add partNumber 1) totalRead'
                                  parts' w1
              end
          end
    end.

(** [WriteStream]: chunk size, session and parts, offset check, resume
    state, streaming loop.  [fuel] bounds the iterations of the streaming
    loop.  The chunk size that reaches the divisions [offset/chunkSize] and
    [offset%chunkSize] is never zero: the chunk-size loop would have
    panicked on it.  The deferred [reader.Close()] has no part in the
    result and is left out. *)
Definition WriteStream (fuel : nat) (path : string) (offset size : Z)
           (reader : Reader) : M (option error) :=
  fun w =>
    match deriveChunkSize size with
    | Panic k => (Panic k, w)
    | OutOfFuel => (OutOfFuel, w)
    | Done chunkSize =>
        match getAllParts path w with
        | (Panic k, w1) => (Panic k, w1)
        | (OutOfFuel, w1) => (OutOfFuel, w1)
        | (Done (_, _, Some e), w1) => (Done (Some e), w1)
        | (Done (multi, parts, None), w1) =>
            if invalidOffset offset size chunkSize parts
            then (Done (Some (InvalidOffsetError path offset)), w1)
            else
              match resumeState offset chunkSize parts with
              | Panic k => (Panic k, w1)
              | OutOfFuel => (OutOfFuel, w1)
              | Done (partNumber, totalRead, parts') =>
                  streamLoop fuel multi chunkSize size reader
                             partNumber totalRead parts' w1
              end
        end
    end.

(** The size computed by [CurrentSize] from a non-empty part list:
<<
    ((uint64(len(parts)) - 1) * uint64(parts[0].Size)) +
      uint64(parts[len(parts)-1].Size)
>> *)
Definition sizeOfParts (parts : list Part) : Z :=
  match parts with
  | [] => 0
  | first :: _ =>
      U64.add
        (U64.mul (U64.sub (U64.wrap (Z.of_nat (List.length parts))) 1)
                 (U64.wrap (Size first)))
        (U64.wrap (Size (last parts first)))
  end.

(** [CurrentSize] *)
Definition CurrentSize (path : string) : M (Z * option error) :=
  fun w =>
    match getAllParts path w with
    | (Panic k, w1) => (Panic k, w1)
    | (OutOfFuel, w1) => (OutOfFuel, w1)
    | (Done (_, _, Some e), w1) => (Done (0, Some e), w1)
    | (Done (_, parts, None), w1) =>
        if Z.of_nat (List.length parts) =? 0
        then (Done (0, None), w1)
        else (Done (sizeOfParts parts, None), w1)
    end.

(** The inner loop of [List] over the common prefixes:
    [commonPrefix[0:len(commonPrefix)-1]] for each of them, in order. *)
Fixpoint stripSeparators (prefixes : list string) : Outcome (list string) :=
  match prefixes with
  | [] => Done []
  | commonPrefix :: rest =>
      match stringPrefix commonPrefix
              (Z.of_nat (String.length commonPrefix) - 1) with
      | Done d =>
          match stripSeparators rest with
          | Done ds => Done (d :: ds)
          | Panic k => Panic k
          | OutOfFuel => OutOfFuel
          end
      | Panic k => Panic k
      | OutOfFuel => OutOfFuel
      end
  end.

(** The pagination loop of [List]; one unit of fuel per page. *)
Fixpoint listLoop (fuel : nat) (path : string) (listResponse : ListResp)
         (files directories : list string)
  : M (list string * option error) :=
  fun w =>
    match fuel with
    | O => (OutOfFuel, w)
    | S fuel' =>
        let files' := files ++ Contents listResponse in
        match stripSeparators (CommonPrefixes listResponse) with
        | Panic k => (Panic k, w)
        | OutOfFuel => (OutOfFuel, w)
        | Done ds =>
            let directories' := directories ++ ds in
            if IsTruncated listResponse
            then
              let '((next, err), w1) :=
                BucketList R path "/" (NextMarker listResponse)
                           listPartsMax w in
              match err with
              | Some e => (Done ([], Some (Ext e)), w1)
              | None => listLoop fuel' path next files' directories' w1
              end
            else (Done (files' ++ directories', None), w)
        end
    end.

(** [List]; [fuel] bounds the number of pages.  The first step indexes
    the path at [len(path)-1]. *)
Definition List (fuel : nat) (path : string)
  : M (list string * option error) :=
  fun w =>
    match stringIndex path (Z.of_nat (String.length path) - 1) with
    | Panic k => (Panic k, w)
    | OutOfFuel => (OutOfFuel, w)
    | Done c =>
        let path' :=
          if Ascii.eqb c "/" then path else (path ++ "/")%string in
        let '((listResponse, err), w1) :=
          BucketList R path' "/" "" listPartsMax w in
        match err with
        | Some e => (Done ([], Some (Ext e)), w1)
        | None => listLoop fuel path' listResponse [] [] w1
        end
    end.

(** The loop of [Delete]; one unit of fuel per batch.  [s3Objects] has
    [listPartsMax] elements, so writing the keys of a longer listing into
    it indexes out of range. *)
Fixpoint deleteLoop (fuel : nat) (path : string) (listResponse : ListResp)
  : M (option error) :=
  fun w =>
    match fuel with
    | O => (OutOfFuel, w)
    | S fuel' =>
        if 0 <? Z.of_nat (List.length (Contents listResponse))
        then
          if listPartsMax <? Z.of_nat (List.length (Contents listResponse))
          then (Panic IndexOutOfRange, w)
          else
            let '(err, w1) := DelMulti R (Contents listResponse) w in
            match err with
            | Some _ => (Done None, w1)
            | None =>
                let '((next, lerr), w2) :=
                  BucketList R path "" "" listPartsMax w1 in
                match lerr with
                | Some e => (Done (Some (Ext e)), w2)
                | None => deleteLoop fuel' path next w2
                end
            end
        else (Done None, w)
    end.

(** [Delete]; [fuel] bounds the number of batches. *)
Definition Delete (fuel : nat) (path : string) : M (option error) :=
  fun w =>
    let '((listResponse, err), w1) :=
      BucketList R path "" "" listPartsMax w in
    match err with
    | Some _ => (Done (Some (PathNotFoundError path)), w1)
    | None =>
        if Z.of_nat (List.length (Contents listResponse)) =? 0
        then (Done (Some (PathNotFoundError path)), w1)
        else deleteLoop fuel path listResponse w1
    end.

End Driver.

(** ** An in-memory remote *)

(** Modelled from the spec: the remote object capability (multipart
    sessions with their numbered, sized parts; stored objects; listing by
    prefix; batch deletion), which the driver reaches through the goamz
    client and which is not part of the repository.  A session keeps its
    parts ordered by part number, an upload of part [n] replaces an earlier
    part [n], completion turns the session into an object.  Every call is
    logged, and a call fails, without effect, when the next entry of
    [faults] holds an error. *)
Module MemStore.

Inductive Call : Type :=
| CallListMulti (prefix delim : string)
| CallInitMulti (key : string)
| CallListParts (m : Multi)
| CallPutPart (m : Multi) (n len : Z)
| CallComplete (m : Multi) (parts : list Part)
| CallList (prefix delim marker : string) (max : Z)
| CallDelMulti (keys : list string).

Record Store : Type := mkStore {
  uploads : list (Multi * list Part);
  objects : list (string * Z);
  nextId : nat;
  faults : list (option ExtError);
  log : list Call
}.

(** Entering a call: the call is logged and the next fault is taken. *)
Definition enter (c : Call) (st : Store) : option ExtError * Store :=
  (hd None (faults st),
   mkStore (uploads st) (objects st) (nextId st) (tl (faults st))
           (log st ++ [c])).

Definition withUploads (ups : list (Multi * list Part)) (st : Store)
  : Store :=
  mkStore ups (objects st) (nextId st) (faults st) (log st).

Definition withObjects (objs : list (string * Z)) (st : Store) : Store :=
  mkStore (uploads st) objs (nextId st) (faults st) (log st).

Definition multi_eqb (a b : Multi) : bool :=
  String.eqb (Key a) (Key b) && String.eqb (UploadId a) (UploadId b).

Fixpoint findParts (m : Multi) (ups : list (Multi * list Part))
  : option (list Part) :=
  match ups with
  | [] => None
  | (m', parts) :: rest =>
      if multi_eqb m m' then Some parts else findParts m rest
  end.

Fixpoint setParts (m : Multi) (parts : list Part)
         (ups : list (Multi * list Part)) : list (Multi * list Part) :=
  match ups with
  | [] => []
  | (m', old) :: rest =>
      if multi_eqb m m' then (m', parts) :: rest
      else (m', old) :: setParts m parts rest
  end.

Fixpoint insertPart (p : Part) (parts : list Part) : list Part :=
  match parts with
  | [] => [p]
  | q :: rest =>
      if N p <? N q then p :: q :: rest
      else if N p =? N q then p :: rest
      else q :: insertPart p rest
  end.

Fixpoint freshId (n : nat) : string :=
  match n with
  | O => "u"
  | S k => String "u" (freshId k)
  end.

Definition listMulti (prefix delim : string) (st : Store)
  : (list Multi * option ExtError) * Store :=
  match enter (CallListMulti prefix delim) st with
  | (Some e, st1) => (([], Some e), st1)
  | (None, st1) =>
      ((filter (fun m => String.prefix prefix (Key m))
               (map fst (uploads st1)), None), st1)
  end.

Definition initMulti (key : string) (st : Store)
  : (option Multi * option ExtError) * Store :=
  match enter (CallInitMulti key) st with
  | (Some e, st1) => ((None, Some e), st1)
  | (None, st1) =>
      let m := mkMulti key (freshId (nextId st1)) in
      ((Some m, None),
       mkStore (uploads st1 ++ [(m, [])]) (objects st1)
               (S (nextId st1)) (faults st1) (log st1))
  end.

Definition listParts (m : Multi) (st : Store)
  : (list Part * option ExtError) * Store :=
  match enter (CallListParts m) st with
  | (Some e, st1) => (([], Some e), st1)
  | (None, st1) =>
      match findParts m (uploads st1) with
      | Some parts => ((parts, None), st1)
      | None => (([], Some (S3Error "NoSuchUpload")), st1)
      end
  end.

Definition putPart (m : Multi) (n len : Z) (st : Store)
  : (Part * option ExtError) * Store :=
  let part := mkPart n "etag" len in
  match enter (CallPutPart m n len) st with
  | (Some e, st1) => ((part, Some e), st1)
  | (None, st1) =>
      match findParts m (uploads st1) with
      | Some parts =>
          ((part, None),
           withUploads (setParts m (insertPart part parts) (uploads st1))
                       st1)
      | None => ((part, Some (S3Error "NoSuchUpload")), st1)
      end
  end.

Definition complete (m : Multi) (parts : list Part) (st : Store)
  : option ExtError * Store :=
  match enter (CallComplete m parts) st with
  | (Some e, st1) => (Some e, st1)
  | (None, st1) =>
      match findParts m (uploads st1) with
      | Some _ =>
          (None,
           mkStore (filter (fun u => negb (multi_eqb m (fst u)))
                           (uploads st1))
                   (objects st1
                    ++ [(Key m, fold_right Z.add 0 (map Size parts))])
                   (nextId st1) (faults st1) (log st1))
      | None => (Some (S3Error "NoSuchUpload"), st1)
      end
  end.

(** The common prefix a key falls under, if the part of the key after
    [prefix] contains the delimiter. *)
Definition groupOf (prefix delim key : string) : option string :=
  if String.eqb delim "" then None
  else
    let rest := String.substring (String.length prefix)
                  (String.length key - String.length prefix) key in
    match String.index 0 delim rest with
    | Some i =>
        Some (prefix
              ++ String.substring 0 (i + String.length delim) rest)%string
    | None => None
    end.

Definition isNone {A : Type} (o : option A) : bool :=
  match o with Some _ => false | None => true end.

Fixpoint somes {A : Type} (l : list (option A)) : list A :=
  match l with
  | [] => []
  | Some a :: rest => a :: somes rest
  | None :: rest => somes rest
  end.

(** Listing: the keys under [prefix] after [marker], at most [max] of
    them per response. *)
Definition listObjects (prefix delim marker : string) (max : Z)
           (st : Store)
  : (ListResp * option ExtError) * Store :=
  match enter (CallList prefix delim marker max) st with
  | (Some e, st1) => ((mkListResp [] [] false "", Some e), st1)
  | (None, st1) =>
      let keys :=
        filter (fun k => String.prefix prefix k
                         && (String.eqb marker "" || String.ltb marker k))
               (map fst (objects st1)) in
      let plain := filter (fun k => isNone (groupOf prefix delim k)) keys in
      let page := firstn (Z.to_nat max) plain in
      ((mkListResp page
                   (nodup string_dec
                          (somes (map (groupOf prefix delim) keys)))
                   (Z.of_nat (List.length page)
                    <? Z.of_nat (List.length plain))
                   (last page ""%string),
        None), st1)
  end.

Definition delMulti (keys : list string) (st : Store)
  : option ExtError * Store :=
  match enter (CallDelMulti keys) st with
  | (Some e, st1) => (Some e, st1)
  | (None, st1) =>
      (None,
       withObjects
         (filter (fun o => negb (existsb (String.eqb (fst o)) keys))
                 (objects st1))
         st1)
  end.

Definition remote : Remote Store :=
  mkRemote Store listMulti initMulti listParts putPart complete
           listObjects delMulti.

(** A store holding nothing, with no fault pending. *)
Definition empty : Store := mkStore [] [] 0 [] [].

(** No session of [ups] is listed under the prefix [path]. *)
Definition unlisted (path : string) (ups : list (Multi * list Part))
  : Prop :=
  forall u, In u ups -> String.prefix path (Key (fst u)) = false.

Definition resetLog (st : Store) : Store :=
  mkStore (uploads st) (objects st) (nextId st) (faults st) [].

(** The parts [1 .. n] of a session, each of [size] bytes. *)
Definition uniformParts (n : nat) (size : Z) : list Part :=
  map (fun i => mkPart (Z.of_nat i) "etag" size) (seq 1 n).

(** The [PutPart] calls of a log, as (part number, length) pairs. *)
Fixpoint putCalls (l : list Call) : list (Z * Z) :=
  match l with
  | [] => []
  | CallPutPart _ n len :: rest => (n, len) :: putCalls rest
  | _ :: rest => putCalls rest
  end.

(** The [Complete] calls of a log, as lists of part numbers. *)
Fixpoint completeCalls (l : list Call) : list (list Z) :=
  match l with
  | [] => []
  | CallComplete _ parts :: rest => map N parts :: completeCalls rest
  | _ :: rest => completeCalls rest
  end.

End MemStore.

(** ** The 12 MB scenario

    A write of 12 MB declared, delivered in one go; the same write cut
    after 10 MB; and the resumption of the cut write at offset 10 MB. *)
Module Scenario.

Definition path : string := "a/b".
Definition size : Z := 12 * MB.

Definition wholeStream : Reader :=
  [(5 * MB, None); (5 * MB, None); (2 * MB, Some ErrUnexpectedEOF)].

Definition cutStream : Reader := [(5 * MB, None); (5 * MB, None)].

Definition restOfStream : Reader := [(2 * MB, Some ErrUnexpectedEOF)].

Definition afterWhole : Outcome (option error) * MemStore.Store :=
  WriteStream MemStore.remote 4 path 0 size wholeStream MemStore.empty.

Definition afterCut : Outcome (option error) * MemStore.Store :=
  WriteStream MemStore.remote 4 path 0 size cutStream MemStore.empty.

(** The store left by the cut write, with an empty call log. *)
Definition interrupted : MemStore.Store :=
  MemStore.resetLog (snd afterCut).

Definition afterResume : Outcome (option error) * MemStore.Store :=
  WriteStream MemStore.remote 4 path (10 * MB) size restOfStream
              interrupted.

End Scenario.

(** ** Pages of a listing *)

(** [s[0:len(s)-1]] for a non-empty string: the string without its last
    character. *)
Definition dropLast (s : string) : string :=
  String.substring 0 (String.length s - 1) s.

(** The pages [List] goes through, from a first response [resp] received
    in state [w]: each truncated page is followed by the response to the
    request for the keys after its [NextMarker].  The walk ends at a page
    that is not truncated, or at a request that fails. *)
Inductive ListPages {W : Type} (R : Remote W) (path : string)
  : ListResp -> W -> list ListResp -> option ExtError -> W -> Prop :=
| PagesEnd (resp : ListResp) (w : W) :
    IsTruncated resp = false ->
    ListPages R path resp w [resp] None w
| PagesFail (resp next : ListResp) (w w1 : W) (e : ExtError) :
    IsTruncated resp = true ->
    BucketList R path "/" (NextMarker resp) listPartsMax w
    = ((next, Some e), w1) ->
    ListPages R path resp w [resp] (Some e) w1
| PagesNext (resp next : ListResp) (w w1 w2 : W) (pages : list ListResp)
            (out : option ExtError) :
    IsTruncated resp = true ->
    BucketList R path "/" (NextMarker resp) listPartsMax w
    = ((next, None), w1) ->
    ListPages R path next w1 pages out w2 ->
    ListPages R path resp w (resp :: pages) out w2.

(** ** A remote that replays listings *)

(** A remote whose state is a queue of listing responses: each [List]
    request takes the next one (an empty page once the queue is used up);
    every other operation fails and changes nothing.  It stands for a store
    whose answers are known in advance. *)
Module Canned.

Definition State : Type := list (ListResp * option ExtError).

Definition unsupported : ExtError := OtherError "unsupported".

Definition bucketList (prefix delim marker : string) (max : Z) (st : State)
  : (ListResp * option ExtError) * State :=
  match st with
  | [] => ((mkListResp [] [] false "", None), [])
  | r :: rest => (r, rest)
  end.

Definition remote : Remote State :=
  mkRemote State
           (fun _ _ st => (([], Some unsupported), st))
           (fun _ st => ((None, Some unsupported), st))
           (fun _ st => (([], Some unsupported), st))
           (fun _ n len st => ((mkPart n "" len, Some unsupported), st))
           (fun _ _ st => (Some unsupported, st))
           bucketList
           (fun _ st => (Some unsupported, st)).

End Canned.

(** ** Construction of a driver *)

(** What [FromParameters] and [New] return as their error: a message built
    by [fmt.Errorf] (with the value it formats, where it formats one), or
    the error of [PutBucket] as it is. *)
Inductive ConstructionError (Region : Type) : Type :=
| Errorf (msg : string)
| InvalidRegionProvided (region : Region)
| UnableToParseEncrypt (err : ExtError)
| BucketError (err : ExtError).

Arguments Errorf {Region} msg.
Arguments InvalidRegionProvided {Region} region.
Arguments UnableToParseEncrypt {Region} err.
Arguments BucketError {Region} err.

(** [aws.Auth], [s3.S3] and [s3.Bucket], with the fields [New] sets. *)
Record aws_Auth : Type := mkAuth {
  AccessKey : string;
  SecretKey : string
}.

Record s3_S3 (Region : Type) : Type := mkS3 {
  S3Auth : aws_Auth;
  S3Region : Region
}.

Arguments mkS3 {Region} _ _.
Arguments S3Auth {Region} _.
Arguments S3Region {Region} _.

Record s3_Bucket (Region : Type) : Type := mkBucket {
  BucketS3 : s3_S3 Region;
  Name : string
}.

Arguments mkBucket {Region} _ _.
Arguments BucketS3 {Region} _.
Arguments Name {Region} _.

(** [Driver] *)
Record Driver (Region : Type) : Type := mkDriver {
  S3 : s3_S3 Region;
  Bucket : s3_Bucket Region;
  Encrypt : bool
}.

Arguments mkDriver {Region} _ _ _.
Arguments S3 {Region} _.
Arguments Bucket {Region} _.
Arguments Encrypt {Region} _.

Section Construction.

(** The regions of the client ([aws.Region], its field [Name] and
    [aws.GetRegion]), [strconv.ParseBool] and the call [PutBucket] are not
    part of the driver; they are parameters. *)
Context {W Region : Type}.
Variable RegionName : Region -> string.
Variable GetRegion : string -> Region.
Variable ParseBool : string -> bool * option ExtError.
Variable PutBucket : s3_Bucket Region -> W -> option ExtError * W.

(** The error is an [*s3.Error] whose code is [BucketAlreadyOwnedByYou]. *)
Definition alreadyOwnedByYou (err : ExtError) : bool :=
  match err with
  | S3Error code => String.eqb code "BucketAlreadyOwnedByYou"
  | _ => false
  end.

(** [New] *)
Definition New (accessKey secretKey : string) (region : Region)
           (encrypt : bool) (bucketName : string)
  : W -> (option (Driver Region) * option (ConstructionError Region)) * W :=
  fun w =>
    let auth := mkAuth accessKey secretKey in
    let s3obj := mkS3 auth region in
    let bucket := mkBucket s3obj bucketName in
    let '(err, w1) := PutBucket bucket w in
    match err with
    | Some e =>
        if negb (alreadyOwnedByYou e)
        then ((None, Some (BucketError e)), w1)
        else ((Some (mkDriver s3obj bucket encrypt), None), w1)
    | None => ((Some (mkDriver s3obj bucket encrypt), None), w1)
    end.

(** [v, ok := parameters[key]] followed by [!ok || v == ""]. *)
Definition absentOrEmpty (v : option string) : bool :=
  match v with
  | None => true
  | Some s => String.eqb s ""
  end.

(** The value of [v, ok := parameters[key]]: the empty string when the key
    is absent. *)
Definition valueOf (v : option string) : string :=
  match v with
  | None => ""
  | Some s => s
  end.

(** [FromParameters]; the map is read through its lookup. *)
Definition FromParameters (parameters : string -> option string)
  : W -> (option (Driver Region) * option (ConstructionError Region)) * W :=
  fun w =>
    if absentOrEmpty (parameters "accesskey"%string)
    then ((None, Some (Errorf "No accesskey parameter provided")), w)
    else
      if absentOrEmpty (parameters "secretkey"%string)
      then ((None, Some (Errorf "No secretkey parameter provided")), w)
      else
        if absentOrEmpty (parameters "region"%string)
        then ((None, Some (Errorf "No region parameter provided")), w)
        else
          let region := GetRegion (valueOf (parameters "region"%string)) in
          if String.eqb (RegionName region) ""
          then ((None, Some (InvalidRegionProvided region)), w)
          else
            if absentOrEmpty (parameters "bucket"%string)
            then ((None, Some (Errorf "No bucket parameter provided")), w)
            else
              match parameters "encrypt"%string with
              | None =>
                  ((None, Some (Errorf "No encrypt parameter provided")), w)
              | Some encrypt =>
                  match ParseBool encrypt with
                  | (_, Some perr) =>
                      ((None, Some (UnableToParseEncrypt perr)), w)
                  | (encryptBool, None) =>
                      New (valueOf (parameters "accesskey"%string))
                          (valueOf (parameters "secretkey"%string))
                          region encryptBool
                          (valueOf (parameters "bucket"%string)) w
                  end
              end.

(** The parameters pass every check of [FromParameters], with these
    values. *)
Definition accepted (parameters : string -> option string)
           (accessKey secretKey regionName bucket : string)
           (encryptBool : bool) : Prop :=
  parameters "accesskey"%string = Some accessKey
  /\ accessKey <> ""%string
  /\ parameters "secretkey"%string = Some secretKey
  /\ secretKey <> ""%string
  /\ parameters "region"%string = Some regionName
  /\ regionName <> ""%string
  /\ RegionName (GetRegion regionName) <> ""%string
  /\ parameters "bucket"%string = Some bucket
  /\ bucket <> ""%string
  /\ exists encrypt : string,
      parameters "encrypt"%string = Some encrypt
      /\ ParseBool encrypt = (encryptBool, None).

End Construction.

(** ** Move *)

Section Moving.

Context {W : Type} (R : Remote W).

(** [d.Bucket.PutCopy(destPath, ..., source)], reduced to its error, and
    the name of the bucket of the driver. *)
Variable PutCopy : string -> string -> W -> option ExtError * W.
Variable bucketName : string.

(** [Move]; [fuel] is the fuel of the [Delete] it ends with. *)
Definition Move (fuel : nat) (sourcePath destPath : string)
  : M (option error) :=
  fun w =>
    let '(err, w1) :=
      PutCopy destPath (bucketName ++ "/" ++ sourcePath)%string w in
    match err with
    | Some _ => (Done (Some (PathNotFoundError sourcePath)), w1)
    | None => Delete R fuel sourcePath w1
    end.

End Moving.

(** ** Copies on the in-memory store *)

(** Modelled from the spec: the "copy an object" capability of the store.
    The source is named [bucket/key]; the copy fails when the bucket is
    another one or no object has the key, and otherwise puts the content of
    the source at the destination key, in place of what was there. *)
Module MemCopy.

Definition bucketName : string := "registry".

Fixpoint lookup (key : string) (objs : list (string * Z)) : option Z :=
  match objs with
  | [] => None
  | (k, v) :: rest => if String.eqb k key then Some v else lookup key rest
  end.

Definition store (key : string) (v : Z) (objs : list (string * Z))
  : list (string * Z) :=
  filter (fun o => negb (String.eqb (fst o) key)) objs ++ [(key, v)].

(** The key named by a source [bucket/key] of this bucket. *)
Definition sourceKey (source : string) : option string :=
  if String.prefix (bucketName ++ "/") source
  then Some (String.substring (String.length bucketName + 1)
                              (String.length source
                               - (String.length bucketName + 1))
                              source)
  else None.

Definition putCopy (dest source : string) (st : MemStore.Store)
  : option ExtError * MemStore.Store :=
  match MemStore.faults st with
  | Some e :: rest =>
      (Some e,
       MemStore.mkStore (MemStore.uploads st) (MemStore.objects st)
                        (MemStore.nextId st) rest (MemStore.log st))
  | _ =>
      match sourceKey source with
      | None => (Some (S3Error "NoSuchBucket"), st)
      | Some key =>
          match lookup key (MemStore.objects st) with
          | None => (Some (S3Error "NoSuchKey"), st)
          | Some v =>
              (None,
               MemStore.mkStore (MemStore.uploads st)
                                (store dest v (MemStore.objects st))
                                (MemStore.nextId st)
                                (tl (MemStore.faults st))
                                (MemStore.log st))
          end
      end
  end.

End MemCopy.

(** ** Stand-ins for the parameters of the constructor *)

(** Modelled from the spec: "region: required, must resolve to a known
    region" and "encrypt: required boolean".  A region is its name; two
    regions are known.  [parseBool] accepts the spellings Go's
    [strconv.ParseBool] accepts.  [putBucket] answers from a queue of
    results. *)
Module Stub.

Definition getRegion (name : string) : string :=
  if String.eqb name "us-east-1" then name
  else if String.eqb name "eu-west-1" then name
       else "".

Definition parseBool (str : string) : bool * option ExtError :=
  if existsb (String.eqb str) ["1"; "t"; "T"; "TRUE"; "true"; "True"]%string
  then (true, None)
  else if existsb (String.eqb str)
                  ["0"; "f"; "F"; "FALSE"; "false"; "False"]%string
       then (false, None)
       else (false, Some (OtherError "invalid syntax")).

Definition putBucket (bucket : s3_Bucket string)
           (answers : list (option ExtError))
  : option ExtError * list (option ExtError) :=
  (hd None answers, tl answers).

End Stub.

(** * Properties *)

(** ** Chunk planner *)

Section ChunkPlanner.

(** The loop, started at [c] with room for [n] doublings below the
    modulus, stops after at most [n] doublings at a value [c * 2^j]. *)
Lemma chunkSizeLoop_run (n : nat) :
  forall (extra : nat) (size c : Z),
    0 < c ->
    0 <= size ->
    c * 2 ^ Z.of_nat n < U64.modulus ->
    size < listPartsMax * (c * 2 ^ Z.of_nat n) ->
    exists j : nat,
      (j <= n)%nat /\
      chunkSizeLoop (S n + extra) size c = Done (c * 2 ^ Z.of_nat j) /\
      size / (c * 2 ^ Z.of_nat j) < listPartsMax /\
      (forall i : nat, (i < j)%nat ->
                       listPartsMax <= size / (c * 2 ^ Z.of_nat i)).
Proof.
  induction n as [|n IH]; intros extra size c Hc Hs Hm Hlt.
  - exists O. change (2 ^ Z.of_nat 0) with 1 in *. rewrite Z.mul_1_r in *.
    assert (Hq : size / c < listPartsMax)
      by (apply Z.div_lt_upper_bound; lia).
    simpl. destruct (Z.eqb_spec c 0); [lia|].
    destruct (Z.leb_spec listPartsMax (size / c)); [lia|].
    repeat split; auto. intros i Hi. lia.
  - cbn [chunkSizeLoop Nat.add].
    destruct (Z.eqb_spec c 0); [lia|].
    destruct (Z.leb_spec listPartsMax (size / c)) as [Hge|Hlow].
    + assert (Hpow : 2 ^ Z.of_nat (S n) = 2 * 2 ^ Z.of_nat n).
      { rewrite Nat2Z.inj_succ, Z.pow_succ_r by lia. reflexivity. }
      rewrite Hpow in Hm, Hlt.
      assert (Hp : 0 < 2 ^ Z.of_nat n) by (apply Z.pow_pos_nonneg; lia).
      assert (Hc2 : U64.mul c 2 = c * 2).
      { unfold U64.mul, U64.wrap. apply Z.mod_small. nia. }
      rewrite Hc2.
      destruct (IH extra size (c * 2)) as (j & Hj & Hrun & Hq & Hmin);
        try nia.
      exists (S j).
      assert (Hpj : forall k : nat,
                 c * 2 ^ Z.of_nat (S k) = c * 2 * 2 ^ Z.of_nat k).
      { intro k. rewrite Nat2Z.inj_succ, Z.pow_succ_r by lia. ring. }
      rewrite Hpj. repeat split; auto; [lia|].
      intros [|i] Hi.
      * change (2 ^ Z.of_nat 0) with 1. rewrite Z.mul_1_r. exact Hge.
      * rewrite Hpj. apply Hmin. lia.
    + exists O. change (2 ^ Z.of_nat 0) with 1. rewrite Z.mul_1_r.
      repeat split; auto; [lia|]. intros i Hi. lia.
Qed.

Lemma deriveChunkSize_run (size : Z) :
  U64.in_range size ->
  exists j : nat,
    (j <= 33)%nat /\
    (forall extra : nat,
        chunkSizeLoop (34 + extra) size minChunkSize
        = Done (minChunkSize * 2 ^ Z.of_nat j)) /\
    size / (minChunkSize * 2 ^ Z.of_nat j) < listPartsMax /\
    (forall i : nat, (i < j)%nat ->
                     listPartsMax <= size / (minChunkSize * 2 ^ Z.of_nat i)).
Proof.
  intros [Hlo Hhi].
  assert (Hm : minChunkSize * 2 ^ Z.of_nat 33 < U64.modulus)
    by (vm_compute; reflexivity).
  assert (Hl : size < listPartsMax * (minChunkSize * 2 ^ Z.of_nat 33)).
  { eapply Z.lt_trans; [exact Hhi|]. vm_compute. reflexivity. }
  assert (Hc : 0 < minChunkSize) by (vm_compute; reflexivity).
  destruct (chunkSizeLoop_run 33 0 size minChunkSize Hc Hlo Hm Hl)
    as (j & Hj & Hrun & Hq & Hmin).
  exists j.
  split; [exact Hj|].
  split; [|split; [exact Hq|exact Hmin]].
  intro extra.
  destruct (chunkSizeLoop_run 33 extra size minChunkSize Hc Hlo Hm Hl)
    as (j' & Hj' & Hrun' & Hq' & Hmin').
  assert (j' = j).
  { destruct (Nat.lt_trichotomy j' j) as [Hlt|[Heq|Hgt]]; auto.
    - specialize (Hmin j' Hlt). apply Z.le_ngt in Hmin. contradiction.
    - specialize (Hmin' j Hgt). apply Z.le_ngt in Hmin'. contradiction. }
  subst j'. exact Hrun'.
Qed.

Lemma pow2_nat_pos (j : nat) : 0 < 2 ^ Z.of_nat j.
Proof. apply Z.pow_pos_nonneg; lia. Qed.

Lemma partCount_le (size C L : Z) :
  0 < C -> size / C < L -> partCount size C <= L.
Proof.
  intros HC Hq. unfold partCount.
  assert (Hlt : size < L * C).
  { pose proof (Z.div_mod size C ltac:(lia)) as Hdm.
    pose proof (Z.mod_pos_bound size C HC) as Hmod.
    nia. }
  assert ((size + C - 1) / C < L + 1)
    by (apply Z.div_lt_upper_bound; lia).
  lia.
Qed.

Lemma partCount_gt (size C L : Z) :
  0 < C -> L <= size / C -> size <> L * C -> L < partCount size C.
Proof.
  intros HC Hq Hne. unfold partCount.
  assert (Hge : L * C <= size).
  { pose proof (Z.mul_div_le size C HC). nia. }
  assert (L + 1 <= (size + C - 1) / C)
    by (apply Z.div_le_lower_bound; lia).
  lia.
Qed.

Lemma chunk_power_bounds (j : nat) :
  (j <= 33)%nat ->
  minChunkSize <= minChunkSize * 2 ^ Z.of_nat j < U64.modulus.
Proof.
  intro Hj.
  pose proof (pow2_nat_pos j) as Hp.
  assert (Hle : 2 ^ Z.of_nat j <= 2 ^ 33)
    by (apply Z.pow_le_mono_r; lia).
  assert (Hmc : minChunkSize = 5242880) by reflexivity.
  assert (Hmod : U64.modulus = 18446744073709551616) by reflexivity.
  assert (H33 : 2 ^ 33 = 8589934592) by reflexivity.
  rewrite Hmc, Hmod. rewrite H33 in Hle. lia.
Qed.

(** C1. For every declared size that fits a [uint64], the chunk-size loop
    of [WriteStream] ends with a chunk size [C] that is at least
    [minChunkSize] and for which the number of parts [ceil(size / C)] is at
    most [listPartsMax]; it never divides by zero nor wraps around, and
    the result is a function of the size alone: any larger iteration
    budget gives the same [C]. *)
Theorem deriveChunkSize_bounds (size : Z) :
  U64.in_range size ->
  exists C : Z,
    deriveChunkSize size = Done C /\
    minChunkSize <= C /\
    U64.in_range C /\
    partCount size C <= listPartsMax /\
    (forall fuel : nat,
        (chunkSizeFuel <= fuel)%nat ->
        chunkSizeLoop fuel size minChunkSize = Done C).
Proof.
  intros Hsize.
  destruct (deriveChunkSize_run size Hsize) as (j & Hj & Hrun & Hq & _).
  destruct (chunk_power_bounds j Hj) as [Hlo Hhi].
  assert (Hmin : 0 < minChunkSize) by reflexivity.
  exists (minChunkSize * 2 ^ Z.of_nat j).
  split; [exact (Hrun 30%nat)|].
  split; [exact Hlo|].
  split; [split; [lia|exact Hhi]|].
  split; [apply partCount_le; [lia|exact Hq]|].
  intros fuel Hfuel.
  replace fuel with (34 + (fuel - 34))%nat
    by (unfold chunkSizeFuel in Hfuel; lia).
  apply Hrun.
Qed.

Lemma deriveChunkSize_bounds_witness :
  U64.in_range (12 * MB) /\
  exists C : Z,
    deriveChunkSize (12 * MB) = Done C /\
    minChunkSize <= C /\
    U64.in_range C /\
    partCount (12 * MB) C <= listPartsMax /\
    (forall fuel : nat,
        (chunkSizeFuel <= fuel)%nat ->
        chunkSizeLoop fuel (12 * MB) minChunkSize = Done C).
Proof.
  assert (H : U64.in_range (12 * MB)) by (vm_compute; split; congruence).
  split; [exact H | exact (deriveChunkSize_bounds (12 * MB) H)].
Defined.

(** C6, as stated, fails: for a size of exactly [1000 * minChunkSize] the
    loop doubles once, although the minimum chunk size already gives
    exactly 1000 parts. *)
Lemma deriveChunkSize_not_least_for_ceiling :
  ~ (forall (size C : Z) (k : nat),
        U64.in_range size ->
        deriveChunkSize size = Done C ->
        minChunkSize * 2 ^ Z.of_nat k < C ->
        listPartsMax < partCount size (minChunkSize * 2 ^ Z.of_nat k)).
Proof.
  intro H.
  specialize (H (1000 * minChunkSize) (2 * minChunkSize) 0%nat).
  assert (Hr : U64.in_range (1000 * minChunkSize))
    by (vm_compute; split; congruence).
  assert (Hd : deriveChunkSize (1000 * minChunkSize)
               = Done (2 * minChunkSize)) by (vm_compute; reflexivity).
  assert (Hlt : minChunkSize * 2 ^ Z.of_nat 0 < 2 * minChunkSize)
    by (vm_compute; reflexivity).
  specialize (H Hr Hd Hlt).
  vm_compute in H. discriminate H.
Qed.

(** C6, amended. For every declared size that fits a [uint64], the chunk
    size chosen is [minChunkSize * 2^k] for the least [k] whose quotient
    [size / C] (rounded down) is below [listPartsMax]: every smaller
    power-of-two multiple [C'] of the minimum has [size / C' >= 1000], so
    it needs more than 1000 parts unless [size] is exactly [1000 * C']. *)
Theorem deriveChunkSize_least (size : Z) :
  U64.in_range size ->
  exists k : nat,
    deriveChunkSize size = Done (minChunkSize * 2 ^ Z.of_nat k) /\
    size / (minChunkSize * 2 ^ Z.of_nat k) < listPartsMax /\
    partCount size (minChunkSize * 2 ^ Z.of_nat k) <= listPartsMax /\
    forall i : nat,
      (i < k)%nat ->
      listPartsMax <= size / (minChunkSize * 2 ^ Z.of_nat i) /\
      (listPartsMax < partCount size (minChunkSize * 2 ^ Z.of_nat i)
       \/ size = listPartsMax * (minChunkSize * 2 ^ Z.of_nat i)).
Proof.
  intros Hsize.
  destruct (deriveChunkSize_run size Hsize) as (k & Hk & Hrun & Hq & Hmin).
  destruct (chunk_power_bounds k Hk) as [Hlo _].
  assert (Hmc : 0 < minChunkSize) by reflexivity.
  exists k.
  split; [exact (Hrun 30%nat)|].
  split; [exact Hq|].
  split; [apply partCount_le; [lia|exact Hq]|].
  intros i Hi.
  split; [exact (Hmin i Hi)|].
  assert (Hi33 : (i <= 33)%nat) by lia.
  destruct (chunk_power_bounds i Hi33) as [Hlo' _].
  destruct (Z.eq_dec size (listPartsMax * (minChunkSize * 2 ^ Z.of_nat i)))
    as [Heq|Hne]; [right; exact Heq | left].
  apply partCount_gt; [lia|exact (Hmin i Hi)|exact Hne].
Qed.

Lemma deriveChunkSize_least_witness :
  U64.in_range (1000 * minChunkSize) /\
  exists k : nat,
    deriveChunkSize (1000 * minChunkSize)
    = Done (minChunkSize * 2 ^ Z.of_nat k) /\
    (1000 * minChunkSize) / (minChunkSize * 2 ^ Z.of_nat k)
    < listPartsMax /\
    partCount (1000 * minChunkSize) (minChunkSize * 2 ^ Z.of_nat k)
    <= listPartsMax /\
    forall i : nat,
      (i < k)%nat ->
      listPartsMax
      <= (1000 * minChunkSize) / (minChunkSize * 2 ^ Z.of_nat i) /\
      (listPartsMax
       < partCount (1000 * minChunkSize) (minChunkSize * 2 ^ Z.of_nat i)
       \/ 1000 * minChunkSize
          = listPartsMax * (minChunkSize * 2 ^ Z.of_nat i)).
Proof.
  assert (H : U64.in_range (1000 * minChunkSize))
    by (vm_compute; split; congruence).
  split; [exact H | exact (deriveChunkSize_least (1000 * minChunkSize) H)].
Defined.

End ChunkPlanner.

(** ** Session resolution *)

Section Resolution.

Lemma leb_empty (s : string) : String.leb "" s = true.
Proof. destruct s; reflexivity. Qed.

Lemma ascii_compare_trans_le (a b c : ascii) :
  Ascii.compare a b <> Gt -> Ascii.compare b c <> Gt ->
  Ascii.compare a c <> Gt
  /\ (Ascii.compare a c = Eq ->
      Ascii.compare a b = Eq /\ Ascii.compare b c = Eq).
Proof.
  unfold Ascii.compare.
  destruct (N.compare_spec (N_of_ascii a) (N_of_ascii b)),
           (N.compare_spec (N_of_ascii b) (N_of_ascii c)),
           (N.compare_spec (N_of_ascii a) (N_of_ascii c));
    intros Hab Hbc; try congruence; try lia;
      (split; [discriminate|intro; try discriminate; split; reflexivity]).
Qed.

Lemma string_leb_trans (s1 : string) :
  forall s2 s3 : string,
    String.leb s1 s2 = true -> String.leb s2 s3 = true ->
    String.leb s1 s3 = true.
Proof.
  unfold String.leb.
  induction s1 as [|a s1 IH]; intros [|b s2] [|c s3];
    cbn [String.compare]; try congruence.
  intros H12 H23.
  assert (Hab : Ascii.compare a b <> Gt)
    by (intro E; rewrite E in H12; discriminate).
  assert (Hbc : Ascii.compare b c <> Gt)
    by (intro E; rewrite E in H23; discriminate).
  destruct (ascii_compare_trans_le a b c Hab Hbc) as [Hac Heq].
  destruct (Ascii.compare a c) eqn:Eac; [|reflexivity|congruence].
  destruct (Heq eq_refl) as [Eab Ebc]. rewrite Eab in H12. rewrite Ebc in H23.
  exact (IH s2 s3 H12 H23).
Qed.

Lemma string_leb_refl (s : string) : String.leb s s = true.
Proof. destruct (String.leb_total s s); assumption. Qed.

Lemma pickMulti_eq (path uploadID : string) (multi : option Multi)
      (m : Multi) :
  pickMulti path (uploadID, multi) m
  = if String.eqb (Key m) path && String.leb uploadID (UploadId m)
    then (UploadId m, Some m)
    else (uploadID, multi).
Proof. reflexivity. Qed.

(** The selection loop of [getHighestIDMulti], started from a session
    already selected or from none: the session it ends with is for the
    path and no session for the path in the listing has a higher
    identifier; it ends with none exactly when none was selected and the
    listing holds no session for the path. *)
Lemma pickMulti_highest (path : string) (multis : list Multi) :
  forall (uploadID : string) (multi : option Multi),
    (forall m0, multi = Some m0 ->
                Key m0 = path /\ UploadId m0 = uploadID) ->
    (multi = None -> uploadID = ""%string) ->
    (forall m, snd (fold_left (pickMulti path) multis (uploadID, multi))
               = Some m ->
               (multi = Some m \/ In m multis)
               /\ Key m = path
               /\ String.leb uploadID (UploadId m) = true
               /\ forall m', In m' multis -> Key m' = path ->
                             String.leb (UploadId m') (UploadId m) = true)
    /\ (snd (fold_left (pickMulti path) multis (uploadID, multi)) = None
        <-> multi = None /\ forall m', In m' multis -> Key m' <> path).
Proof.
  induction multis as [|m1 multis IH]; intros uploadID multi Hsel Hnone.
  - cbn [fold_left snd]. split.
    + intros m Hm.
      destruct (Hsel m Hm) as [Hk Hid].
      split; [left; exact Hm|]. split; [exact Hk|].
      split; [rewrite Hid; apply string_leb_refl|].
      intros m' [].
    + split.
      * intro E. split; [exact E|]. intros m' [].
      * intros [E _]. exact E.
  - cbn [fold_left]. rewrite !pickMulti_eq.
    destruct (String.eqb_spec (Key m1) path) as [Hkey|Hkey]; cbn [andb].
    + destruct (String.leb uploadID (UploadId m1)) eqn:Hle.
      * destruct (IH (UploadId m1) (Some m1)) as [IH1 IH2].
        { intros m0 E. injection E as <-. split; [exact Hkey|reflexivity]. }
        { discriminate. }
        split.
        -- intros m Hm. destruct (IH1 m Hm) as (Hin & Hk & Hge & Hmax).
           split; [right; destruct Hin as [E|Hin];
                   [injection E as <-; left; reflexivity|right; exact Hin]|].
           split; [exact Hk|].
           split; [exact (string_leb_trans _ _ _ Hle Hge)|].
           intros m' [<-|Hin'] Hk'; [exact Hge|exact (Hmax m' Hin' Hk')].
        -- split.
           ++ intro E. apply IH2 in E. destruct E as [E _]. discriminate E.
           ++ intros [_ Hall]. exfalso. apply (Hall m1); [left; reflexivity|].
              exact Hkey.
      * destruct (IH uploadID multi Hsel Hnone) as [IH1 IH2].
        assert (Hlt : String.leb (UploadId m1) uploadID = true).
        { destruct (String.leb_total uploadID (UploadId m1)) as [E|E];
            [congruence|exact E]. }
        split.
        -- intros m Hm. destruct (IH1 m Hm) as (Hin & Hk & Hge & Hmax).
           split; [destruct Hin as [E|Hin];
                   [left; exact E|right; right; exact Hin]|].
           split; [exact Hk|]. split; [exact Hge|].
           intros m' [<-|Hin'] Hk';
             [exact (string_leb_trans _ _ _ Hlt Hge)|exact (Hmax m' Hin' Hk')].
        -- split.
           ++ intro E. apply IH2 in E. destruct E as [E _].
              rewrite (Hnone E) in Hle. rewrite leb_empty in Hle.
              discriminate Hle.
           ++ intros [_ Hall]. exfalso. apply (Hall m1); [left; reflexivity|].
              exact Hkey.
    + destruct (IH uploadID multi Hsel Hnone) as [IH1 IH2].
      split.
      * intros m Hm. destruct (IH1 m Hm) as (Hin & Hk & Hge & Hmax).
        split; [destruct Hin as [E|Hin];
                [left; exact E|right; right; exact Hin]|].
        split; [exact Hk|]. split; [exact Hge|].
        intros m' [<-|Hin'] Hk'; [congruence|exact (Hmax m' Hin' Hk')].
      * split.
        -- intro E. apply IH2 in E. destruct E as [E Hall].
           split; [exact E|]. intros m' [<-|Hin']; [exact Hkey|].
           exact (Hall m' Hin').
        -- intros [E Hall]. apply IH2. split; [exact E|].
           intros m' Hin'. apply Hall. right. exact Hin'.
Qed.

Context {W : Type} (R : Remote W).

(** On a non-empty listing [getHighestIDMulti] returns, without any further
    call, the listed session for the path with the highest identifier, or
    a nil session when no listed session is for the path. *)
Lemma getHighestIDMulti_selects_highest
      (path : string) (w w1 : W) (multis : list Multi)
      (err : option ExtError) :
  ListMulti R path "" w = ((multis, err), w1) ->
  listMultiFailed err = false ->
  multis <> [] ->
  exists r : option Multi,
    getHighestIDMulti R path w = (Done (r, None), w1)
    /\ (forall m, r = Some m ->
                  In m multis /\ Key m = path
                  /\ forall m', In m' multis -> Key m' = path ->
                                String.leb (UploadId m') (UploadId m) = true)
    /\ (r = None <-> forall m', In m' multis -> Key m' <> path).
Proof.
  intros Hlist Hok Hne.
  unfold getHighestIDMulti. rewrite Hlist, Hok.
  replace (0 <? Z.of_nat (List.length multis)) with true
    by (symmetry; apply Z.ltb_lt; destruct multis;
        [congruence|cbn [List.length]; lia]).
  destruct (pickMulti_highest path multis ""%string None) as [H1 H2].
  { discriminate. }
  { reflexivity. }
  eexists. split; [reflexivity|]. split.
  - intros m Hm. destruct (H1 m Hm) as (Hin & Hk & _ & Hmax).
    destruct Hin as [E|Hin]; [discriminate E|].
    split; [exact Hin|]. split; [exact Hk|exact Hmax].
  - rewrite H2. split; [intros [_ H]; exact H|intro H; split;
                                               [reflexivity|exact H]].
Qed.

(** On an empty listing a session is initiated. *)
Lemma getHighestIDMulti_initiates
      (path : string) (w w1 w2 : W) (err : option ExtError)
      (multi : option Multi) (ierr : option ExtError) :
  ListMulti R path "" w = (([], err), w1) ->
  listMultiFailed err = false ->
  InitMulti R path w1 = ((multi, ierr), w2) ->
  getHighestIDMulti R path w = (Done (multi, option_map Ext ierr), w2).
Proof.
  intros Hlist Hok Hinit.
  unfold getHighestIDMulti. rewrite Hlist, Hok. cbn [List.length Z.of_nat].
  rewrite Z.ltb_irrefl, Hinit. reflexivity.
Qed.

(** A non-empty listing of sessions none of which is for [path] gives a
    nil session and no error, and no session is initiated. *)
Lemma getHighestIDMulti_no_exact_key
      (path : string) (w w1 : W) (multis : list Multi)
      (err : option ExtError) :
  ListMulti R path "" w = ((multis, err), w1) ->
  listMultiFailed err = false ->
  multis <> [] ->
  (forall m, In m multis -> Key m <> path) ->
  getHighestIDMulti R path w = (Done (None, None), w1).
Proof.
  intros Hlist Hok Hne Hkeys.
  unfold getHighestIDMulti. rewrite Hlist, Hok.
  destruct multis as [|m0 ms]; [congruence|].
  replace (0 <? Z.of_nat (List.length (m0 :: ms))) with true
    by (symmetry; apply Z.ltb_lt; cbn [List.length]; lia).
  assert (Hfold : forall l acc,
             (forall m, In m l -> Key m <> path) ->
             fold_left (pickMulti path) l acc = acc).
  { induction l as [|m l IH]; intros acc Hl; [reflexivity|].
    cbn [fold_left]. destruct acc as [uploadID multi].
    unfold pickMulti at 2.
    assert (Hk : String.eqb (Key m) path = false).
    { apply String.eqb_neq. apply Hl. left. reflexivity. }
    rewrite Hk. cbn [andb]. apply IH.
    intros m' Hin. apply Hl. right. exact Hin. }
  rewrite Hfold by exact Hkeys. reflexivity.
Qed.

End Resolution.

(** C8. When the listing is not empty but holds no session for the path
    itself, no session is initiated.  With one open session for the key
    ["ab"], resolving the path ["a"] lists it (its key starts with ["a"]),
    selects nothing, and returns a nil session with a nil error after that
    single call; [getAllParts] then dereferences the nil session. *)
Theorem getHighestIDMulti_other_keys_only :
  let st := MemStore.mkStore [(mkMulti "ab" "7", [])] [] 0 [] [] in
  fst (ListMulti MemStore.remote "a" "" st) = ([mkMulti "ab" "7"], None)
  /\ fst (getHighestIDMulti MemStore.remote "a" st) = Done (None, None)
  /\ MemStore.log (snd (getHighestIDMulti MemStore.remote "a" st))
     = [MemStore.CallListMulti "a" ""]
  /\ fst (getAllParts MemStore.remote "a" st) = Panic NilDereference
  /\ fst (WriteStream MemStore.remote 4 "a" 0 3
                      [(3, Some ErrUnexpectedEOF)] st)
     = Panic NilDereference.
Proof.
  cbv zeta. repeat split; vm_compute; reflexivity.
Qed.

(** ** Stream writer *)

Section StreamWriter.

Context {W : Type} (R : Remote W).

Lemma U64_mul_wrap_l (a b : Z) :
  U64.mul (U64.wrap a) b = (a * b) mod U64.modulus.
Proof.
  unfold U64.mul, U64.wrap. apply Z.mul_mod_idemp_l.
  unfold U64.modulus. lia.
Qed.

Lemma deriveChunkSize_Done (size C : Z) :
  U64.in_range size ->
  deriveChunkSize size = Done C ->
  minChunkSize <= C < U64.modulus.
Proof.
  intros Hsize HC.
  destruct (deriveChunkSize_run size Hsize) as (j & Hj & Hrun & _).
  pose proof (Hrun 30%nat) as H30.
  change (chunkSizeLoop (34 + 30) size minChunkSize)
    with (deriveChunkSize size) in H30.
  rewrite HC in H30. injection H30 as ->.
  apply chunk_power_bounds. exact Hj.
Qed.

(** The offset check, as a proposition. *)
Lemma invalidOffset_true_iff (offset size chunkSize : Z)
      (parts : list Part) :
  invalidOffset offset size chunkSize parts = true <->
  ((Z.of_nat (List.length parts) * chunkSize) mod U64.modulus < offset
   \/ (offset < size /\ offset mod chunkSize <> 0)).
Proof.
  unfold invalidOffset. rewrite U64_mul_wrap_l.
  rewrite orb_true_iff, andb_true_iff, negb_true_iff.
  rewrite !Z.ltb_lt, Z.eqb_neq. reflexivity.
Qed.

(** The streaming loop never produces an [InvalidOffsetError]: the errors
    it returns are those of the reader and of the store. *)
Lemma streamLoop_not_InvalidOffset (fuel : nat) :
  forall multi chunkSize size reader partNumber totalRead parts w p o,
    fst (streamLoop R fuel multi chunkSize size reader partNumber
                    totalRead parts w)
    <> Done (Some (InvalidOffsetError p o)).
Proof.
  induction fuel as [|fuel IH];
    intros multi chunkSize size reader partNumber totalRead parts w p o;
    cbn [streamLoop].
  - cbn. discriminate.
  - destruct (ReadFull reader) as [[bytesRead err] reader'].
    destruct (fatalRead err).
    + destruct err; cbn; discriminate.
    + destruct (_ && _); [cbn; discriminate|].
      destruct multi as [m|]; [|cbn; discriminate].
      destruct (PutPart R m partNumber bytesRead w) as [[part perr] w1].
      destruct perr; [cbn; discriminate|].
      destruct (_ =? size).
      * destruct (Complete R m (parts ++ [part]) w1). cbn. discriminate.
      * apply IH.
Qed.

(** C2. When the session and its parts were obtained, [WriteStream]
    returns an [InvalidOffsetError] exactly when the offset exceeds
    [uint64(len(parts)) * chunkSize] or the offset is below the declared
    size and is not a multiple of the chunk size derived for that size.
    The product is the [uint64] one; it is the exact product whenever that
    is below [2^64].  The error carries the path and the offset and is
    returned before anything else is asked of the store.  In particular an
    offset below the size that is not a multiple of the chunk size is
    always refused. *)
Theorem WriteStream_InvalidOffset
        (fuel : nat) (path : string) (offset size : Z) (reader : Reader)
        (w w1 : W) (chunkSize : Z) (multi : option Multi)
        (parts : list Part) :
  deriveChunkSize size = Done chunkSize ->
  getAllParts R path w = (Done (multi, parts, None), w1) ->
  ((exists p o,
       fst (WriteStream R fuel path offset size reader w)
       = Done (Some (InvalidOffsetError p o)))
   <-> ((Z.of_nat (List.length parts) * chunkSize) mod U64.modulus < offset
        \/ (offset < size /\ offset mod chunkSize <> 0)))
  /\ ((exists p o,
          fst (WriteStream R fuel path offset size reader w)
          = Done (Some (InvalidOffsetError p o)))
      -> WriteStream R fuel path offset size reader w
         = (Done (Some (InvalidOffsetError path offset)), w1))
  /\ (0 <= chunkSize ->
      Z.of_nat (List.length parts) * chunkSize < U64.modulus ->
      ((exists p o,
           fst (WriteStream R fuel path offset size reader w)
           = Done (Some (InvalidOffsetError p o)))
       <-> (Z.of_nat (List.length parts) * chunkSize < offset
            \/ (offset < size /\ offset mod chunkSize <> 0))))
  /\ (offset < size -> offset mod chunkSize <> 0 ->
      WriteStream R fuel path offset size reader w
      = (Done (Some (InvalidOffsetError path offset)), w1)).
Proof.
  intros Hchunk Hparts.
  assert (Hyes : invalidOffset offset size chunkSize parts = true ->
                 WriteStream R fuel path offset size reader w
                 = (Done (Some (InvalidOffsetError path offset)), w1)).
  { intro Hinv. unfold WriteStream. rewrite Hchunk, Hparts, Hinv.
    reflexivity. }
  assert (Hno : (exists p o,
                    fst (WriteStream R fuel path offset size reader w)
                    = Done (Some (InvalidOffsetError p o))) ->
                invalidOffset offset size chunkSize parts = true).
  { intros (p & o & Hret).
    destruct (invalidOffset offset size chunkSize parts) eqn:Hinv;
      [reflexivity|].
    exfalso. revert Hret.
    unfold WriteStream. rewrite Hchunk, Hparts, Hinv.
    destruct (resumeState offset chunkSize parts) as [[[pn tr] ps]|k|];
      [|cbn; discriminate|cbn; discriminate].
    apply streamLoop_not_InvalidOffset. }
  assert (Hiff : (exists p o,
                     fst (WriteStream R fuel path offset size reader w)
                     = Done (Some (InvalidOffsetError p o)))
                 <-> ((Z.of_nat (List.length parts) * chunkSize)
                        mod U64.modulus < offset
                      \/ (offset < size /\ offset mod chunkSize <> 0))).
  { rewrite <- invalidOffset_true_iff. split; [exact Hno|].
    intro Hinv. exists path, offset. rewrite (Hyes Hinv). reflexivity. }
  split; [exact Hiff|]. split; [|split].
  - intro Hret. apply Hyes, Hno, Hret.
  - intros HC Hfit. rewrite Z.mod_small in Hiff; [exact Hiff|].
    split; [|exact Hfit]. apply Z.mul_nonneg_nonneg; [lia|exact HC].
  - intros Hlt Hmod. apply Hyes. apply invalidOffset_true_iff.
    right. split; assumption.
Qed.

(** One iteration of the loop on a read that ends short of the chunk size
    without a fatal error, away from the declared size. *)
Lemma streamLoop_break
      (fuel : nat) (multi : option Multi) (chunkSize size : Z)
      (reader reader' : Reader) (bytesRead : Z) (err : option ExtError)
      (partNumber totalRead : Z) (parts : list Part) (w : W) :
  ReadFull reader = ((bytesRead, err), reader') ->
  fatalRead err = false ->
  U64.wrap bytesRead < chunkSize ->
  U64.add totalRead (U64.wrap bytesRead) <> size ->
  streamLoop R (S fuel) multi chunkSize size reader partNumber totalRead
             parts w
  = (Done None, w).
Proof.
  intros Hread Hfatal Hshort Htotal.
  cbn [streamLoop]. rewrite Hread, Hfatal.
  apply Z.ltb_lt in Hshort. apply Z.eqb_neq in Htotal.
  rewrite Hshort, Htotal. reflexivity.
Qed.

(** A read that fails with an error other than the two end-of-input ones
    ends [WriteStream] with that error, before any call to the store. *)
Lemma streamLoop_fatal_read
      (fuel : nat) (multi : option Multi) (chunkSize size : Z)
      (reader reader' : Reader) (bytesRead : Z) (e : ExtError)
      (partNumber totalRead : Z) (parts : list Part) (w : W) :
  ReadFull reader = ((bytesRead, Some e), reader') ->
  fatalRead (Some e) = true ->
  streamLoop R (S fuel) multi chunkSize size reader partNumber totalRead
             parts w
  = (Done (Some (Ext e)), w).
Proof.
  intros Hread Hfatal. cbn [streamLoop]. rewrite Hread, Hfatal.
  reflexivity.
Qed.

(** C4, as stated, fails for a read that returns fewer than [chunkSize]
    bytes because the reader failed: the first branch of the loop returns
    the reader's error.  Here the first read delivers 3 bytes and fails;
    3 is below the chunk size of 5 MB and differs from the declared
    12 MB. *)
Lemma streamLoop_failed_read_is_reported :
  ~ (forall (fuel : nat) (multi : option Multi) (chunkSize size : Z)
            (reader reader' : Reader) (bytesRead : Z)
            (err : option ExtError) (partNumber totalRead : Z)
            (parts : list Part) (w : MemStore.Store),
        ReadFull reader = ((bytesRead, err), reader') ->
        U64.wrap bytesRead < chunkSize ->
        U64.add totalRead (U64.wrap bytesRead) <> size ->
        streamLoop MemStore.remote (S fuel) multi chunkSize size reader
                   partNumber totalRead parts w
        = (Done None, w)).
Proof.
  intro H.
  specialize (H 0%nat (Some (mkMulti Scenario.path "u")) (5 * MB)
                Scenario.size [(3, Some (OtherError "connection reset"))]
                [] 3 (Some (OtherError "connection reset")) 1 0 []
                MemStore.empty eq_refl).
  assert (Hshort : U64.wrap 3 < 5 * MB) by (vm_compute; reflexivity).
  assert (Htotal : U64.add 0 (U64.wrap 3) <> Scenario.size)
    by (vm_compute; discriminate).
  specialize (H Hshort Htotal).
  vm_compute in H. discriminate H.
Qed.

(** C4, amended. At every iteration of the streaming loop, a read that
    returns fewer than [chunkSize] bytes with no error other than [io.EOF]
    or [io.ErrUnexpectedEOF], while the running total differs from the
    declared size, ends [WriteStream] with [nil]: the loop is left without
    any call to the store, so the partial buffer is not uploaded and the
    session is not completed. *)
Theorem streamLoop_short_read
        (fuel : nat) (multi : option Multi) (chunkSize size : Z)
        (reader reader' : Reader) (bytesRead : Z) (err : option ExtError)
        (partNumber totalRead : Z) (parts : list Part) (w : W) :
  ReadFull reader = ((bytesRead, err), reader') ->
  fatalRead err = false ->
  U64.wrap bytesRead < chunkSize ->
  U64.add totalRead (U64.wrap bytesRead) <> size ->
  streamLoop R (S fuel) multi chunkSize size reader partNumber totalRead
             parts w
  = (Done None, w).
Proof.
  intros Hread Hfatal Hshort Htotal.
  exact (streamLoop_break fuel multi chunkSize size reader reader' bytesRead
                          err partNumber totalRead parts w Hread Hfatal
                          Hshort Htotal).
Qed.

Lemma Int_wrap_small (z : Z) : 0 <= z < 2 ^ 63 -> Int.wrap z = z.
Proof.
  intros [Hlo Hhi]. unfold Int.wrap.
  assert (H63 : 2 ^ 63 = 9223372036854775808) by reflexivity.
  assert (H64 : 2 ^ 64 = 18446744073709551616) by reflexivity.
  rewrite H63 in *. rewrite H64.
  rewrite Z.mod_small by lia.
  destruct (Z.ltb_spec z 9223372036854775808); [reflexivity|lia].
Qed.

(** An accepted offset lies within the parts already uploaded. *)
Lemma accepted_offset_within_parts (offset size chunkSize : Z)
      (parts : list Part) :
  0 <= offset -> 0 < chunkSize ->
  invalidOffset offset size chunkSize parts = false ->
  offset / chunkSize <= Z.of_nat (List.length parts).
Proof.
  intros Hoff HC Hinv.
  unfold invalidOffset in Hinv. apply orb_false_iff in Hinv.
  destruct Hinv as [Hinv _]. rewrite U64_mul_wrap_l in Hinv.
  apply Z.ltb_ge in Hinv.
  assert (Hmod : (Z.of_nat (List.length parts) * chunkSize) mod U64.modulus
                 <= Z.of_nat (List.length parts) * chunkSize).
  { apply Z.mod_le; [nia|]. reflexivity. }
  apply Z.div_le_upper_bound; [exact HC|]. lia.
Qed.

Lemma resumeState_parts (offset size chunkSize : Z) (parts : list Part) :
  U64.in_range offset ->
  minChunkSize <= chunkSize ->
  parts <> [] ->
  invalidOffset offset size chunkSize parts = false ->
  (Z.to_nat (offset / chunkSize) <= List.length parts)%nat /\
  resumeState offset chunkSize parts
  = Done (offset / chunkSize + 1, offset,
          firstn (Z.to_nat (offset / chunkSize)) parts).
Proof.
  intros [Hlo Hhi] HC Hne Hinv.
  assert (Hmc : minChunkSize = 5242880) by reflexivity.
  assert (Hmod : U64.modulus = 18446744073709551616) by reflexivity.
  assert (H63 : 2 ^ 63 = 9223372036854775808) by reflexivity.
  rewrite Hmc in HC. rewrite Hmod in Hhi.
  assert (Hq0 : 0 <= offset / chunkSize) by (apply Z.div_pos; lia).
  assert (Hq1 : offset / chunkSize <= offset / 4).
  { apply Z.div_le_compat_l; lia. }
  assert (Hq2 : offset / 4 < 4611686018427387904)
    by (apply Z.div_lt_upper_bound; lia).
  pose proof (accepted_offset_within_parts offset size chunkSize parts
                Hlo ltac:(lia) Hinv) as Hlen.
  split; [lia|].
  unfold resumeState.
  destruct parts as [|p ps]; [congruence|].
  cbn [List.length]. rewrite Nat2Z.inj_succ.
  destruct (Z.ltb_spec 0 (Z.succ (Z.of_nat (List.length ps)))); [|lia].
  rewrite (Int_wrap_small (offset / chunkSize)) by (rewrite H63; lia).
  unfold Int.add, Int.sub.
  rewrite (Int_wrap_small (offset / chunkSize + 1)) by (rewrite H63; lia).
  replace (offset / chunkSize + 1 - 1) with (offset / chunkSize) by lia.
  rewrite (Int_wrap_small (offset / chunkSize)) by (rewrite H63; lia).
  unfold sliceTo.
  destruct (Z.ltb_spec (offset / chunkSize) 0); [lia|].
  cbn [List.length] in Hlen |- *. rewrite Nat2Z.inj_succ in Hlen |- *.
  destruct (Z.ltb_spec (Z.succ (Z.of_nat (List.length ps)))
                       (offset / chunkSize)); [lia|].
  reflexivity.
Qed.

(** A failed part upload ends [WriteStream] at once with the store's
    error: the state left is the one the failed call left, so nothing is
    retried, no further part is uploaded and the session is not
    completed. *)
Lemma streamLoop_PutPart_error
      (fuel : nat) (m : Multi) (chunkSize size : Z)
      (reader reader' : Reader) (bytesRead : Z) (err : option ExtError)
      (partNumber totalRead : Z) (parts : list Part) (w w1 : W)
      (part : Part) (e : ExtError) :
  ReadFull reader = ((bytesRead, err), reader') ->
  fatalRead err = false ->
  (U64.wrap bytesRead <? chunkSize)
  && negb (U64.add totalRead (U64.wrap bytesRead) =? size) = false ->
  PutPart R m partNumber bytesRead w = ((part, Some e), w1) ->
  streamLoop R (S fuel) (Some m) chunkSize size reader partNumber
             totalRead parts w
  = (Done (Some (Ext e)), w1).
Proof.
  intros Hread Hfatal Hgo Hput.
  cbn [streamLoop]. rewrite Hread, Hfatal, Hgo, Hput. reflexivity.
Qed.

(** The part that brings the running total to the declared size is
    followed by the completion call, whose result is dropped: the loop
    ends with [nil] whatever [Complete] returns. *)
Lemma streamLoop_Complete_result_dropped
      (fuel : nat) (m : Multi) (chunkSize size : Z)
      (reader reader' : Reader) (bytesRead : Z) (err : option ExtError)
      (partNumber totalRead : Z) (parts : list Part) (w w1 : W)
      (part : Part) :
  ReadFull reader = ((bytesRead, err), reader') ->
  fatalRead err = false ->
  U64.add totalRead (U64.wrap bytesRead) = size ->
  PutPart R m partNumber bytesRead w = ((part, None), w1) ->
  streamLoop R (S fuel) (Some m) chunkSize size reader partNumber
             totalRead parts w
  = (Done None, snd (Complete R m (parts ++ [part]) w1)).
Proof.
  intros Hread Hfatal Htotal Hput.
  cbn [streamLoop]. rewrite Hread, Hfatal, Htotal, Z.eqb_refl.
  rewrite andb_false_r, Hput.
  destruct (Complete R m (parts ++ [part]) w1). reflexivity.
Qed.

(** With a positive chunk size the streaming loop ends within one
    iteration per result the reader holds, plus one. *)
Lemma streamLoop_terminates (reader : Reader) :
  forall (fuel : nat) (multi : option Multi) (chunkSize size : Z)
         (partNumber totalRead : Z) (parts : list Part) (w : W),
    0 < chunkSize ->
    (List.length reader < fuel)%nat ->
    fst (streamLoop R fuel multi chunkSize size reader partNumber totalRead
                    parts w)
    <> OutOfFuel.
Proof.
  induction reader as [|[n e] reader IH];
    intros fuel multi chunkSize size partNumber totalRead parts w HC Hfuel;
    (destruct fuel as [|fuel]; [cbn [List.length] in Hfuel; lia|]);
    cbn [streamLoop ReadFull].
  - cbn [fatalRead].
    replace (U64.wrap 0) with 0 by reflexivity.
    destruct (Z.ltb_spec 0 chunkSize) as [_|]; [|lia].
    cbn [andb].
    destruct (U64.add totalRead 0 =? size); cbn [negb];
      [|cbn; discriminate].
    destruct multi as [m|]; [|cbn; discriminate].
    destruct (PutPart R m partNumber 0 w) as [[part perr] w1].
    destruct perr; [cbn; discriminate|].
    destruct (Complete R m (parts ++ [part]) w1). cbn. discriminate.
  - destruct (fatalRead e); [cbn; discriminate|].
    destruct (_ && _); [cbn; discriminate|].
    destruct multi as [m|]; [|cbn; discriminate].
    destruct (PutPart R m partNumber n w) as [[part perr] w1].
    destruct perr; [cbn; discriminate|].
    destruct (_ =? size).
    + destruct (Complete R m (parts ++ [part]) w1). cbn. discriminate.
    + apply IH; [exact HC|]. cbn [List.length] in Hfuel. lia.
Qed.

End StreamWriter.

Lemma WriteStream_InvalidOffset_witness :
  deriveChunkSize Scenario.size = Done (5 * MB) /\
  WriteStream MemStore.remote 4 Scenario.path 3 Scenario.size
              Scenario.wholeStream MemStore.empty
  = (Done (Some (InvalidOffsetError Scenario.path 3)),
     snd (getAllParts MemStore.remote Scenario.path MemStore.empty)).
Proof.
  assert (Hchunk : deriveChunkSize Scenario.size = Done (5 * MB))
    by (vm_compute; reflexivity).
  split; [exact Hchunk|].
  refine (proj2 (proj2 (proj2 (WriteStream_InvalidOffset
                          MemStore.remote 4 Scenario.path 3 Scenario.size
                          Scenario.wholeStream MemStore.empty _ (5 * MB)
                          (Some (mkMulti Scenario.path "u")) []
                          Hchunk _))) _ _).
  - vm_compute. reflexivity.
  - vm_compute. reflexivity.
  - vm_compute. discriminate.
Defined.

Lemma streamLoop_short_read_witness :
  streamLoop MemStore.remote 1 (Some (mkMulti Scenario.path "u")) (5 * MB)
             Scenario.size [(1 * MB, Some ErrUnexpectedEOF)] 3 (10 * MB) []
             Scenario.interrupted
  = (Done None, Scenario.interrupted).
Proof.
  refine (streamLoop_short_read
            MemStore.remote 0 (Some (mkMulti Scenario.path "u")) (5 * MB)
            Scenario.size [(1 * MB, Some ErrUnexpectedEOF)] [] (1 * MB)
            (Some ErrUnexpectedEOF) 3 (10 * MB) [] Scenario.interrupted
            _ _ _ _).
  - reflexivity.
  - reflexivity.
  - vm_compute. reflexivity.
  - vm_compute. discriminate.
Defined.

(** C3. When parts exist and the offset is accepted, [WriteStream] enters
    its streaming loop at part number [offset / chunkSize + 1], with the
    known parts cut down to the first [offset / chunkSize] of them (a cut
    that is always within the list) and the running total set to the
    offset.  For a declared size of 12 MB the chunk size is 5 MB, the whole
    stream is uploaded as parts of 5, 5 and 2 MB, and resuming the write cut
    after 10 MB at offset 10 MB uploads part 3 alone and completes the
    session with parts 1, 2, 3. *)
Theorem WriteStream_resume :
  (forall (W : Type) (R : Remote W) (fuel : nat) (path : string)
          (offset size : Z) (reader : Reader) (w w1 : W) (chunkSize : Z)
          (multi : option Multi) (parts : list Part),
      U64.in_range size ->
      U64.in_range offset ->
      deriveChunkSize size = Done chunkSize ->
      getAllParts R path w = (Done (multi, parts, None), w1) ->
      parts <> [] ->
      invalidOffset offset size chunkSize parts = false ->
      (Z.to_nat (offset / chunkSize) <= List.length parts)%nat /\
      resumeState offset chunkSize parts
      = Done (offset / chunkSize + 1, offset,
              firstn (Z.to_nat (offset / chunkSize)) parts) /\
      WriteStream R fuel path offset size reader w
      = streamLoop R fuel multi chunkSize size reader
                   (offset / chunkSize + 1) offset
                   (firstn (Z.to_nat (offset / chunkSize)) parts) w1)
  /\ deriveChunkSize Scenario.size = Done (5 * MB)
  /\ fst Scenario.afterWhole = Done None
  /\ MemStore.putCalls (MemStore.log (snd Scenario.afterWhole))
     = [(1, 5 * MB); (2, 5 * MB); (3, 2 * MB)]
  /\ fst Scenario.afterCut = Done None
  /\ MemStore.uploads Scenario.interrupted
     = [(mkMulti Scenario.path "u", MemStore.uniformParts 2 (5 * MB))]
  /\ fst Scenario.afterResume = Done None
  /\ MemStore.putCalls (MemStore.log (snd Scenario.afterResume))
     = [(3, 2 * MB)]
  /\ MemStore.completeCalls (MemStore.log (snd Scenario.afterResume))
     = [[1; 2; 3]].
Proof.
  split.
  - intros W R fuel path offset size reader w w1 chunkSize multi parts
           Hsize Hoffset Hchunk Hparts Hne Hinv.
    destruct (deriveChunkSize_Done size chunkSize Hsize Hchunk) as [HC _].
    destruct (resumeState_parts offset size chunkSize parts
                                Hoffset HC Hne Hinv) as [Hlen Hres].
    split; [exact Hlen|]. split; [exact Hres|].
    unfold WriteStream. rewrite Hchunk, Hparts, Hinv, Hres. reflexivity.
  - repeat split; vm_compute; reflexivity.
Qed.

Lemma WriteStream_resume_witness :
  WriteStream MemStore.remote 4 Scenario.path (10 * MB) Scenario.size
              Scenario.restOfStream Scenario.interrupted
  = streamLoop MemStore.remote 4 (Some (mkMulti Scenario.path "u")) (5 * MB)
               Scenario.size Scenario.restOfStream
               (10 * MB / (5 * MB) + 1) (10 * MB)
               (firstn (Z.to_nat (10 * MB / (5 * MB)))
                       (MemStore.uniformParts 2 (5 * MB)))
               (snd (getAllParts MemStore.remote Scenario.path
                                 Scenario.interrupted)).
Proof.
  refine (proj2 (proj2 (proj1 WriteStream_resume
            MemStore.Store MemStore.remote 4%nat Scenario.path (10 * MB)
            Scenario.size Scenario.restOfStream Scenario.interrupted
            _ (5 * MB) (Some (mkMulti Scenario.path "u"))
            (MemStore.uniformParts 2 (5 * MB)) _ _ _ _ _ _))).
  - vm_compute. split; congruence.
  - vm_compute. split; congruence.
  - vm_compute. reflexivity.
  - vm_compute. reflexivity.
  - vm_compute. discriminate.
  - vm_compute. reflexivity.
Defined.

(** C5. A failure of the completion call is not reported.  Writing 3 bytes
    to a fresh path, with a store whose fifth call (the completion) fails:
    the part is uploaded, the completion is attempted with part 1 and
    fails, the session stays open and no object is stored, and yet
    [WriteStream] returns [nil]. *)
Theorem WriteStream_Complete_failure_unreported :
  let st := MemStore.mkStore [] [] 0
              [None; None; None; None; Some (S3Error "InternalError")] [] in
  let r := WriteStream MemStore.remote 4 "a/b" 0 3
                       [(3, Some ErrUnexpectedEOF)] st in
  fst r = Done None
  /\ MemStore.putCalls (MemStore.log (snd r)) = [(1, 3)]
  /\ MemStore.completeCalls (MemStore.log (snd r)) = [[1]]
  /\ MemStore.complete (mkMulti "a/b" "u") [mkPart 1 "etag" 3]
       (MemStore.mkStore [(mkMulti "a/b" "u", [mkPart 1 "etag" 3])] [] 1
          [Some (S3Error "InternalError")]
          [MemStore.CallListMulti "a/b" ""; MemStore.CallInitMulti "a/b";
           MemStore.CallListParts (mkMulti "a/b" "u");
           MemStore.CallPutPart (mkMulti "a/b" "u") 1 3])
     = (Some (S3Error "InternalError"), snd r)
  /\ MemStore.uploads (snd r) = [(mkMulti "a/b" "u", [mkPart 1 "etag" 3])]
  /\ MemStore.objects (snd r) = [].
Proof.
  cbv zeta. repeat split; vm_compute; reflexivity.
Qed.

(** ** Size accounting *)

Section SizeAccounting.

Context {W : Type} (R : Remote W).

Lemma U64_modulus_pos : 0 < U64.modulus.
Proof. reflexivity. Qed.

Lemma U64_wrap_small (z : Z) : U64.in_range z -> U64.wrap z = z.
Proof. intro H. apply Z.mod_small. exact H. Qed.

(** The nested [uint64] operations of [CurrentSize] amount to one reduction
    modulo [2^64] of the exact value. *)
Lemma sizeOfParts_mod (first : Part) (rest : list Part) :
  sizeOfParts (first :: rest)
  = ((Z.of_nat (List.length (first :: rest)) - 1) * Size first
     + Size (last (first :: rest) first)) mod U64.modulus.
Proof.
  unfold sizeOfParts, U64.add, U64.mul, U64.sub, U64.wrap.
  set (n := Z.of_nat (List.length (first :: rest))).
  set (a := Size first). set (b := Size (last (first :: rest) first)).
  pose proof U64_modulus_pos as HM.
  symmetry.
  rewrite Z.add_mod by lia.
  rewrite Z.mul_mod by lia.
  rewrite (Zminus_mod n 1).
  rewrite (Z.mod_small 1 U64.modulus) by (split; [lia|reflexivity]).
  reflexivity.
Qed.

Lemma CurrentSize_parts (path : string) (w w1 : W) (multi : option Multi)
      (parts : list Part) :
  getAllParts R path w = (Done (multi, parts, None), w1) ->
  CurrentSize R path w = (Done (sizeOfParts parts, None), w1).
Proof.
  intro Hparts. unfold CurrentSize. rewrite Hparts.
  destruct parts as [|first rest]; [reflexivity|].
  cbn [List.length]. rewrite Nat2Z.inj_succ.
  destruct (Z.eqb_spec (Z.succ (Z.of_nat (List.length rest))) 0); [lia|].
  reflexivity.
Qed.

End SizeAccounting.

Section PartialWrite.

Import MemStore.

Lemma prefix_refl (s : string) : String.prefix s s = true.
Proof.
  induction s as [|a s IH]; [reflexivity|].
  cbn [String.prefix]. destruct (Ascii.ascii_dec a a); [exact IH|congruence].
Qed.

Lemma multi_eqb_refl (m : Multi) : multi_eqb m m = true.
Proof. unfold multi_eqb. rewrite !String.eqb_refl. reflexivity. Qed.

Lemma multi_eqb_Key (m m' : Multi) : multi_eqb m m' = true -> Key m = Key m'.
Proof.
  unfold multi_eqb. intro H. apply andb_true_iff in H.
  apply String.eqb_eq. exact (proj1 H).
Qed.

Lemma unlisted_multi_eqb (path : string) (ups : list (Multi * list Part))
      (m : Multi) :
  unlisted path ups -> Key m = path ->
  forall u, In u ups -> multi_eqb m (fst u) = false.
Proof.
  intros Hun Hkey u Hin.
  destruct (multi_eqb m (fst u)) eqn:E; [|reflexivity].
  apply multi_eqb_Key in E. specialize (Hun u Hin).
  rewrite <- E, Hkey, prefix_refl in Hun. discriminate Hun.
Qed.

Lemma findParts_last (m : Multi) (ps : list Part)
      (ups : list (Multi * list Part)) :
  (forall u, In u ups -> multi_eqb m (fst u) = false) ->
  findParts m (ups ++ [(m, ps)]) = Some ps.
Proof.
  induction ups as [|[m' old] ups IH]; intro Hne; cbn [app findParts].
  - rewrite multi_eqb_refl. reflexivity.
  - pose proof (Hne (m', old) (or_introl eq_refl)) as Hm.
    cbn [fst] in Hm. rewrite Hm.
    apply IH. intros u Hin. apply Hne. right. exact Hin.
Qed.

Lemma setParts_last (m : Multi) (ps ps' : list Part)
      (ups : list (Multi * list Part)) :
  (forall u, In u ups -> multi_eqb m (fst u) = false) ->
  setParts m ps' (ups ++ [(m, ps)]) = ups ++ [(m, ps')].
Proof.
  induction ups as [|[m' old] ups IH]; intro Hne; cbn [app setParts].
  - rewrite multi_eqb_refl. reflexivity.
  - pose proof (Hne (m', old) (or_introl eq_refl)) as Hm.
    cbn [fst] in Hm. rewrite Hm.
    f_equal. apply IH. intros u Hin. apply Hne. right. exact Hin.
Qed.

Lemma listed_none (path : string) (ups : list (Multi * list Part)) :
  unlisted path ups ->
  filter (fun m => String.prefix path (Key m)) (map fst ups) = [].
Proof.
  induction ups as [|u ups IH]; intro Hun; [reflexivity|].
  cbn [map filter]. rewrite (Hun u) by (left; reflexivity).
  apply IH. intros u' Hin. apply Hun. right. exact Hin.
Qed.

Lemma insertPart_last (p : Part) (l : list Part) :
  (forall q, In q l -> N q < N p) -> insertPart p l = l ++ [p].
Proof.
  induction l as [|q l IH]; intro Hlt; [reflexivity|].
  cbn [insertPart app].
  pose proof (Hlt q (or_introl eq_refl)) as Hq.
  destruct (Z.ltb_spec (N p) (N q)); [lia|].
  destruct (Z.eqb_spec (N p) (N q)); [lia|].
  f_equal. apply IH. intros q' Hin. apply Hlt. right. exact Hin.
Qed.

Lemma uniformParts_S (j : nat) (C : Z) :
  uniformParts (S j) C
  = uniformParts j C ++ [mkPart (Z.of_nat (S j)) "etag" C].
Proof.
  unfold uniformParts. rewrite seq_S, map_app. reflexivity.
Qed.

Lemma insertPart_uniform (j : nat) (C : Z) :
  insertPart (mkPart (Z.of_nat j + 1) "etag" C) (uniformParts j C)
  = uniformParts (S j) C.
Proof.
  rewrite uniformParts_S. rewrite Nat2Z.inj_succ.
  replace (Z.succ (Z.of_nat j)) with (Z.of_nat j + 1) by lia.
  apply insertPart_last.
  intros q Hin. unfold uniformParts in Hin.
  apply in_map_iff in Hin. destruct Hin as (i & <- & Hi).
  apply in_seq in Hi. cbn [N]. lia.
Qed.

(** The streaming loop on a stream of [k] whole chunks followed by a short
    read, against a session that holds parts [1 .. j]: the [k] chunks become
    parts [j+1 .. j+k] and the loop ends with [nil]. *)
Lemma streamLoop_whole_chunks
      (ups0 : list (Multi * list Part)) (m : Multi) (C size : Z)
      (tail : ReadResult) (k : nat) :
  forall (j extra : nat) (parts : list Part) (st : Store),
    (forall u, In u ups0 -> multi_eqb m (fst u) = false) ->
    uploads st = ups0 ++ [(m, uniformParts j C)] ->
    faults st = [] ->
    minChunkSize <= C ->
    fatalRead (snd tail) = false ->
    0 <= fst tail < C ->
    Z.of_nat (j + k) * C + fst tail < size ->
    size < U64.modulus ->
    exists st' : Store,
      streamLoop remote (S k + extra) (Some m) C size
                 (repeat (C, None) k ++ [tail])
                 (Z.of_nat j + 1) (Z.of_nat j * C) parts st
      = (Done None, st')
      /\ uploads st' = ups0 ++ [(m, uniformParts (j + k) C)]
      /\ faults st' = [].
Proof.
  assert (Hmc : minChunkSize = 5242880) by reflexivity.
  assert (HM : U64.modulus = 18446744073709551616) by reflexivity.
  induction k as [|k IH];
    intros j extra parts st Hother Hups Hfaults HC Hfatal Htail Hsize Hmax;
    pose proof HC as HC'; pose proof Hmax as Hmax';
    rewrite Hmc in HC; rewrite HM in Hmax.
  - exists st. rewrite Nat.add_0_r in *.
    split; [|split; assumption].
    destruct tail as [n err]. cbn [fst snd] in *.
    apply (streamLoop_break remote extra (Some m) C size
             [(n, err)] [] n err); try assumption; try reflexivity.
    + rewrite U64_wrap_small; [lia|]. unfold U64.in_range. rewrite HM. lia.
    + rewrite (U64_wrap_small n)
        by (unfold U64.in_range; rewrite HM; lia).
      unfold U64.add. rewrite U64_wrap_small; [lia|].
      unfold U64.in_range. rewrite HM. nia.
  - assert (Hj : Z.of_nat (j + S k) = Z.of_nat j + 1 + Z.of_nat k) by lia.
    rewrite Hj in Hsize.
    assert (HwC : U64.wrap C = C).
    { apply U64_wrap_small. unfold U64.in_range. rewrite HM. nia. }
    assert (Htot : U64.add (Z.of_nat j * C) C = (Z.of_nat j + 1) * C).
    { unfold U64.add. rewrite U64_wrap_small; [ring|].
      unfold U64.in_range. rewrite HM. nia. }
    cbn [Nat.add repeat app streamLoop ReadFull fatalRead].
    rewrite HwC, Htot, Z.ltb_irrefl. cbn [andb].
    cbn [PutPart remote]. unfold putPart, enter.
    rewrite Hfaults. cbn [hd tl uploads].
    rewrite Hups, (findParts_last m _ ups0 Hother).
    rewrite (setParts_last m _ _ ups0 Hother), insertPart_uniform.
    destruct (Z.eqb_spec ((Z.of_nat j + 1) * C) size) as [Heq|_]; [nia|].
    assert (Hpn : Int.add (Z.of_nat j + 1) 1 = Z.of_nat (S j) + 1).
    { unfold Int.add. rewrite Int_wrap_small; [lia|].
      assert (H63 : 2 ^ 63 = 9223372036854775808) by reflexivity.
      rewrite H63. nia. }
    rewrite Hpn.
    replace ((Z.of_nat j + 1) * C) with (Z.of_nat (S j) * C)
      by (rewrite Nat2Z.inj_succ; ring).
    replace (j + S k)%nat with (S j + k)%nat by lia.
    apply IH; try assumption; try reflexivity.
    replace (Z.of_nat (S j + k)) with (Z.of_nat j + 1 + Z.of_nat k) by lia.
    exact Hsize.
Qed.

(** Resolving a path for which the store lists nothing initiates a session
    and finds it without parts. *)
Lemma getAllParts_fresh (path : string) (st : Store) :
  unlisted path (uploads st) ->
  faults st = [] ->
  exists st1 : Store,
    getAllParts remote path st
    = (Done (Some (mkMulti path (freshId (nextId st))), [], None), st1)
    /\ uploads st1
       = uploads st ++ [(mkMulti path (freshId (nextId st)), [])]
    /\ faults st1 = [].
Proof.
  intros Hun Hfaults.
  destruct st as [ups objs nid fl lg]. cbn [uploads faults nextId] in *.
  subst fl.
  unfold getAllParts, getHighestIDMulti.
  cbn [ListMulti remote]. unfold listMulti, enter.
  cbn [hd tl faults uploads objects nextId log listMultiFailed].
  rewrite (listed_none path ups Hun).
  cbn [List.length Z.of_nat Z.ltb Z.compare InitMulti remote].
  unfold initMulti, enter.
  cbn [hd tl faults uploads objects nextId log option_map
       ListParts remote].
  unfold listParts, enter.
  cbn [hd tl faults uploads objects nextId log].
  rewrite findParts_last
    by (apply (unlisted_multi_eqb path); [exact Hun|reflexivity]).
  cbn [option_map].
  eexists. split; [reflexivity|]. split; reflexivity.
Qed.

(** Resolving a path whose only listed session is [m] finds [m] and its
    parts. *)
Lemma getAllParts_session (path : string) (st : Store)
      (ups0 : list (Multi * list Part)) (m : Multi) (ps : list Part) :
  unlisted path ups0 ->
  Key m = path ->
  uploads st = ups0 ++ [(m, ps)] ->
  faults st = [] ->
  exists st1 : Store,
    getAllParts remote path st = (Done (Some m, ps, None), st1)
    /\ uploads st1 = uploads st
    /\ faults st1 = [].
Proof.
  intros Hun Hkey Hups Hfaults.
  destruct st as [ups objs nid fl lg]. cbn [uploads faults nextId] in *.
  subst fl ups.
  unfold getAllParts, getHighestIDMulti.
  cbn [ListMulti remote]. unfold listMulti, enter.
  cbn [hd tl faults uploads objects nextId log listMultiFailed].
  rewrite map_app, filter_app, (listed_none path ups0 Hun).
  cbn [map filter fst app]. rewrite Hkey, prefix_refl.
  cbn [List.length Z.of_nat Z.ltb Z.compare Pos.of_succ_nat fold_left].
  unfold pickMulti. rewrite Hkey, String.eqb_refl, leb_empty.
  cbn [andb snd ListParts remote].
  unfold listParts, enter.
  cbn [hd tl faults uploads objects nextId log].
  rewrite findParts_last
    by (apply (unlisted_multi_eqb path); [exact Hun|exact Hkey]).
  cbn [option_map].
  eexists. split; [reflexivity|]. split; reflexivity.
Qed.

Lemma uniformParts_length (k : nat) (C : Z) :
  List.length (uniformParts k C) = k.
Proof. unfold uniformParts. rewrite length_map, length_seq. reflexivity. Qed.

(** [k] whole parts of [C] bytes are accounted as [k * C] bytes. *)
Lemma sizeOfParts_uniform (k : nat) (C : Z) :
  0 <= C -> Z.of_nat k * C < U64.modulus ->
  sizeOfParts (uniformParts k C) = Z.of_nat k * C.
Proof.
  intros HC Hmax.
  destruct k as [|k]; [reflexivity|].
  assert (Hlast : Size (last (uniformParts (S k) C)
                             (mkPart (Z.of_nat 1) "etag" C)) = C).
  { rewrite uniformParts_S, last_last. reflexivity. }
  assert (Hshape : uniformParts (S k) C
                   = mkPart (Z.of_nat 1) "etag" C
                       :: map (fun i => mkPart (Z.of_nat i) "etag" C)
                              (seq 2 k)) by reflexivity.
  rewrite Hshape in Hlast |- *.
  rewrite sizeOfParts_mod, Hlast.
  cbn [List.length Size]. rewrite length_map, length_seq.
  rewrite Nat2Z.inj_succ in *.
  replace ((Z.succ (Z.of_nat k) - 1) * C + C) with (Z.succ (Z.of_nat k) * C)
    by ring.
  apply Z.mod_small. split; [nia|exact Hmax].
Qed.

(** A write resumed at the end of [j] whole parts already in the session,
    whose stream delivers [k] more whole chunks and then ends short. *)
Lemma WriteStream_resumed_partial
      (path : string) (size C : Z) (j k extra : nat) (tail : ReadResult)
      (st : Store) (ups0 : list (Multi * list Part)) (m : Multi) :
  U64.in_range size ->
  deriveChunkSize size = Done C ->
  unlisted path ups0 ->
  Key m = path ->
  uploads st = ups0 ++ [(m, uniformParts (S j) C)] ->
  faults st = [] ->
  fatalRead (snd tail) = false ->
  0 <= fst tail < C ->
  Z.of_nat (S j + k) * C + fst tail < size ->
  exists st' : Store,
    WriteStream remote (S k + extra) path (Z.of_nat (S j) * C) size
                (repeat (C, None) k ++ [tail]) st
    = (Done None, st')
    /\ uploads st' = ups0 ++ [(m, uniformParts (S j + k) C)]
    /\ fst (CurrentSize remote path st')
       = Done (Z.of_nat (S j + k) * C, None).
Proof.
  intros Hsize Hchunk Hun Hkey Hups Hfaults Hfatal Htail Hshort.
  destruct (deriveChunkSize_Done size C Hsize Hchunk) as [HC HCmax].
  assert (Hmc : minChunkSize = 5242880) by reflexivity.
  assert (HM : U64.modulus = 18446744073709551616) by reflexivity.
  destruct Hsize as [Hsize0 HsizeM].
  assert (HC0 : 0 < C) by (rewrite Hmc in HC; lia).
  assert (Hoff : U64.in_range (Z.of_nat (S j) * C)).
  { unfold U64.in_range. split; [nia|]. nia. }
  destruct (getAllParts_session path st ups0 m (uniformParts (S j) C)
              Hun Hkey Hups Hfaults) as (st1 & Hget & Hups1 & Hfaults1).
  rewrite Hups in Hups1.
  assert (Hother : forall u, In u ups0 -> multi_eqb m (fst u) = false)
    by (apply (unlisted_multi_eqb path); assumption).
  destruct (streamLoop_whole_chunks ups0 m C size tail k (S j) extra
              (uniformParts (S j) C) st1 Hother Hups1 Hfaults1 HC Hfatal
              Htail Hshort HsizeM)
    as (st' & Hloop & Hups' & Hfaults').
  assert (Hinv : invalidOffset (Z.of_nat (S j) * C) size C
                               (uniformParts (S j) C) = false).
  { unfold invalidOffset. rewrite U64_mul_wrap_l, uniformParts_length.
    rewrite (Z.mod_small (Z.of_nat (S j) * C)) by exact Hoff.
    rewrite Z.ltb_irrefl, Z.mod_mul by lia.
    rewrite andb_false_r. reflexivity. }
  assert (Hne : uniformParts (S j) C <> []).
  { intro Hnil. apply (f_equal (@List.length Part)) in Hnil.
    rewrite uniformParts_length in Hnil. discriminate Hnil. }
  destruct (resumeState_parts (Z.of_nat (S j) * C) size C
              (uniformParts (S j) C) Hoff HC Hne Hinv) as [_ Hres].
  rewrite Z.div_mul, Nat2Z.id in Hres by lia.
  assert (Hfirst : firstn (S j) (uniformParts (S j) C)
                   = uniformParts (S j) C)
    by (apply firstn_all2; rewrite uniformParts_length; lia).
  rewrite Hfirst in Hres.
  exists st'. split; [|split].
  - unfold WriteStream. rewrite Hchunk, Hget, Hinv, Hres. exact Hloop.
  - exact Hups'.
  - destruct (getAllParts_session path st' ups0 m
                (uniformParts (S j + k) C) Hun Hkey Hups' Hfaults')
      as (st2 & Hget2 & _).
    rewrite (CurrentSize_parts remote path st' st2 _ _ Hget2).
    cbn [fst].
    rewrite sizeOfParts_uniform; [reflexivity|lia|nia].
Qed.

(** C7. When the session and its parts were obtained, [CurrentSize]
    returns 0 for an empty part list and otherwise
    [(len(parts) - 1) * parts[0].Size + parts[len(parts)-1].Size], computed
    in [uint64], which is the exact value whenever that fits.
    Consequently, on the in-memory store, after a write to a fresh path
    whose stream delivers [k] whole chunks and then ends short of the
    declared size, the session holds exactly the [k] whole parts and
    [CurrentSize] returns [k * chunkSize]: the short tail is not counted.
    Likewise after a write resumed at the end of [j] whole parts that
    delivers [k] more whole chunks before ending short: the session holds
    [j + k] whole parts and [CurrentSize] returns [(j + k) * chunkSize]. *)
Theorem CurrentSize_counts_whole_parts :
  (forall (W : Type) (R : Remote W) (path : string) (w w1 : W)
          (multi : option Multi) (parts : list Part),
      getAllParts R path w = (Done (multi, parts, None), w1) ->
      (parts = [] -> CurrentSize R path w = (Done (0, None), w1))
      /\ (forall (first : Part) (rest : list Part),
             parts = first :: rest ->
             CurrentSize R path w
             = (Done (((Z.of_nat (List.length parts) - 1) * Size first
                       + Size (last parts first)) mod U64.modulus, None),
                w1)
             /\ (U64.in_range ((Z.of_nat (List.length parts) - 1) * Size first
                               + Size (last parts first)) ->
                 CurrentSize R path w
                 = (Done ((Z.of_nat (List.length parts) - 1) * Size first
                          + Size (last parts first), None), w1))))
  /\ (forall (path : string) (size chunkSize : Z) (k extra : nat)
             (tail : ReadResult) (st : MemStore.Store),
         U64.in_range size ->
         deriveChunkSize size = Done chunkSize ->
         MemStore.unlisted path (MemStore.uploads st) ->
         MemStore.faults st = [] ->
         fatalRead (snd tail) = false ->
         0 <= fst tail < chunkSize ->
         Z.of_nat k * chunkSize + fst tail < size ->
         exists st' : MemStore.Store,
           WriteStream MemStore.remote (S k + extra) path 0 size
                       (repeat (chunkSize, None) k ++ [tail]) st
           = (Done None, st')
           /\ MemStore.uploads st'
              = MemStore.uploads st
                ++ [(mkMulti path (MemStore.freshId (MemStore.nextId st)),
                     MemStore.uniformParts k chunkSize)]
           /\ fst (CurrentSize MemStore.remote path st')
              = Done (Z.of_nat k * chunkSize, None))
  /\ (forall (path : string) (size chunkSize : Z) (j k extra : nat)
             (tail : ReadResult) (st : MemStore.Store)
             (others : list (Multi * list Part)) (m : Multi),
         U64.in_range size ->
         deriveChunkSize size = Done chunkSize ->
         MemStore.unlisted path others ->
         Key m = path ->
         MemStore.uploads st
         = others ++ [(m, MemStore.uniformParts (S j) chunkSize)] ->
         MemStore.faults st = [] ->
         fatalRead (snd tail) = false ->
         0 <= fst tail < chunkSize ->
         Z.of_nat (S j + k) * chunkSize + fst tail < size ->
         exists st' : MemStore.Store,
           WriteStream MemStore.remote (S k + extra) path
                       (Z.of_nat (S j) * chunkSize) size
                       (repeat (chunkSize, None) k ++ [tail]) st
           = (Done None, st')
           /\ MemStore.uploads st'
              = others ++ [(m, MemStore.uniformParts (S j + k) chunkSize)]
           /\ fst (CurrentSize MemStore.remote path st')
              = Done (Z.of_nat (S j + k) * chunkSize, None)).
Proof.
  split; [|split; [|exact WriteStream_resumed_partial]].
  - intros W R path w w1 multi parts Hparts.
    pose proof (CurrentSize_parts R path w w1 multi parts Hparts) as Hcur.
    split.
    + intros ->. exact Hcur.
    + intros first rest ->. rewrite sizeOfParts_mod in Hcur.
      split; [exact Hcur|].
      intro Hfit. rewrite Z.mod_small in Hcur by exact Hfit. exact Hcur.
  - intros path size C k extra tail st Hsize Hchunk Hun Hfaults Hfatal Htail
           Hshort.
    destruct (deriveChunkSize_Done size C Hsize Hchunk) as [HC HCmax].
    assert (Hmc : minChunkSize = 5242880) by reflexivity.
    destruct Hsize as [Hsize0 HsizeM].
    set (m := mkMulti path (MemStore.freshId (MemStore.nextId st))).
    destruct (getAllParts_fresh path st Hun Hfaults)
      as (st1 & Hget & Hups1 & Hfaults1).
    assert (Hother : forall u, In u (MemStore.uploads st) ->
                               MemStore.multi_eqb m (fst u) = false)
      by (apply (unlisted_multi_eqb path); [exact Hun|reflexivity]).
    destruct (streamLoop_whole_chunks (MemStore.uploads st) m C size tail k
                0%nat extra [] st1 Hother Hups1 Hfaults1 HC Hfatal Htail
                Hshort HsizeM)
      as (st' & Hloop & Hups' & Hfaults').
    exists st'. split; [|split].
    + unfold WriteStream. rewrite Hchunk, Hget.
      assert (Hinv : invalidOffset 0 size C [] = false).
      { unfold invalidOffset. cbn [List.length Z.of_nat].
        rewrite Z.mod_0_l by (rewrite Hmc in HC; lia).
        rewrite andb_false_r. reflexivity. }
      rewrite Hinv. cbn [resumeState List.length Z.of_nat Z.ltb Z.compare].
      exact Hloop.
    + exact Hups'.
    + destruct (getAllParts_session path st' (MemStore.uploads st) m
                  (MemStore.uniformParts (0 + k) C) Hun eq_refl Hups'
                  Hfaults') as (st2 & Hget2 & _).
      rewrite (CurrentSize_parts MemStore.remote path st' st2 _ _ Hget2).
      cbn [fst Nat.add].
      rewrite sizeOfParts_uniform; [reflexivity| |].
      * rewrite Hmc in HC. lia.
      * rewrite Hmc in HC. nia.
Qed.

End PartialWrite.

Lemma CurrentSize_counts_whole_parts_witness :
  exists st' : MemStore.Store,
    WriteStream MemStore.remote (3 + 1) Scenario.path 0 Scenario.size
                (repeat (5 * MB, None) 2 ++ [(1 * MB, Some ErrUnexpectedEOF)])
                MemStore.empty
    = (Done None, st')
    /\ MemStore.uploads st'
       = MemStore.uploads MemStore.empty
         ++ [(mkMulti Scenario.path
                      (MemStore.freshId (MemStore.nextId MemStore.empty)),
              MemStore.uniformParts 2 (5 * MB))]
    /\ fst (CurrentSize MemStore.remote Scenario.path st')
       = Done (Z.of_nat 2 * (5 * MB), None).
Proof.
  refine (proj1 (proj2 CurrentSize_counts_whole_parts)
                Scenario.path Scenario.size
                (5 * MB) 2%nat 1%nat (1 * MB, Some ErrUnexpectedEOF)
                MemStore.empty _ _ _ _ _ _ _).
  - vm_compute. split; congruence.
  - vm_compute. reflexivity.
  - intros u Hin. destruct Hin.
  - reflexivity.
  - reflexivity.
  - vm_compute. split; congruence.
  - vm_compute. reflexivity.
Defined.

(** ** Listing and deletion *)

Section ListAndDelete.

Context {W : Type} (R : Remote W).

(** [Delete] reports [PathNotFoundError] when its first listing fails or
    is empty. *)
Lemma Delete_PathNotFound
      (fuel : nat) (path : string) (w w1 : W) (listResponse : ListResp)
      (err : option ExtError) :
  BucketList R path "" "" listPartsMax w = ((listResponse, err), w1) ->
  err <> None \/ Contents listResponse = [] ->
  Delete R fuel path w = (Done (Some (PathNotFoundError path)), w1).
Proof.
  intros Hlist Hcase. unfold Delete. rewrite Hlist.
  destruct err as [e|]; [reflexivity|].
  destruct Hcase as [Herr|Hempty]; [congruence|].
  rewrite Hempty. reflexivity.
Qed.

(** A failed batch deletion ends [Delete] with [nil]. *)
Lemma deleteLoop_DelMulti_error
      (fuel : nat) (path : string) (listResponse : ListResp) (w w1 : W)
      (e : ExtError) :
  0 < Z.of_nat (List.length (Contents listResponse)) <= listPartsMax ->
  DelMulti R (Contents listResponse) w = (Some e, w1) ->
  deleteLoop R (S fuel) path listResponse w = (Done None, w1).
Proof.
  intros [Hpos Hmax] Hdel. cbn [deleteLoop].
  apply Z.ltb_lt in Hpos. apply Z.ltb_ge in Hmax.
  rewrite Hpos, Hmax, Hdel. reflexivity.
Qed.

End ListAndDelete.

(** C9. A failed batch deletion is not reported.  With one object under the
    path and a store whose second call (the batch deletion) fails,
    [Delete] returns [nil] after that call and the object is still
    there. *)
Theorem Delete_batch_failure_unreported :
  let st := MemStore.mkStore [] [("a/b"%string, 3)] 0
              [None; Some (S3Error "InternalError")] [] in
  let r := Delete MemStore.remote 4 "a/" st in
  fst r = Done None
  /\ MemStore.log (snd r)
     = [MemStore.CallList "a/" "" "" listPartsMax;
        MemStore.CallDelMulti ["a/b"%string]]
  /\ fst (MemStore.delMulti ["a/b"%string]
            (snd (MemStore.listObjects "a/" "" "" listPartsMax st)))
     = Some (S3Error "InternalError")
  /\ MemStore.objects (snd r) = [("a/b"%string, 3)].
Proof.
  cbv zeta. repeat split; vm_compute; reflexivity.
Qed.

(** C10. [List] on the empty path panics at its first step, the indexing
    [path[len(path)-1]], before anything is asked of the store; so a call
    that returns, with a result or an error, was given a non-empty path.
    On a non-empty path that first step succeeds and yields the last
    character. *)
Theorem List_empty_path_panics :
  (forall (W : Type) (R : Remote W) (fuel : nat) (w : W),
      List R fuel "" w = (Panic IndexOutOfRange, w))
  /\ (forall (W : Type) (R : Remote W) (fuel : nat) (path : string) (w : W)
             (r : list string * option error),
         fst (List R fuel path w) = Done r -> path <> ""%string)
  /\ (forall (c : ascii) (s : string),
         exists last : ascii,
           stringIndex (String c s)
                       (Z.of_nat (String.length (String c s)) - 1)
           = Done last).
Proof.
  split; [|split].
  - intros W R fuel w. reflexivity.
  - intros W R fuel path w r Hret Hempty. subst path.
    cbn in Hret. discriminate Hret.
  - intros c s. unfold stringIndex.
    cbn [String.length]. rewrite Nat2Z.inj_succ.
    replace (Z.succ (Z.of_nat (String.length s)) - 1)
      with (Z.of_nat (String.length s)) by lia.
    destruct (Z.ltb_spec (Z.of_nat (String.length s)) 0); [lia|].
    rewrite Nat2Z.id.
    assert (Hget : forall (t : string) (a : ascii),
               exists b, String.get (String.length t) (String a t) = Some b).
    { induction t as [|a' t IH]; intro a.
      - exists a. reflexivity.
      - cbn [String.length String.get]. apply IH. }
    destruct (Hget s c) as [b Hb]. rewrite Hb. exists b. reflexivity.
Qed.

(** * Further properties *)

(** ** Chunk planner: thresholds *)

Section ChunkThresholds.

Lemma chunk_power_inj (j k : nat) :
  minChunkSize * 2 ^ Z.of_nat j = minChunkSize * 2 ^ Z.of_nat k -> j = k.
Proof.
  intro H.
  assert (Hmc : minChunkSize = 5242880) by reflexivity.
  rewrite Hmc in H.
  assert (Hpow : 2 ^ Z.of_nat j = 2 ^ Z.of_nat k) by lia.
  apply Z.pow_inj_r in Hpow; lia.
Qed.

Lemma chunk_power_mono (j k : nat) :
  (j <= k)%nat ->
  minChunkSize * 2 ^ Z.of_nat j <= minChunkSize * 2 ^ Z.of_nat k.
Proof.
  intro H.
  assert (Hmc : minChunkSize = 5242880) by reflexivity.
  rewrite Hmc.
  assert (2 ^ Z.of_nat j <= 2 ^ Z.of_nat k)
    by (apply Z.pow_le_mono_r; lia).
  lia.
Qed.

Lemma chunk_power_pos (j : nat) : 0 < minChunkSize * 2 ^ Z.of_nat j.
Proof.
  pose proof (pow2_nat_pos j).
  assert (Hmc : minChunkSize = 5242880) by reflexivity.
  rewrite Hmc. lia.
Qed.

Lemma quotient_below_iff (size C L : Z) :
  0 < C -> (size / C < L <-> size < L * C).
Proof.
  intro HC. split; intro H.
  - pose proof (Z.div_mod size C ltac:(lia)) as Hdm.
    pose proof (Z.mod_pos_bound size C HC) as Hmod.
    nia.
  - apply Z.div_lt_upper_bound; lia.
Qed.

(** X1. The chunk size is [minChunkSize * 2^k] exactly for the sizes from
    [1000 * minChunkSize * 2^(k-1)] (from 0 when [k = 0]) up to, not
    including, [1000 * minChunkSize * 2^k]; in particular it is the 5 MB
    minimum exactly for the sizes below [1000 * minChunkSize]. *)
Theorem deriveChunkSize_thresholds (size : Z) (k : nat) :
  U64.in_range size ->
  (deriveChunkSize size = Done (minChunkSize * 2 ^ Z.of_nat k)
   <-> (size < listPartsMax * (minChunkSize * 2 ^ Z.of_nat k)
        /\ (k = 0%nat
            \/ listPartsMax * (minChunkSize * 2 ^ Z.of_nat (k - 1))
               <= size)))
  /\ (deriveChunkSize size = Done minChunkSize
      <-> size < listPartsMax * minChunkSize).
Proof.
  intro Hsize.
  destruct (deriveChunkSize_run size Hsize) as (j & Hj & Hrun & Hq & Hmin).
  pose proof (Hrun 30%nat) as Hres.
  change (chunkSizeLoop (34 + 30) size minChunkSize)
    with (deriveChunkSize size) in Hres.
  assert (Hlt : size < listPartsMax * (minChunkSize * 2 ^ Z.of_nat j))
    by (apply quotient_below_iff; [apply chunk_power_pos|exact Hq]).
  assert (Hge : forall i : nat,
             (i < j)%nat ->
             listPartsMax * (minChunkSize * 2 ^ Z.of_nat i) <= size).
  { intros i Hi. specialize (Hmin i Hi).
    destruct (Z.le_gt_cases (listPartsMax * (minChunkSize * 2 ^ Z.of_nat i))
                            size) as [Hle|Hgt]; [exact Hle|].
    apply quotient_below_iff in Hgt; [lia|apply chunk_power_pos]. }
  assert (Hmain : forall k' : nat,
             deriveChunkSize size = Done (minChunkSize * 2 ^ Z.of_nat k')
             <-> (size < listPartsMax * (minChunkSize * 2 ^ Z.of_nat k')
                  /\ (k' = 0%nat
                      \/ listPartsMax
                         * (minChunkSize * 2 ^ Z.of_nat (k' - 1))
                         <= size))).
  { intro k'. rewrite Hres. split.
    - intro E. injection E as E. apply chunk_power_inj in E. subst k'.
      split; [exact Hlt|].
      destruct j as [|j']; [left; reflexivity|right].
      apply Hge. lia.
    - intros [Hlt' Hge'].
      destruct (Nat.lt_trichotomy j k') as [Hjk|[Hjk|Hjk]].
      + destruct Hge' as [->|Hge']; [lia|].
        pose proof (chunk_power_mono j (k' - 1) ltac:(lia)) as Hm.
        assert (Hlp : listPartsMax = 1000) by reflexivity.
        rewrite Hlp in *. lia.
      + subst k'. reflexivity.
      + specialize (Hge k' Hjk). lia. }
  split; [apply Hmain|].
  specialize (Hmain 0%nat).
  change (2 ^ Z.of_nat 0) with 1 in Hmain. rewrite Z.mul_1_r in Hmain.
  rewrite Hmain. split; [intros [H _]; exact H|].
  intro H. split; [exact H|left; reflexivity].
Qed.

Lemma deriveChunkSize_thresholds_witness :
  deriveChunkSize (6000 * MB) = Done (minChunkSize * 2 ^ Z.of_nat 1).
Proof.
  assert (Hr : U64.in_range (6000 * MB)) by (vm_compute; split; congruence).
  apply (proj1 (deriveChunkSize_thresholds (6000 * MB) 1 Hr)).
  split; [vm_compute; reflexivity|].
  right. vm_compute. discriminate.
Defined.

(** X2. A larger declared size never gets a smaller chunk size, and the
    chunk size of the smaller size divides that of the larger: an offset
    aligned for the larger size is aligned for the smaller one. *)
Theorem deriveChunkSize_monotone (size1 size2 C1 C2 : Z) :
  U64.in_range size1 ->
  U64.in_range size2 ->
  size1 <= size2 ->
  deriveChunkSize size1 = Done C1 ->
  deriveChunkSize size2 = Done C2 ->
  C1 <= C2
  /\ (C1 | C2)
  /\ forall offset : Z, offset mod C2 = 0 -> offset mod C1 = 0.
Proof.
  intros H1 H2 Hle HC1 HC2.
  destruct (deriveChunkSize_run size1 H1) as (j1 & _ & Hrun1 & Hq1 & Hmin1).
  destruct (deriveChunkSize_run size2 H2) as (j2 & _ & Hrun2 & Hq2 & Hmin2).
  pose proof (Hrun1 30%nat) as Hres1. pose proof (Hrun2 30%nat) as Hres2.
  change (chunkSizeLoop (34 + 30) size1 minChunkSize)
    with (deriveChunkSize size1) in Hres1.
  change (chunkSizeLoop (34 + 30) size2 minChunkSize)
    with (deriveChunkSize size2) in Hres2.
  rewrite HC1 in Hres1. rewrite HC2 in Hres2.
  injection Hres1 as ->. injection Hres2 as ->.
  assert (Hj : (j1 <= j2)%nat).
  { destruct (Nat.le_gt_cases j1 j2) as [H|H]; [exact H|exfalso].
    specialize (Hmin1 j2 H).
    pose proof (chunk_power_pos j2) as Hpos.
    assert (size1 / (minChunkSize * 2 ^ Z.of_nat j2)
            <= size2 / (minChunkSize * 2 ^ Z.of_nat j2))
      by (apply Z.div_le_mono; lia).
    lia. }
  assert (Hdiv : (minChunkSize * 2 ^ Z.of_nat j1
                  | minChunkSize * 2 ^ Z.of_nat j2)).
  { exists (2 ^ Z.of_nat (j2 - j1)).
    replace (Z.of_nat j2) with (Z.of_nat (j2 - j1) + Z.of_nat j1) by lia.
    rewrite Z.pow_add_r by lia. ring. }
  split; [apply chunk_power_mono; exact Hj|].
  split; [exact Hdiv|].
  intros offset Hoff.
  pose proof (chunk_power_pos j1) as Hp1.
  pose proof (chunk_power_pos j2) as Hp2.
  assert (Hn1 : minChunkSize * 2 ^ Z.of_nat j1 <> 0) by lia.
  assert (Hn2 : minChunkSize * 2 ^ Z.of_nat j2 <> 0) by lia.
  apply (proj2 (Z.mod_divide offset _ Hn1)).
  apply (proj1 (Z.mod_divide offset _ Hn2)) in Hoff.
  exact (Z.divide_trans _ _ _ Hdiv Hoff).
Qed.

Lemma deriveChunkSize_monotone_witness :
  5 * MB <= 10 * MB /\ (5 * MB | 10 * MB).
Proof.
  assert (H1 : U64.in_range (12 * MB)) by (vm_compute; split; congruence).
  assert (H2 : U64.in_range (6000 * MB)) by (vm_compute; split; congruence).
  assert (Hle : 12 * MB <= 6000 * MB) by (vm_compute; congruence).
  destruct (deriveChunkSize_monotone (12 * MB) (6000 * MB) (5 * MB)
              (10 * MB) H1 H2 Hle eq_refl eq_refl) as (Hm & Hd & _).
  split; [exact Hm|exact Hd].
Defined.

End ChunkThresholds.

(** ** Stream writer: errors of the session, termination, panics *)

Section WriterOutcomes.

Context {W : Type} (R : Remote W).

Lemma hasCode_false (e : ExtError) (code : string) :
  e <> AwsError code -> hasCode e code = false.
Proof.
  intro Hne. destruct e as [| |c|c|msg]; try reflexivity.
  cbn [hasCode]. apply String.eqb_neq. intro Hc. apply Hne. rewrite Hc.
  reflexivity.
Qed.

Lemma deriveChunkSize_total (size : Z) :
  U64.in_range size ->
  exists C : Z, deriveChunkSize size = Done C /\ minChunkSize <= C.
Proof.
  intro Hsize.
  destruct (deriveChunkSize_run size Hsize) as (j & Hj & Hrun & _).
  exists (minChunkSize * 2 ^ Z.of_nat j). split; [exact (Hrun 30%nat)|].
  apply (chunk_power_bounds j Hj).
Qed.

(** X3. Whatever goes wrong while the session and its parts are looked up
    is returned as it is, by [WriteStream] and by [CurrentSize] alike, and
    nothing more is asked of the store: a failed listing of the sessions
    (any error but an [*aws.Error] with code [NoSuchUpload]; an
    [*s3.Error] with that code is returned too), a failed initiation, a
    failed listing of the parts. *)
Theorem session_lookup_errors_returned
        (fuel : nat) (path : string) (offset size : Z) (reader : Reader) :
  U64.in_range size ->
  (forall (w w1 : W) (multis : list Multi) (e : ExtError),
      ListMulti R path "" w = ((multis, Some e), w1) ->
      e <> AwsError "NoSuchUpload" ->
      WriteStream R fuel path offset size reader w
      = (Done (Some (Ext e)), w1)
      /\ CurrentSize R path w = (Done (0, Some (Ext e)), w1))
  /\ (forall (w w1 w2 : W) (err : option ExtError) (multi : option Multi)
             (e : ExtError),
         ListMulti R path "" w = (([], err), w1) ->
         listMultiFailed err = false ->
         InitMulti R path w1 = ((multi, Some e), w2) ->
         WriteStream R fuel path offset size reader w
         = (Done (Some (Ext e)), w2)
         /\ CurrentSize R path w = (Done (0, Some (Ext e)), w2))
  /\ (forall (w w1 w2 : W) (m : Multi) (parts : list Part) (e : ExtError),
         getHighestIDMulti R path w = (Done (Some m, None), w1) ->
         ListParts R m w1 = ((parts, Some e), w2) ->
         WriteStream R fuel path offset size reader w
         = (Done (Some (Ext e)), w2)
         /\ CurrentSize R path w = (Done (0, Some (Ext e)), w2)).
Proof.
  intro Hsize.
  destruct (deriveChunkSize_total size Hsize) as (C & HC & _).
  assert (Hboth : forall (w w' : W) (e : ExtError) (multi : option Multi)
                         (parts : list Part),
             getAllParts R path w = (Done (multi, parts, Some (Ext e)), w') ->
             WriteStream R fuel path offset size reader w
             = (Done (Some (Ext e)), w')
             /\ CurrentSize R path w = (Done (0, Some (Ext e)), w')).
  { intros w w' e multi parts Hget. unfold WriteStream, CurrentSize.
    rewrite HC, Hget. split; reflexivity. }
  split; [|split].
  - intros w w1 multis e Hlist Hne.
    apply (Hboth w w1 e None []).
    unfold getAllParts, getHighestIDMulti. rewrite Hlist.
    cbn [listMultiFailed]. rewrite (hasCode_false e _ Hne). reflexivity.
  - intros w w1 w2 err multi e Hlist Hok Hinit.
    apply (Hboth w w2 e None []).
    unfold getAllParts.
    rewrite (getHighestIDMulti_initiates R path w w1 w2 err multi (Some e)
               Hlist Hok Hinit).
    destruct multi; reflexivity.
  - intros w w1 w2 m parts e Hsel Hparts.
    apply (Hboth w w2 e (Some m) parts).
    unfold getAllParts. rewrite Hsel, Hparts. reflexivity.
Qed.

(** More fuel does not change a result reached with less. *)
Lemma streamLoop_fuel_mono (fuel : nat) :
  forall (extra : nat) (multi : option Multi) (chunkSize size : Z)
         (reader : Reader) (partNumber totalRead : Z) (parts : list Part)
         (w : W),
    fst (streamLoop R fuel multi chunkSize size reader partNumber totalRead
                    parts w) <> OutOfFuel ->
    streamLoop R (fuel + extra) multi chunkSize size reader partNumber
               totalRead parts w
    = streamLoop R fuel multi chunkSize size reader partNumber totalRead
                 parts w.
Proof.
  induction fuel as [|fuel IH];
    intros extra multi chunkSize size reader partNumber totalRead parts w.
  - cbn [streamLoop fst]. congruence.
  - cbn [Nat.add streamLoop].
    destruct (ReadFull reader) as [[bytesRead err] reader'].
    destruct (fatalRead err); [reflexivity|].
    destruct (_ && _); [reflexivity|].
    destruct multi as [m|]; [|reflexivity].
    destruct (PutPart R m partNumber bytesRead w) as [[part perr] w1].
    destruct perr; [reflexivity|].
    destruct (_ =? size); [reflexivity|].
    apply IH.
Qed.

Lemma getAllParts_not_OutOfFuel (path : string) (w : W) :
  fst (getAllParts R path w) <> OutOfFuel.
Proof.
  unfold getAllParts, getHighestIDMulti.
  destruct (ListMulti R path "" w) as [[multis err] w1].
  destruct (listMultiFailed err); [destruct err; cbn; discriminate|].
  destruct (0 <? _).
  - destruct (snd _) as [m|]; [|cbn; discriminate].
    destruct (ListParts R m w1) as [[parts perr] w2]. cbn. discriminate.
  - destruct (InitMulti R path w1) as [[[m|] [e|]] w2];
      try (cbn; discriminate).
    destruct (ListParts R m w2) as [[parts perr] w3]. cbn. discriminate.
Qed.

Lemma resumeState_not_OutOfFuel (offset chunkSize : Z) (parts : list Part) :
  resumeState offset chunkSize parts <> OutOfFuel.
Proof.
  unfold resumeState, sliceTo.
  destruct (0 <? _); [|discriminate].
  destruct (_ || _); discriminate.
Qed.

(** X4. [WriteStream] ends: its streaming loop runs at most once per
    result its reader holds, plus once, whatever the store answers; and a
    larger iteration budget gives the same result and the same final
    state. *)
Theorem WriteStream_terminates
        (path : string) (offset size : Z) (reader : Reader) (w : W) :
  U64.in_range size ->
  fst (WriteStream R (S (List.length reader)) path offset size reader w)
  <> OutOfFuel
  /\ forall extra : nat,
      WriteStream R (S (List.length reader) + extra) path offset size
                  reader w
      = WriteStream R (S (List.length reader)) path offset size reader w.
Proof.
  intro Hsize.
  destruct (deriveChunkSize_total size Hsize) as (C & HC & Hmin).
  assert (Hpos : 0 < C)
    by (assert (Hmc : minChunkSize = 5242880) by reflexivity;
        rewrite Hmc in Hmin; lia).
  unfold WriteStream. rewrite HC.
  pose proof (getAllParts_not_OutOfFuel path w) as Hget.
  destruct (getAllParts R path w) as [[[[multi parts] err]|k|] w1];
    [|split; [cbn; discriminate|reflexivity]|exfalso; apply Hget; reflexivity].
  destruct err as [e|]; [split; [cbn; discriminate|reflexivity]|].
  destruct (invalidOffset offset size C parts);
    [split; [cbn; discriminate|reflexivity]|].
  pose proof (resumeState_not_OutOfFuel offset C parts) as Hres.
  destruct (resumeState offset C parts) as [[[pn tr] ps]|k|];
    [|split; [cbn; discriminate|reflexivity]|congruence].
  assert (Hend : fst (streamLoop R (S (List.length reader)) multi C size
                                 reader pn tr ps w1) <> OutOfFuel)
    by (apply streamLoop_terminates; [exact Hpos|lia]).
  split; [exact Hend|].
  intro extra. apply streamLoop_fuel_mono. exact Hend.
Qed.



End WriterOutcomes.

Lemma session_lookup_errors_returned_witness :
  WriteStream MemStore.remote 4 Scenario.path 0 Scenario.size
              Scenario.wholeStream
              (MemStore.mkStore [] [] 0 [Some (S3Error "NoSuchUpload")] [])
  = (Done (Some (Ext (S3Error "NoSuchUpload"))),
     MemStore.mkStore [] [] 0 []
                      [MemStore.CallListMulti Scenario.path ""]).
Proof.
  assert (Hr : U64.in_range Scenario.size)
    by (vm_compute; split; congruence).
  refine (proj1 (proj1 (session_lookup_errors_returned
                          MemStore.remote 4 Scenario.path 0 Scenario.size
                          Scenario.wholeStream Hr)
                       _ _ [] (S3Error "NoSuchUpload") _ _)).
  - reflexivity.
  - discriminate.
Defined.

Lemma WriteStream_terminates_witness :
  fst (WriteStream MemStore.remote (S (List.length Scenario.wholeStream))
                   Scenario.path 0 Scenario.size Scenario.wholeStream
                   MemStore.empty)
  <> OutOfFuel.
Proof.
  assert (Hr : U64.in_range Scenario.size)
    by (vm_compute; split; congruence).
  exact (proj1 (WriteStream_terminates MemStore.remote Scenario.path 0
                  Scenario.size Scenario.wholeStream MemStore.empty Hr)).
Defined.


(** ** Session resolution: the session chosen *)

(** X6. When the store lists sessions, the session [getHighestIDMulti]
    returns is one of the listed sessions whose key is the path itself,
    and no listed session for the path has a higher identifier (as
    strings, compared byte by byte); sessions listed for longer keys are
    passed over.  Nothing further is asked of the store. *)
Theorem getHighestIDMulti_highest_for_path
        (W : Type) (R : Remote W) (path : string) (w w1 : W)
        (multis : list Multi) (err : option ExtError) (m : Multi) :
  ListMulti R path "" w = ((multis, err), w1) ->
  listMultiFailed err = false ->
  In m multis ->
  Key m = path ->
  exists best : Multi,
    getHighestIDMulti R path w = (Done (Some best, None), w1)
    /\ In best multis
    /\ Key best = path
    /\ String.leb (UploadId m) (UploadId best) = true
    /\ forall m', In m' multis -> Key m' = path ->
                  String.leb (UploadId m') (UploadId best) = true.
Proof.
  intros Hlist Hok Hin Hkey.
  assert (Hne : multis <> []) by (intro E; rewrite E in Hin; destruct Hin).
  destruct (getHighestIDMulti_selects_highest R path w w1 multis err
              Hlist Hok Hne) as (r & Hret & Hsome & Hnone).
  destruct r as [best|].
  - destruct (Hsome best eq_refl) as (Hb1 & Hb2 & Hb3).
    exists best. split; [exact Hret|]. split; [exact Hb1|].
    split; [exact Hb2|]. split; [exact (Hb3 m Hin Hkey)|exact Hb3].
  - exfalso. exact (proj1 Hnone eq_refl m Hin Hkey).
Qed.

Lemma getHighestIDMulti_highest_for_path_witness :
  exists best : Multi,
    getHighestIDMulti MemStore.remote "a"
      (MemStore.mkStore [(mkMulti "a" "3", []); (mkMulti "ab" "9", []);
                         (mkMulti "a" "7", []); (mkMulti "a" "5", [])]
                        [] 0 [] [])
    = (Done (Some best, None),
       MemStore.mkStore [(mkMulti "a" "3", []); (mkMulti "ab" "9", []);
                         (mkMulti "a" "7", []); (mkMulti "a" "5", [])]
                        [] 0 [] [MemStore.CallListMulti "a" ""])
    /\ In best [mkMulti "a" "3"; mkMulti "ab" "9"; mkMulti "a" "7";
                mkMulti "a" "5"]
    /\ Key best = "a"%string
    /\ String.leb (UploadId (mkMulti "a" "3")) (UploadId best) = true
    /\ forall m', In m' [mkMulti "a" "3"; mkMulti "ab" "9"; mkMulti "a" "7";
                         mkMulti "a" "5"] ->
                  Key m' = "a"%string ->
                  String.leb (UploadId m') (UploadId best) = true.
Proof.
  refine (getHighestIDMulti_highest_for_path
            MemStore.Store MemStore.remote "a" _ _ _ None (mkMulti "a" "3")
            _ _ _ _).
  - reflexivity.
  - reflexivity.
  - left. reflexivity.
  - reflexivity.
Defined.

(** ** Listing *)

Section Listing.

Context {W : Type} (R : Remote W).

Lemma get_append_last (s : string) (c : ascii) :
  String.get (String.length s) (s ++ String c "") = Some c.
Proof.
  induction s as [|a s IH]; [reflexivity|].
  cbn [String.length String.append String.get]. exact IH.
Qed.

Lemma length_append_one (s : string) (c : ascii) :
  String.length (s ++ String c "") = S (String.length s).
Proof.
  induction s as [|a s IH]; [reflexivity|].
  cbn [String.length String.append]. rewrite IH. reflexivity.
Qed.

Lemma stringIndex_append_last (s : string) (c : ascii) :
  stringIndex (s ++ String c "")
              (Z.of_nat (String.length (s ++ String c "")) - 1)
  = Done c.
Proof.
  rewrite length_append_one, Nat2Z.inj_succ.
  replace (Z.succ (Z.of_nat (String.length s)) - 1)
    with (Z.of_nat (String.length s)) by lia.
  unfold stringIndex.
  destruct (Z.ltb_spec (Z.of_nat (String.length s)) 0); [lia|].
  rewrite Nat2Z.id, get_append_last. reflexivity.
Qed.

(** X7. [List] treats a path and the same path with a ['/'] appended
    alike: when the path does not end in ['/'], listing it is listing
    [path + "/"], with the same requests to the store and the same
    result. *)
Theorem List_appends_separator
        (fuel : nat) (path : string) (c : ascii) (w : W) :
  stringIndex path (Z.of_nat (String.length path) - 1) = Done c ->
  c <> "/"%char ->
  List R fuel path w = List R fuel (path ++ "/") w.
Proof.
  intros Hlast Hc. unfold List.
  rewrite Hlast, (stringIndex_append_last path "/").
  apply Ascii.eqb_neq in Hc. rewrite Hc, Ascii.eqb_refl. reflexivity.
Qed.

Lemma stripSeparators_dropLast (prefixes : list string) :
  (forall p, In p prefixes -> p <> ""%string) ->
  stripSeparators prefixes = Done (map dropLast prefixes).
Proof.
  induction prefixes as [|p ps IH]; intro Hne; [reflexivity|].
  cbn [stripSeparators map].
  assert (Hp : p <> ""%string) by (apply Hne; left; reflexivity).
  destruct p as [|a p']; [congruence|].
  unfold stringPrefix, dropLast. cbn [String.length].
  rewrite Nat2Z.inj_succ.
  destruct (Z.ltb_spec (Z.succ (Z.of_nat (String.length p')) - 1) 0);
    [lia|].
  destruct (Z.ltb_spec (Z.succ (Z.of_nat (String.length p')))
                       (Z.succ (Z.of_nat (String.length p')) - 1)); [lia|].
  cbn [orb].
  rewrite IH by (intros q Hq; apply Hne; right; exact Hq).
  replace (Z.to_nat (Z.succ (Z.of_nat (String.length p')) - 1))
    with (S (String.length p') - 1)%nat by lia.
  reflexivity.
Qed.

Lemma stripSeparators_empty_prefix (before after : list string) :
  (forall p, In p before -> p <> ""%string) ->
  stripSeparators (before ++ ""%string :: after)
  = Panic SliceBoundsOutOfRange.
Proof.
  induction before as [|p ps IH]; intro Hne.
  - reflexivity.
  - cbn [app stripSeparators].
    assert (Hp : p <> ""%string) by (apply Hne; left; reflexivity).
    destruct p as [|a p']; [congruence|].
    unfold stringPrefix. cbn [String.length]. rewrite Nat2Z.inj_succ.
    destruct (Z.ltb_spec (Z.succ (Z.of_nat (String.length p')) - 1) 0);
      [lia|].
    destruct (Z.ltb_spec (Z.succ (Z.of_nat (String.length p')))
                         (Z.succ (Z.of_nat (String.length p')) - 1)); [lia|].
    cbn [orb].
    rewrite IH by (intros q Hq; apply Hne; right; exact Hq).
    reflexivity.
Qed.

(** The pagination loop along a walk of pages. *)
Lemma listLoop_pages (path : string) (resp : ListResp) (w w2 : W)
      (pages : list ListResp) (out : option ExtError) :
  ListPages R path resp w pages out w2 ->
  forall (fuel : nat) (files directories : list string),
    (forall page p, In page pages -> In p (CommonPrefixes page) ->
                    p <> ""%string) ->
    (List.length pages <= fuel)%nat ->
    listLoop R fuel path resp files directories w
    = (Done (match out with
             | None =>
                 (files ++ List.concat (map Contents pages))
                 ++ (directories
                     ++ map dropLast (List.concat (map CommonPrefixes pages)))
             | Some _ => []
             end, option_map Ext out), w2).
Proof.
  induction 1 as [resp w Htr|resp next w w1 e Htr Hnext
                  |resp next w w1 w2 pages out Htr Hnext Hwalk IH];
    intros fuel files directories Hne Hfuel;
    (destruct fuel as [|fuel]; [cbn [List.length] in Hfuel; lia|]);
    cbn [listLoop];
    (rewrite (stripSeparators_dropLast (CommonPrefixes resp))
      by (intros p Hp; apply (Hne resp p); [left; reflexivity|exact Hp]));
    rewrite Htr.
  - cbn [map List.concat]. rewrite !app_nil_r. reflexivity.
  - rewrite Hnext. reflexivity.
  - rewrite Hnext.
    rewrite (IH fuel)
      by (try (intros page p Hpage Hp; apply (Hne page p);
               [right; exact Hpage|exact Hp]);
          cbn [List.length] in Hfuel; lia).
    destruct out as [e|]; [reflexivity|].
    cbn [map List.concat]. rewrite map_app, <- !app_assoc. reflexivity.
Qed.

(** X8. [List] returns the keys of all pages, in page order, followed by
    the common prefixes of all pages, each without its last character;
    the store is asked for each further page with the [NextMarker] of the
    truncated page before it.  When a request for a further page fails,
    what was collected is dropped and the error is returned with a nil
    list. *)
Theorem List_pages
        (fuel : nat) (path : string) (c : ascii) (w w1 w2 : W)
        (first : ListResp) (pages : list ListResp)
        (out : option ExtError) :
  stringIndex path (Z.of_nat (String.length path) - 1) = Done c ->
  BucketList R (if Ascii.eqb c "/" then path else (path ++ "/")%string)
             "/" "" listPartsMax w
  = ((first, None), w1) ->
  ListPages R (if Ascii.eqb c "/" then path else (path ++ "/")%string)
            first w1 pages out w2 ->
  (forall page p, In page pages -> In p (CommonPrefixes page) ->
                  p <> ""%string) ->
  (List.length pages <= fuel)%nat ->
  List R fuel path w
  = (Done (match out with
           | None =>
               List.concat (map Contents pages)
               ++ map dropLast (List.concat (map CommonPrefixes pages))
           | Some _ => []
           end, option_map Ext out), w2).
Proof.
  intros Hlast Hfirst Hwalk Hne Hfuel.
  unfold List. rewrite Hlast, Hfirst.
  rewrite (listLoop_pages _ first w1 w2 pages out Hwalk fuel [] [] Hne
                          Hfuel).
  reflexivity.
Qed.

(** X9. A common prefix that is the empty string makes [List] panic: the
    slice [commonPrefix[0:len(commonPrefix)-1]] is out of range. *)
Theorem List_empty_common_prefix_panics
        (fuel : nat) (path : string) (c : ascii) (w w1 : W)
        (first : ListResp) (before after : list string) :
  stringIndex path (Z.of_nat (String.length path) - 1) = Done c ->
  BucketList R (if Ascii.eqb c "/" then path else (path ++ "/")%string)
             "/" "" listPartsMax w
  = ((first, None), w1) ->
  CommonPrefixes first = before ++ ""%string :: after ->
  (forall p, In p before -> p <> ""%string) ->
  List R (S fuel) path w = (Panic SliceBoundsOutOfRange, w1).
Proof.
  intros Hlast Hfirst Hcp Hne.
  unfold List. rewrite Hlast, Hfirst. cbn [listLoop].
  rewrite Hcp, (stripSeparators_empty_prefix before after Hne).
  reflexivity.
Qed.

End Listing.

Lemma List_appends_separator_witness :
  List MemStore.remote 2 "a"
       (MemStore.mkStore [] [("a/b"%string, 3); ("a/c/d"%string, 4)] 0 [] [])
  = List MemStore.remote 2 "a/"
         (MemStore.mkStore [] [("a/b"%string, 3); ("a/c/d"%string, 4)] 0 []
                           []).
Proof.
  refine (List_appends_separator MemStore.remote 2 "a" "a"%char _ _ _).
  - reflexivity.
  - discriminate.
Defined.

Lemma List_pages_witness :
  List Canned.remote 2 "a"
       [(mkListResp ["a/b"%string] ["a/c/"%string] true "a/c/", None);
        (mkListResp ["a/x"%string; "a/y"%string] ["a/z/"%string] false "",
         None)]
  = (Done (["a/b"; "a/x"; "a/y"; "a/c"; "a/z"]%string, None), []).
Proof.
  refine (List_pages Canned.remote 2 "a" "a"%char _ _ _
            (mkListResp ["a/b"%string] ["a/c/"%string] true "a/c/")
            [mkListResp ["a/b"%string] ["a/c/"%string] true "a/c/";
             mkListResp ["a/x"%string; "a/y"%string] ["a/z/"%string] false
                        ""]
            None _ _ _ _ _).
  - reflexivity.
  - reflexivity.
  - eapply PagesNext; [reflexivity|reflexivity|].
    apply PagesEnd. reflexivity.
  - intros page p [<-|[<-|[]]] [<-|[]]; discriminate.
  - cbn. lia.
Defined.

Lemma List_empty_common_prefix_panics_witness :
  List Canned.remote 1 "a"
       [(mkListResp ["a/b"%string] ["a/c/"%string; ""%string] false "",
         None)]
  = (Panic SliceBoundsOutOfRange, []).
Proof.
  refine (List_empty_common_prefix_panics
            Canned.remote 0 "a" "a"%char _ _
            (mkListResp ["a/b"%string] ["a/c/"%string; ""%string] false "")
            ["a/c/"%string] [] _ _ _ _).
  - reflexivity.
  - reflexivity.
  - reflexivity.
  - intros p [<-|[]]. discriminate.
Defined.

(** ** Deletion *)

Section Deletion.

Context {W : Type} (R : Remote W).

Lemma deleteLoop_not_PathNotFound (fuel : nat) :
  forall (path : string) (listResponse : ListResp) (w : W) (p : string),
    fst (deleteLoop R fuel path listResponse w)
    <> Done (Some (PathNotFoundError p)).
Proof.
  induction fuel as [|fuel IH]; intros path listResponse w p;
    cbn [deleteLoop].
  - cbn. discriminate.
  - destruct (0 <? _); [|cbn; discriminate].
    destruct (listPartsMax <? _); [cbn; discriminate|].
    destruct (DelMulti R (Contents listResponse) w) as [[e|] w1];
      [cbn; discriminate|].
    destruct (BucketList R path "" "" listPartsMax w1)
      as [[next [e|]] w2]; [cbn; discriminate|].
    apply IH.
Qed.

(** X10. [Delete] returns [PathNotFoundError] exactly when its first
    listing fails or holds no key; the error names the path and nothing
    was deleted.  Whatever happens after a first listing that holds keys,
    the result is never [PathNotFoundError]. *)
Theorem Delete_PathNotFound_iff
        (fuel : nat) (path : string) (w w1 : W) (listResponse : ListResp)
        (err : option ExtError) :
  BucketList R path "" "" listPartsMax w = ((listResponse, err), w1) ->
  ((exists p, fst (Delete R fuel path w)
              = Done (Some (PathNotFoundError p)))
   <-> (err <> None \/ Contents listResponse = []))
  /\ (err <> None \/ Contents listResponse = [] ->
      Delete R fuel path w = (Done (Some (PathNotFoundError path)), w1)).
Proof.
  intro Hlist.
  assert (Hyes : err <> None \/ Contents listResponse = [] ->
                 Delete R fuel path w
                 = (Done (Some (PathNotFoundError path)), w1))
    by (apply Delete_PathNotFound; exact Hlist).
  split; [|exact Hyes].
  split.
  - intros (p & Hret).
    destruct err as [e|]; [left; discriminate|].
    destruct (Contents listResponse) as [|k ks] eqn:Hc;
      [right; reflexivity|exfalso].
    revert Hret. unfold Delete. rewrite Hlist, Hc.
    cbn [List.length]. rewrite Nat2Z.inj_succ.
    destruct (Z.eqb_spec (Z.succ (Z.of_nat (List.length ks))) 0); [lia|].
    apply deleteLoop_not_PathNotFound.
  - intro Hcase. exists path. rewrite (Hyes Hcase). reflexivity.
Qed.

End Deletion.

Lemma Delete_PathNotFound_iff_witness :
  Delete MemStore.remote 4 "b/"
         (MemStore.mkStore [] [("a/b"%string, 3)] 0 [] [])
  = (Done (Some (PathNotFoundError "b/")),
     MemStore.mkStore [] [("a/b"%string, 3)] 0 []
                      [MemStore.CallList "b/" "" "" listPartsMax]).
Proof.
  refine (proj2 (Delete_PathNotFound_iff
                   MemStore.remote 4 "b/" _ _
                   (mkListResp [] [] false "") None _) _).
  - reflexivity.
  - right. reflexivity.
Defined.

(** ** Deletion on the in-memory store *)

Section DeletionInMemory.

Import MemStore.

Lemma filter_filter_implied {A : Type} (f g : A -> bool) (l : list A) :
  (forall x, In x l -> f x = true -> g x = true) ->
  filter f (filter g l) = filter f l.
Proof.
  induction l as [|x l IH]; intro H; [reflexivity|].
  cbn [filter].
  assert (IH' : filter f (filter g l) = filter f l)
    by (apply IH; intros y Hy; apply H; right; exact Hy).
  destruct (g x) eqn:Hg; cbn [filter]; rewrite IH'; [reflexivity|].
  destruct (f x) eqn:Hf; [|reflexivity].
  rewrite (H x (or_introl eq_refl) Hf) in Hg. discriminate Hg.
Qed.

Lemma filter_all {A : Type} (f : A -> bool) (l : list A) :
  (forall x, In x l -> f x = true) -> filter f l = l.
Proof.
  induction l as [|x l IH]; intro H; [reflexivity|].
  cbn [filter]. rewrite (H x (or_introl eq_refl)).
  f_equal. apply IH. intros y Hy. apply H. right. exact Hy.
Qed.

Lemma filter_length_le {A : Type} (f : A -> bool) (l : list A) :
  (List.length (filter f l) <= List.length l)%nat.
Proof.
  induction l as [|x l IH]; [cbn; lia|].
  cbn [filter]. destruct (f x); cbn [List.length]; lia.
Qed.

(** The keys under a prefix, in the order of the store. *)
Lemma keys_under_map (path : string) (objs : list (string * Z)) :
  filter (String.prefix path) (map fst objs)
  = map fst (filter (fun o => String.prefix path (fst o)) objs).
Proof.
  induction objs as [|o objs IH]; [reflexivity|].
  cbn [map filter]. destruct (String.prefix path (fst o));
    cbn [map]; rewrite IH; reflexivity.
Qed.

(** A listing without delimiter and marker on a store without pending
    fault: the first [listPartsMax] keys under the prefix. *)
Lemma listObjects_flat (path : string) (st : Store) :
  faults st = [] ->
  exists st1 : Store,
    listObjects path "" "" listPartsMax st
    = ((mkListResp
          (firstn 1000 (filter (String.prefix path) (map fst (objects st))))
          []
          (Z.of_nat (List.length (firstn 1000 (filter (String.prefix path)
                                           (map fst (objects st)))))
           <? Z.of_nat (List.length (filter (String.prefix path)
                                            (map fst (objects st)))))
          (last (firstn 1000 (filter (String.prefix path)
                                     (map fst (objects st)))) ""%string),
        None), st1)
    /\ objects st1 = objects st
    /\ uploads st1 = uploads st
    /\ faults st1 = [].
Proof.
  intro Hfaults. unfold listObjects, enter. rewrite Hfaults.
  cbn [hd tl objects uploads faults groupOf String.eqb].
  assert (Hkeys : filter (fun k => String.prefix path k && true)
                         (map fst (objects st))
                  = filter (String.prefix path) (map fst (objects st))).
  { apply filter_ext. intro k. apply andb_true_r. }
  cbn [orb]. rewrite Hkeys.
  set (keys := filter (String.prefix path) (map fst (objects st))).
  assert (Hplain : filter (fun _ : string => isNone (@None string)) keys
                   = keys)
    by (apply filter_all; reflexivity).
  assert (Hnone : somes (map (groupOf path "") keys) = []).
  { clear. induction keys as [|k ks IH]; [reflexivity|exact IH]. }
  rewrite Hplain, Hnone.
  change (Z.to_nat listPartsMax) with 1000%nat. cbn [nodup].
  eexists. split; [reflexivity|]. cbn. repeat split.
Qed.

Lemma delMulti_ok (keys : list string) (st : Store) :
  faults st = [] ->
  exists st1 : Store,
    delMulti keys st = (None, st1)
    /\ objects st1
       = filter (fun o => negb (existsb (String.eqb (fst o)) keys))
                (objects st)
    /\ uploads st1 = uploads st
    /\ faults st1 = [].
Proof.
  intro Hfaults. unfold delMulti, enter. rewrite Hfaults.
  cbn [hd tl]. eexists. split; [reflexivity|]. cbn. repeat split.
Qed.

Lemma firstn_In {A : Type} (n : nat) (l : list A) (x : A) :
  In x (firstn n l) -> In x l.
Proof.
  revert l. induction n as [|n IH]; intros [|y l] H; cbn [firstn] in H;
    try contradiction.
  destruct H as [->|H]; [left; reflexivity|right; exact (IH l H)].
Qed.

Lemma existsb_eqb_In (k : string) (keys : list string) :
  existsb (String.eqb k) keys = true <-> In k keys.
Proof.
  rewrite existsb_exists. split.
  - intros (x & Hx & E). apply String.eqb_eq in E. subst x. exact Hx.
  - intro H. exists k. split; [exact H|apply String.eqb_refl].
Qed.

(** The loop of [Delete] on the in-memory store, entered with the listing
    of the current objects: it ends with [nil] and leaves exactly the
    objects that are not under the prefix. *)
Lemma deleteLoop_in_memory (path : string) (n : nat) :
  forall (fuel : nat) (st : Store) (tr : bool) (marker : string),
    faults st = [] ->
    (List.length (filter (String.prefix path) (map fst (objects st)))
     <= n)%nat ->
    (n < fuel)%nat ->
    exists st' : Store,
      deleteLoop remote fuel path
                 (mkListResp
                    (firstn 1000 (filter (String.prefix path)
                                         (map fst (objects st))))
                    [] tr marker) st
      = (Done None, st')
      /\ objects st'
         = filter (fun o => negb (String.prefix path (fst o))) (objects st)
      /\ uploads st' = uploads st
      /\ faults st' = [].
Proof.
  induction n as [|n IH]; intros fuel st tr marker Hfaults Hlen Hfuel;
    (destruct fuel as [|fuel]; [lia|]); cbn [deleteLoop Contents].
  - destruct (filter (String.prefix path) (map fst (objects st)))
      as [|k ks] eqn:Hkeys; [|cbn [List.length] in Hlen; lia].
    cbn [firstn List.length Z.of_nat Z.ltb Z.compare].
    exists st. split; [reflexivity|].
    split; [|split; [reflexivity|exact Hfaults]].
    symmetry. apply filter_all. intros o Ho.
    destruct (String.prefix path (fst o)) eqn:Hp; [|reflexivity].
    assert (Hin : In (fst o) (filter (String.prefix path)
                                     (map fst (objects st)))).
    { apply filter_In. split; [apply in_map; exact Ho|exact Hp]. }
    rewrite Hkeys in Hin. destruct Hin.
  - set (keys := filter (String.prefix path) (map fst (objects st))) in *.
    destruct keys as [|k ks] eqn:Hkeys.
    + cbn [firstn List.length Z.of_nat Z.ltb Z.compare].
      exists st. split; [reflexivity|].
      split; [|split; [reflexivity|exact Hfaults]].
      symmetry. apply filter_all. intros o Ho.
      destruct (String.prefix path (fst o)) eqn:Hp; [|reflexivity].
      assert (Hin : In (fst o) keys).
      { apply filter_In. split; [apply in_map; exact Ho|exact Hp]. }
      rewrite Hkeys in Hin. destruct Hin.
    + set (page := firstn 1000 (k :: ks)).
      assert (Hpage_len : (List.length page <= 1000)%nat)
        by (apply firstn_le_length).
      assert (Hk_page : In k page) by (left; reflexivity).
      destruct (Z.ltb_spec 0 (Z.of_nat (List.length page))) as [_|Hz];
        [|cbn [page firstn List.length] in Hz; lia].
      assert (Hmax : listPartsMax = 1000) by reflexivity.
      destruct (Z.ltb_spec listPartsMax (Z.of_nat (List.length page)))
        as [Hover|_]; [rewrite Hmax in Hover; lia|].
      cbn [DelMulti remote].
      destruct (delMulti_ok page st Hfaults)
        as (st1 & Hdel & Hobj1 & Hup1 & Hf1).
      rewrite Hdel. cbn [BucketList remote].
      destruct (listObjects_flat path st1 Hf1)
        as (st2 & Hlist & Hobj2 & Hup2 & Hf2).
      rewrite <- Hobj2 in Hlist. rewrite Hlist.
      assert (Hpage_under : forall x, In x page ->
                                      String.prefix path x = true).
      { intros x Hx. apply firstn_In in Hx.
        assert (Hx' : In x keys) by (rewrite Hkeys; exact Hx).
        apply filter_In in Hx'. exact (proj2 Hx'). }
      assert (Hless : (List.length (filter (String.prefix path)
                                           (map fst (objects st2)))
                       <= n)%nat).
      { rewrite Hobj2, Hobj1.
        rewrite keys_under_map.
        assert (Hcomm : filter (fun o => String.prefix path (fst o))
                          (filter (fun o => negb (existsb (String.eqb (fst o))
                                                          page))
                                  (objects st))
                        = filter (fun o => negb (existsb (String.eqb (fst o))
                                                         page))
                                 (filter (fun o => String.prefix path (fst o))
                                         (objects st))).
        { clear. induction (objects st) as [|o l IHl]; [reflexivity|].
          cbn [filter].
          destruct (negb (existsb (String.eqb (fst o)) page)) eqn:E1,
                   (String.prefix path (fst o)) eqn:E2;
            cbn [filter]; rewrite ?E1, ?E2, IHl; reflexivity. }
        rewrite Hcomm, length_map.
        assert (Hk_first :
                  exists o rest,
                    filter (fun o => String.prefix path (fst o)) (objects st)
                    = o :: rest /\ fst o = k /\ map fst rest = ks).
        { pose proof (keys_under_map path (objects st)) as Hm.
          fold keys in Hm. rewrite Hkeys in Hm.
          destruct (filter (fun o => String.prefix path (fst o)) (objects st))
            as [|o rest]; [discriminate Hm|].
          cbn [map] in Hm. injection Hm as Hk Hks.
          exists o, rest. split; [reflexivity|]. split; congruence. }
        destruct Hk_first as (o & rest & Hfo & Hko & Hrest).
        rewrite Hfo. cbn [filter].
        assert (Hin_page : existsb (String.eqb (fst o)) page = true)
          by (apply existsb_eqb_In; rewrite Hko; exact Hk_page).
        rewrite Hin_page. cbn [negb].
        pose proof (filter_length_le
                      (fun o => negb (existsb (String.eqb (fst o)) page))
                      rest) as Hle.
        assert (Hrl : List.length rest = List.length ks)
          by (rewrite <- Hrest, length_map; reflexivity).
        cbn [List.length] in Hlen. lia. }
      destruct (IH fuel st2
                   (Z.of_nat (List.length
                                (firstn 1000 (filter (String.prefix path)
                                                (map fst (objects st2)))))
                    <? Z.of_nat (List.length (filter (String.prefix path)
                                                (map fst (objects st2)))))
                   (last (firstn 1000 (filter (String.prefix path)
                                              (map fst (objects st2))))
                         ""%string)
                   Hf2 Hless ltac:(lia))
        as (st' & Hloop & Hobj' & Hup' & Hf').
      exists st'. split; [exact Hloop|].
      split; [|split; [congruence|exact Hf']].
      rewrite Hobj', Hobj2, Hobj1.
      apply filter_filter_implied.
      intros o Ho Hnot. apply negb_true_iff in Hnot.
      apply negb_true_iff.
      destruct (existsb (String.eqb (fst o)) page) eqn:E; [|reflexivity].
      apply existsb_eqb_In in E. rewrite (Hpage_under _ E) in Hnot.
      discriminate Hnot.
Qed.

(** [Delete] on the in-memory store. *)
Lemma Delete_in_memory
        (fuel : nat) (path : string) (st : Store) :
  faults st = [] ->
  (List.length (filter (String.prefix path) (map fst (objects st)))
   < fuel)%nat ->
  (filter (String.prefix path) (map fst (objects st)) = [] ->
   exists st' : Store,
     Delete remote fuel path st
     = (Done (Some (PathNotFoundError path)), st')
     /\ objects st' = objects st)
  /\ (filter (String.prefix path) (map fst (objects st)) <> [] ->
      exists st' : Store,
        Delete remote fuel path st = (Done None, st')
        /\ objects st'
           = filter (fun o => negb (String.prefix path (fst o)))
                    (objects st)
        /\ uploads st' = uploads st
        /\ fst (Delete remote fuel path st')
           = Done (Some (PathNotFoundError path))).
Proof.
  intros Hfaults Hfuel.
  destruct (listObjects_flat path st Hfaults)
    as (st1 & Hlist & Hobj1 & Hup1 & Hf1).
  split.
  - intro Hnone. exists st1. split; [|exact Hobj1].
    unfold Delete. cbn [BucketList remote]. rewrite Hlist, Hnone.
    reflexivity.
  - intro Hsome.
    rewrite <- Hobj1 in Hlist, Hfuel.
    destruct (deleteLoop_in_memory
                path
                (List.length (filter (String.prefix path)
                                     (map fst (objects st1))))
                fuel st1
                (Z.of_nat (List.length
                             (firstn 1000 (filter (String.prefix path)
                                             (map fst (objects st1)))))
                 <? Z.of_nat (List.length (filter (String.prefix path)
                                             (map fst (objects st1)))))
                (last (firstn 1000 (filter (String.prefix path)
                                           (map fst (objects st1))))
                      ""%string)
                Hf1 (Nat.le_refl _) Hfuel)
      as (st' & Hloop & Hobj' & Hup' & Hf').
    exists st'.
    assert (Hrun : Delete remote fuel path st = (Done None, st')).
    { unfold Delete. cbn [BucketList remote]. rewrite Hlist.
      cbn [Contents].
      rewrite <- Hobj1 in Hsome.
      assert (Hnz : (Z.of_nat
                       (List.length
                          (firstn 1000 (filter (String.prefix path)
                                          (map fst (objects st1)))))
                     =? 0) = false).
      { destruct (filter (String.prefix path) (map fst (objects st1)))
          as [|k ks]; [congruence|].
        cbn [firstn List.length]. apply Z.eqb_neq. lia. }
      rewrite Hnz. exact Hloop. }
    split; [exact Hrun|].
    rewrite Hobj1 in Hobj'.
    split; [exact Hobj'|]. split; [congruence|].
    destruct (listObjects_flat path st' Hf')
      as (st2 & Hlist2 & _).
    unfold Delete. cbn [BucketList remote]. rewrite Hlist2.
    assert (Hgone : filter (String.prefix path) (map fst (objects st')) = []).
    { rewrite keys_under_map, Hobj'.
      assert (Hnil : filter (fun o : string * Z => String.prefix path (fst o))
                            (filter (fun o => negb (String.prefix path
                                                                  (fst o)))
                                    (objects st)) = []).
      { clear. induction (objects st) as [|o l IHl]; [reflexivity|].
        cbn [filter].
        destruct (String.prefix path (fst o)) eqn:E; cbn [negb filter];
          [exact IHl|rewrite E; exact IHl]. }
      rewrite Hnil. reflexivity. }
    rewrite Hgone. reflexivity.
Qed.

(** X11. On the in-memory store, without store failure: [Delete]
    removes every object whose key starts with the path (as a string: the
    object at the path, what lies below it, and also any key that merely
    continues the path, such as ["ab"] for the path ["a"]), keeps all
    other objects and returns [nil], going through the keys in batches of
    at most [listPartsMax]; a second [Delete] of the same path then
    returns [PathNotFoundError].  When no key starts with the path, it
    returns [PathNotFoundError] and the objects are unchanged. *)
Theorem Delete_removes_keys_with_prefix
        (fuel : nat) (path : string) (st : Store) :
  faults st = [] ->
  (List.length (filter (String.prefix path) (map fst (objects st)))
   < fuel)%nat ->
  (filter (String.prefix path) (map fst (objects st)) = [] ->
   exists st' : Store,
     Delete remote fuel path st
     = (Done (Some (PathNotFoundError path)), st')
     /\ objects st' = objects st)
  /\ (filter (String.prefix path) (map fst (objects st)) <> [] ->
      exists st' : Store,
        Delete remote fuel path st = (Done None, st')
        /\ objects st'
           = filter (fun o => negb (String.prefix path (fst o)))
                    (objects st)
        /\ uploads st' = uploads st
        /\ fst (Delete remote fuel path st')
           = Done (Some (PathNotFoundError path))).
Proof.
  exact (Delete_in_memory fuel path st).
Qed.

End DeletionInMemory.

Lemma Delete_removes_keys_with_prefix_witness :
  exists st' : MemStore.Store,
    Delete MemStore.remote 4 "a"
           (MemStore.mkStore [] [("a/b"%string, 3); ("ab"%string, 4);
                                 ("b"%string, 5)] 0 [] [])
    = (Done None, st')
    /\ MemStore.objects st'
       = filter (fun o => negb (String.prefix "a" (fst o)))
                [("a/b"%string, 3); ("ab"%string, 4); ("b"%string, 5)]
    /\ MemStore.uploads st' = []
    /\ fst (Delete MemStore.remote 4 "a" st')
       = Done (Some (PathNotFoundError "a")).
Proof.
  refine (proj2 (Delete_removes_keys_with_prefix
                   4 "a"
                   (MemStore.mkStore [] [("a/b"%string, 3); ("ab"%string, 4);
                                         ("b"%string, 5)] 0 [] [])
                   _ _) _).
  - reflexivity.
  - cbn. lia.
  - cbn. discriminate.
Defined.

(** ** Whole writes on the in-memory store *)

Section WholeWrites.

Import MemStore.

Lemma getAllParts_fresh_frame (path : string) (st : Store) :
  unlisted path (uploads st) ->
  faults st = [] ->
  exists st1 : Store,
    getAllParts remote path st
    = (Done (Some (mkMulti path (freshId (nextId st))), [], None), st1)
    /\ uploads st1
       = uploads st ++ [(mkMulti path (freshId (nextId st)), [])]
    /\ faults st1 = []
    /\ objects st1 = objects st.
Proof.
  intros Hun Hfaults.
  destruct st as [ups objs nid fl lg]. cbn [uploads faults nextId] in *.
  subst fl.
  unfold getAllParts, getHighestIDMulti.
  cbn [ListMulti remote]. unfold listMulti, enter.
  cbn [hd tl faults uploads objects nextId log listMultiFailed].
  rewrite (listed_none path ups Hun).
  cbn [List.length Z.of_nat Z.ltb Z.compare InitMulti remote].
  unfold initMulti, enter.
  cbn [hd tl faults uploads objects nextId log option_map
       ListParts remote].
  unfold listParts, enter.
  cbn [hd tl faults uploads objects nextId log].
  rewrite findParts_last
    by (apply (unlisted_multi_eqb path); [exact Hun|reflexivity]).
  cbn [option_map].
  eexists. split; [reflexivity|]. repeat split.
Qed.

Lemma getAllParts_session_frame (path : string) (st : Store)
      (ups0 : list (Multi * list Part)) (m : Multi) (ps : list Part) :
  unlisted path ups0 ->
  Key m = path ->
  uploads st = ups0 ++ [(m, ps)] ->
  faults st = [] ->
  exists st1 : Store,
    getAllParts remote path st = (Done (Some m, ps, None), st1)
    /\ uploads st1 = uploads st
    /\ faults st1 = []
    /\ objects st1 = objects st.
Proof.
  intros Hun Hkey Hups Hfaults.
  destruct st as [ups objs nid fl lg]. cbn [uploads faults nextId] in *.
  subst fl ups.
  unfold getAllParts, getHighestIDMulti.
  cbn [ListMulti remote]. unfold listMulti, enter.
  cbn [hd tl faults uploads objects nextId log listMultiFailed].
  rewrite map_app, filter_app, (listed_none path ups0 Hun).
  cbn [map filter fst app]. rewrite Hkey, prefix_refl.
  cbn [List.length Z.of_nat Z.ltb Z.compare Pos.of_succ_nat fold_left].
  unfold pickMulti. rewrite Hkey, String.eqb_refl, leb_empty.
  cbn [andb snd ListParts remote].
  unfold listParts, enter.
  cbn [hd tl faults uploads objects nextId log].
  rewrite findParts_last
    by (apply (unlisted_multi_eqb path); [exact Hun|exact Hkey]).
  cbn [option_map].
  eexists. split; [reflexivity|]. repeat split.
Qed.

(** The parts [from+1 .. from+k], each of [size] bytes. *)
Lemma uniformParts_app (j k : nat) (C : Z) :
  uniformParts j C
  ++ map (fun i => mkPart (Z.of_nat i) "etag" C) (seq (S j) k)
  = uniformParts (j + k) C.
Proof.
  unfold uniformParts. rewrite <- map_app, <- seq_app. reflexivity.
Qed.

Lemma sum_sizes_chunks (s k : nat) (C : Z) :
  fold_right Z.add 0
             (map Size (map (fun i => mkPart (Z.of_nat i) "etag" C)
                            (seq s k)))
  = Z.of_nat k * C.
Proof.
  revert s. induction k as [|k IH]; intro s; [reflexivity|].
  cbn [seq map fold_right Size]. rewrite IH. lia.
Qed.

Lemma sum_sizes_app (l1 l2 : list Part) :
  fold_right Z.add 0 (map Size (l1 ++ l2))
  = fold_right Z.add 0 (map Size l1) + fold_right Z.add 0 (map Size l2).
Proof.
  induction l1 as [|p l1 IH]; [reflexivity|].
  cbn [app map fold_right]. rewrite IH. lia.
Qed.

(** [k] whole chunks read and uploaded, none of which reaches the declared
    size: the loop goes on with what is left of the reader. *)
Lemma streamLoop_chunks_then
      (ups0 : list (Multi * list Part)) (m : Multi) (C size : Z)
      (rest : Reader) (k : nat) :
  forall (j fuel : nat) (parts : list Part) (st : Store),
    (forall u, In u ups0 -> multi_eqb m (fst u) = false) ->
    uploads st = ups0 ++ [(m, uniformParts j C)] ->
    faults st = [] ->
    minChunkSize <= C ->
    Z.of_nat (j + k) * C < size ->
    size < U64.modulus ->
    exists st' : Store,
      streamLoop remote (k + fuel) (Some m) C size
                 (repeat (C, None) k ++ rest)
                 (Z.of_nat j + 1) (Z.of_nat j * C) parts st
      = streamLoop remote fuel (Some m) C size rest
                   (Z.of_nat (j + k) + 1) (Z.of_nat (j + k) * C)
                   (parts ++ map (fun i => mkPart (Z.of_nat i) "etag" C)
                                 (seq (S j) k))
                   st'
      /\ uploads st' = ups0 ++ [(m, uniformParts (j + k) C)]
      /\ faults st' = []
      /\ objects st' = objects st.
Proof.
  assert (Hmc : minChunkSize = 5242880) by reflexivity.
  assert (HM : U64.modulus = 18446744073709551616) by reflexivity.
  induction k as [|k IH];
    intros j fuel parts st Hother Hups Hfaults HC Hsize Hmax.
  - exists st. rewrite Nat.add_0_r. cbn [seq map repeat app Nat.add].
    rewrite app_nil_r. repeat split; assumption.
  - pose proof HC as HC'. pose proof Hmax as Hmax'.
    rewrite Hmc in HC'. rewrite HM in Hmax'.
    assert (Hj : Z.of_nat (j + S k) = Z.of_nat j + 1 + Z.of_nat k) by lia.
    rewrite Hj in Hsize.
    assert (HwC : U64.wrap C = C).
    { apply U64_wrap_small. unfold U64.in_range. rewrite HM. nia. }
    assert (Htot : U64.add (Z.of_nat j * C) C = (Z.of_nat j + 1) * C).
    { unfold U64.add. rewrite U64_wrap_small; [ring|].
      unfold U64.in_range. rewrite HM. nia. }
    cbn [Nat.add repeat app streamLoop ReadFull fatalRead].
    rewrite HwC, Htot, Z.ltb_irrefl. cbn [andb].
    cbn [PutPart remote]. unfold putPart, enter.
    rewrite Hfaults. cbn [hd tl uploads].
    rewrite Hups, (findParts_last m _ ups0 Hother).
    rewrite (setParts_last m _ _ ups0 Hother), insertPart_uniform.
    destruct (Z.eqb_spec ((Z.of_nat j + 1) * C) size) as [Heq|_]; [nia|].
    assert (Hpn : Int.add (Z.of_nat j + 1) 1 = Z.of_nat (S j) + 1).
    { unfold Int.add. rewrite Int_wrap_small; [lia|].
      assert (H63 : 2 ^ 63 = 9223372036854775808) by reflexivity.
      rewrite H63. nia. }
    rewrite Hpn.
    replace ((Z.of_nat j + 1) * C) with (Z.of_nat (S j) * C)
      by (rewrite Nat2Z.inj_succ; ring).
    match goal with
    | |- context [streamLoop remote (k + fuel) _ _ _ _ _ _ ?ps ?s] =>
        destruct (IH (S j) fuel ps s) as (st' & Hrun & Hups' & Hf' & Hobj')
    end; try assumption; try reflexivity.
    { replace (Z.of_nat (S j + k)) with (Z.of_nat j + 1 + Z.of_nat k) by lia.
      exact Hsize. }
    exists st'. rewrite Hrun.
    replace (j + S k)%nat with (S j + k)%nat by lia.
    split; [|split; [exact Hups'|split; [exact Hf'|exact Hobj']]].
    cbn [seq map]. rewrite <- app_assoc. cbn [app].
    rewrite Nat2Z.inj_succ.
    replace (Z.succ (Z.of_nat j)) with (Z.of_nat j + 1) by lia.
    reflexivity.
Qed.

(** The read that brings the running total to the declared size: its
    bytes are uploaded as the next part and the session is completed with
    the parts known to the writer. *)
Lemma streamLoop_last_part
      (ups0 : list (Multi * list Part)) (m : Multi) (C size n : Z)
      (e : option ExtError) (rest : Reader) (j fuel : nat)
      (parts : list Part) (st : Store) :
  (forall u, In u ups0 -> multi_eqb m (fst u) = false) ->
  uploads st = ups0 ++ [(m, uniformParts j C)] ->
  faults st = [] ->
  fatalRead e = false ->
  0 <= n ->
  0 <= Z.of_nat j * C ->
  Z.of_nat j * C + n = size ->
  size < U64.modulus ->
  exists st' : Store,
    streamLoop remote (S fuel) (Some m) C size ((n, e) :: rest)
               (Z.of_nat j + 1) (Z.of_nat j * C) parts st
    = (Done None, st')
    /\ uploads st' = ups0
    /\ faults st' = []
    /\ objects st'
       = objects st
         ++ [(Key m,
              fold_right Z.add 0 (map Size parts) + n)].
Proof.
  intros Hother Hups Hfaults Hfatal Hn Hj Hsum Hmax.
  assert (Hwn : U64.wrap n = n)
    by (apply U64_wrap_small; unfold U64.in_range; lia).
  assert (Htot : U64.add (Z.of_nat j * C) n = size).
  { unfold U64.add. rewrite U64_wrap_small; [exact Hsum|].
    unfold U64.in_range. lia. }
  cbn [streamLoop ReadFull]. rewrite Hfatal, Hwn, Htot, Z.eqb_refl.
  cbn [negb]. rewrite andb_false_r.
  cbn [PutPart remote]. unfold putPart, enter.
  rewrite Hfaults. cbn [hd tl uploads].
  rewrite Hups, (findParts_last m _ ups0 Hother).
  rewrite (setParts_last m _ _ ups0 Hother).
  cbn [Complete remote]. unfold complete, enter, withUploads.
  cbn [hd tl uploads faults objects nextId log].
  rewrite (findParts_last m _ ups0 Hother).
  eexists. split; [reflexivity|].
  cbn [uploads faults objects].
  split; [|split; [reflexivity|]].
  - rewrite filter_app. cbn [filter fst]. rewrite multi_eqb_refl.
    cbn [negb]. rewrite app_nil_r.
    apply filter_all. intros u Hu. rewrite (Hother u Hu). reflexivity.
  - rewrite sum_sizes_app. cbn [map fold_right Size].
    rewrite Z.add_0_r. reflexivity.
Qed.

Lemma invalidOffset_zero_no_parts (size C : Z) :
  minChunkSize <= C -> invalidOffset 0 size C [] = false.
Proof.
  intro HC. unfold invalidOffset. cbn [List.length Z.of_nat].
  assert (Hmc : minChunkSize = 5242880) by reflexivity.
  rewrite Z.mod_0_l by (rewrite Hmc in HC; lia).
  rewrite andb_false_r. reflexivity.
Qed.

(** [CurrentSize] of a path without listed session. *)
Lemma CurrentSize_fresh_path (path : string) (st : Store) :
  unlisted path (uploads st) ->
  faults st = [] ->
  exists st' : Store,
    CurrentSize remote path st = (Done (0, None), st')
    /\ uploads st'
       = uploads st ++ [(mkMulti path (freshId (nextId st)), [])]
    /\ objects st' = objects st.
Proof.
  intros Hun Hfaults.
  destruct (getAllParts_fresh_frame path st Hun Hfaults)
    as (st1 & Hget & Hups & _ & Hobj).
  exists st1. split; [|split; assumption].
  unfold CurrentSize. rewrite Hget. reflexivity.
Qed.

(** X12. On the in-memory store, [CurrentSize] of a path for which no
    session is listed returns 0 and, although it is a query, leaves a
    newly initiated session for the path open in the store. *)
Theorem CurrentSize_opens_session (path : string) (st : Store) :
  unlisted path (uploads st) ->
  faults st = [] ->
  exists st' : Store,
    CurrentSize remote path st = (Done (0, None), st')
    /\ uploads st'
       = uploads st ++ [(mkMulti path (freshId (nextId st)), [])]
    /\ objects st' = objects st.
Proof.
  exact (CurrentSize_fresh_path path st).
Qed.

(** X13. On the in-memory store, without store failure: a write to a
    path without listed session whose stream delivers the declared size,
    as [k] whole chunks and a last read of [n] bytes, returns [nil], stores
    one object of the declared size at the path and leaves no session
    behind.  This includes the declared size 0, for which one empty part is
    uploaded.  Afterwards [CurrentSize] of the path is 0, not the size
    written: it only counts the parts of an open session. *)
Theorem WriteStream_stores_whole_object
        (path : string) (size C n : Z) (k extra : nat)
        (e : option ExtError) (st : Store) :
  U64.in_range size ->
  deriveChunkSize size = Done C ->
  unlisted path (uploads st) ->
  faults st = [] ->
  fatalRead e = false ->
  0 <= n ->
  Z.of_nat k * C + n = size ->
  0 < n \/ k = 0%nat ->
  exists st' : Store,
    WriteStream remote (S k + extra) path 0 size
                (repeat (C, None) k ++ [(n, e)]) st
    = (Done None, st')
    /\ objects st' = objects st ++ [(path, size)]
    /\ uploads st' = uploads st
    /\ fst (CurrentSize remote path st') = Done (0, None).
Proof.
  intros Hsize Hchunk Hun Hfaults Hfatal Hn Hsum Hlast.
  destruct (deriveChunkSize_Done size C Hsize Hchunk) as [HC HCmax].
  assert (Hmc : minChunkSize = 5242880) by reflexivity.
  destruct Hsize as [Hsize0 HsizeM].
  set (m := mkMulti path (freshId (nextId st))).
  destruct (getAllParts_fresh_frame path st Hun Hfaults)
    as (st1 & Hget & Hups1 & Hfaults1 & Hobj1).
  assert (Hother : forall u, In u (uploads st) ->
                             multi_eqb m (fst u) = false)
    by (apply (unlisted_multi_eqb path); [exact Hun|reflexivity]).
  assert (Hloop : exists st' : Store,
             streamLoop remote (S k + extra) (Some m) C size
                        (repeat (C, None) k ++ [(n, e)]) 1 0 [] st1
             = (Done None, st')
             /\ uploads st' = uploads st
             /\ faults st' = []
             /\ objects st' = objects st ++ [(path, size)]).
  { destruct k as [|k'].
    - destruct (streamLoop_last_part (uploads st) m C size n e [] 0 extra
                  [] st1 Hother Hups1 Hfaults1 Hfatal Hn ltac:(cbn; lia)
                  ltac:(cbn in *; lia) HsizeM)
        as (st' & Hrun & Hups' & Hf' & Hobj').
      exists st'. split; [exact Hrun|].
      split; [exact Hups'|]. split; [exact Hf'|].
      rewrite Hobj', Hobj1. cbn [map fold_right Key m].
      cbn in Hsum. rewrite Z.add_0_l, Hsum. reflexivity.
    - destruct Hlast as [Hpos|Hk0]; [|discriminate Hk0].
      destruct (streamLoop_chunks_then (uploads st) m C size [(n, e)]
                  (S k') 0 (S extra) [] st1 Hother Hups1 Hfaults1 HC
                  ltac:(cbn [Nat.add]; lia) HsizeM)
        as (st2 & Hrun2 & Hups2 & Hf2 & Hobj2).
      destruct (streamLoop_last_part (uploads st) m C size n e []
                  (0 + S k') extra
                  ([] ++ map (fun i => mkPart (Z.of_nat i) "etag" C)
                             (seq 1 (S k')))
                  st2 Hother Hups2 Hf2 Hfatal Hn
                  ltac:(cbn [Nat.add]; rewrite Hmc in HC; nia)
                  ltac:(cbn [Nat.add]; exact Hsum) HsizeM)
        as (st' & Hrun & Hups' & Hf' & Hobj').
      exists st'.
      replace (S (S k') + extra)%nat with (S k' + S extra)%nat by lia.
      cbn [Z.of_nat Z.add Z.mul] in Hrun2.
      split; [rewrite Hrun2; exact Hrun|].
      split; [exact Hups'|]. split; [exact Hf'|].
      rewrite Hobj', Hobj2, Hobj1. cbn [app].
      rewrite sum_sizes_chunks. cbn [Key m]. rewrite Hsum. reflexivity. }
  destruct Hloop as (st' & Hrun & Hups' & Hf' & Hobj').
  exists st'. split; [|split; [exact Hobj'|split; [exact Hups'|]]].
  - unfold WriteStream. rewrite Hchunk, Hget.
    rewrite (invalidOffset_zero_no_parts size C HC).
    cbn [resumeState List.length Z.of_nat Z.ltb Z.compare].
    exact Hrun.
  - rewrite <- Hups' in Hun.
    destruct (CurrentSize_fresh_path path st' Hun Hf')
      as (st'' & Hcur & _).
    rewrite Hcur. reflexivity.
Qed.

End WholeWrites.

Lemma CurrentSize_opens_session_witness :
  exists st' : MemStore.Store,
    CurrentSize MemStore.remote Scenario.path (snd Scenario.afterWhole)
    = (Done (0, None), st')
    /\ MemStore.uploads st'
       = MemStore.uploads (snd Scenario.afterWhole)
         ++ [(mkMulti Scenario.path
                (MemStore.freshId
                   (MemStore.nextId (snd Scenario.afterWhole))), [])]
    /\ MemStore.objects st' = MemStore.objects (snd Scenario.afterWhole).
Proof.
  refine (CurrentSize_opens_session Scenario.path
                                    (snd Scenario.afterWhole) _ _).
  - intros u Hu. vm_compute in Hu. destruct Hu.
  - vm_compute. reflexivity.
Defined.

Lemma WriteStream_stores_whole_object_witness :
  exists st' : MemStore.Store,
    WriteStream MemStore.remote (3 + 1) Scenario.path 0 Scenario.size
                (repeat (5 * MB, None) 2
                 ++ [(2 * MB, Some ErrUnexpectedEOF)])
                MemStore.empty
    = (Done None, st')
    /\ MemStore.objects st'
       = MemStore.objects MemStore.empty ++ [(Scenario.path, Scenario.size)]
    /\ MemStore.uploads st' = MemStore.uploads MemStore.empty
    /\ fst (CurrentSize MemStore.remote Scenario.path st') = Done (0, None).
Proof.
  refine (WriteStream_stores_whole_object
            Scenario.path Scenario.size (5 * MB) (2 * MB) 2 1
            (Some ErrUnexpectedEOF) MemStore.empty _ _ _ _ _ _ _ _).
  - vm_compute. split; congruence.
  - vm_compute. reflexivity.
  - intros u Hu. destruct Hu.
  - reflexivity.
  - reflexivity.
  - vm_compute. congruence.
  - vm_compute. reflexivity.
  - left. vm_compute. reflexivity.
Defined.

(** ** A write in two calls on the in-memory store *)

Section ResumedWrites.

Import MemStore.

Lemma resumeState_uniform (size C : Z) (k : nat) :
  minChunkSize <= C ->
  Z.of_nat k * C < U64.modulus ->
  invalidOffset (Z.of_nat k * C) size C (uniformParts k C) = false
  /\ resumeState (Z.of_nat k * C) C (uniformParts k C)
     = Done (Z.of_nat k + 1, Z.of_nat k * C, uniformParts k C).
Proof.
  intros HC Hmax.
  assert (Hmc : minChunkSize = 5242880) by reflexivity.
  assert (HC0 : 0 < C) by (rewrite Hmc in HC; lia).
  assert (Hoff : U64.in_range (Z.of_nat k * C))
    by (unfold U64.in_range; split; [nia|exact Hmax]).
  assert (Hinv : invalidOffset (Z.of_nat k * C) size C (uniformParts k C)
                 = false).
  { unfold invalidOffset. rewrite U64_mul_wrap_l, uniformParts_length.
    rewrite (Z.mod_small (Z.of_nat k * C)) by exact Hoff.
    rewrite Z.ltb_irrefl, Z.mod_mul by lia.
    rewrite andb_false_r. reflexivity. }
  split; [exact Hinv|].
  destruct k as [|k]; [reflexivity|].
  assert (Hne : uniformParts (S k) C <> []).
  { intro Hnil. apply (f_equal (@List.length Part)) in Hnil.
    rewrite uniformParts_length in Hnil. discriminate Hnil. }
  destruct (resumeState_parts (Z.of_nat (S k) * C) size C
              (uniformParts (S k) C) Hoff HC Hne Hinv) as [_ Hres].
  rewrite Z.div_mul, Nat2Z.id in Hres by lia.
  assert (Hfirst : firstn (S k) (uniformParts (S k) C)
                   = uniformParts (S k) C)
    by (apply firstn_all2; rewrite uniformParts_length; lia).
  rewrite Hfirst in Hres. exact Hres.
Qed.

(** X14. On the in-memory store, without store failure, a write can be
    finished by a second call.  A first call to a path without listed
    session, whose stream delivers [k1] whole chunks and then ends short
    of the declared size, returns [nil]; [CurrentSize] then returns
    [k1 * chunkSize]; a second call at that offset, whose stream delivers
    the rest of the declared size from there, returns [nil], and the store
    then holds one object of the declared size at the path and no session
    for it.  The bytes of the short read of the first call were not kept:
    the second stream starts at the offset, not after them. *)
Theorem WriteStream_resumed_write_completes
        (path : string) (size C t n : Z) (k1 k2 extra1 extra2 : nat)
        (et e : option ExtError) (st : Store) :
  U64.in_range size ->
  deriveChunkSize size = Done C ->
  unlisted path (uploads st) ->
  faults st = [] ->
  fatalRead et = false ->
  0 <= t < C ->
  Z.of_nat k1 * C + t < size ->
  fatalRead e = false ->
  0 < n ->
  Z.of_nat (k1 + k2) * C + n = size ->
  exists st1 st2 st3 : Store,
    WriteStream remote (S k1 + extra1) path 0 size
                (repeat (C, None) k1 ++ [(t, et)]) st
    = (Done None, st1)
    /\ CurrentSize remote path st1 = (Done (Z.of_nat k1 * C, None), st2)
    /\ WriteStream remote (S k2 + extra2) path (Z.of_nat k1 * C) size
                   (repeat (C, None) k2 ++ [(n, e)]) st2
       = (Done None, st3)
    /\ objects st3 = objects st ++ [(path, size)]
    /\ uploads st3 = uploads st.
Proof.
  intros Hsize Hchunk Hun Hfaults Hfatal1 Ht Hshort Hfatal2 Hn Hsum.
  destruct (deriveChunkSize_Done size C Hsize Hchunk) as [HC HCmax].
  assert (Hmc : minChunkSize = 5242880) by reflexivity.
  assert (HC0 : 0 < C) by (rewrite Hmc in HC; lia).
  destruct Hsize as [Hsize0 HsizeM].
  set (m := mkMulti path (freshId (nextId st))).
  assert (Hother : forall u, In u (uploads st) ->
                             multi_eqb m (fst u) = false)
    by (apply (unlisted_multi_eqb path); [exact Hun|reflexivity]).
  assert (Hk1 : Z.of_nat k1 * C < size) by lia.
  assert (Hk12 : Z.of_nat (k1 + k2) * C < size) by lia.
  (* first call *)
  destruct (getAllParts_fresh_frame path st Hun Hfaults)
    as (sa & Hget1 & Hupsa & Hfa & Hobja).
  destruct (streamLoop_chunks_then (uploads st) m C size [(t, et)] k1 0
              (S extra1) [] sa Hother Hupsa Hfa HC
              ltac:(cbn [Nat.add]; exact Hk1) HsizeM)
    as (st1 & Hrun1 & Hups1 & Hf1 & Hobj1).
  change (0 + k1)%nat with k1 in Hups1.
  assert (Hbreak : streamLoop remote (S extra1) (Some m) C size [(t, et)]
                     (Z.of_nat k1 + 1) (Z.of_nat k1 * C)
                     ([] ++ map (fun i => mkPart (Z.of_nat i) "etag" C)
                                (seq 1 k1)) st1
                   = (Done None, st1)).
  { apply (streamLoop_break remote extra1 (Some m) C size [(t, et)] [] t et);
      try assumption; try reflexivity.
    - rewrite U64_wrap_small; [lia|]. unfold U64.in_range. lia.
    - rewrite (U64_wrap_small t) by (unfold U64.in_range; lia).
      unfold U64.add. rewrite U64_wrap_small; [lia|].
      unfold U64.in_range. nia. }
  (* the size in between *)
  destruct (getAllParts_session_frame path st1 (uploads st) m
              (uniformParts k1 C) Hun eq_refl Hups1 Hf1)
    as (st2 & Hget2 & Hups2 & Hf2 & Hobj2).
  rewrite Hups1 in Hups2.
  (* second call *)
  destruct (getAllParts_session_frame path st2 (uploads st) m
              (uniformParts k1 C) Hun eq_refl Hups2 Hf2)
    as (sb & Hget3 & Hupsb & Hfb & Hobjb).
  rewrite Hups2 in Hupsb.
  destruct (resumeState_uniform size C k1 HC ltac:(lia)) as [Hinv Hres].
  destruct (streamLoop_chunks_then (uploads st) m C size [(n, e)] k2 k1
              (S extra2) (uniformParts k1 C) sb Hother Hupsb Hfb HC
              Hk12 HsizeM)
    as (sc & Hrun3 & Hupsc & Hfc & Hobjc).
  destruct (streamLoop_last_part (uploads st) m C size n e [] (k1 + k2)
              extra2
              (uniformParts k1 C
               ++ map (fun i => mkPart (Z.of_nat i) "etag" C)
                      (seq (S k1) k2))
              sc Hother Hupsc Hfc Hfatal2 ltac:(lia) ltac:(nia) Hsum
              HsizeM)
    as (st3 & Hrun4 & Hups3 & Hf3 & Hobj3).
  exists st1, st2, st3.
  split; [|split; [|split; [|split]]].
  - unfold WriteStream. rewrite Hchunk, Hget1.
    rewrite (invalidOffset_zero_no_parts size C HC).
    cbn [resumeState List.length Z.of_nat Z.ltb Z.compare].
    replace (S k1 + extra1)%nat with (k1 + S extra1)%nat by lia.
    exact (eq_trans Hrun1 Hbreak).
  - rewrite (CurrentSize_parts remote path st1 st2 _ _ Hget2).
    rewrite sizeOfParts_uniform; [reflexivity|lia|lia].
  - unfold WriteStream. rewrite Hchunk, Hget3, Hinv, Hres.
    replace (S k2 + extra2)%nat with (k2 + S extra2)%nat by lia.
    exact (eq_trans Hrun3 Hrun4).
  - rewrite Hobj3, Hobjc, Hobjb, Hobj2, Hobj1, Hobja.
    rewrite uniformParts_app. unfold uniformParts.
    rewrite sum_sizes_chunks. cbn [Key m]. rewrite Hsum. reflexivity.
  - exact Hups3.
Qed.

End ResumedWrites.

Lemma WriteStream_resumed_write_completes_witness :
  exists st1 st2 st3 : MemStore.Store,
    WriteStream MemStore.remote (3 + 0) Scenario.path 0 Scenario.size
                (repeat (5 * MB, None) 2 ++ [(1 * MB, Some ErrUnexpectedEOF)])
                MemStore.empty
    = (Done None, st1)
    /\ CurrentSize MemStore.remote Scenario.path st1
       = (Done (Z.of_nat 2 * (5 * MB), None), st2)
    /\ WriteStream MemStore.remote (1 + 0) Scenario.path
                   (Z.of_nat 2 * (5 * MB)) Scenario.size
                   (repeat (5 * MB, None) 0
                    ++ [(2 * MB, Some ErrUnexpectedEOF)]) st2
       = (Done None, st3)
    /\ MemStore.objects st3
       = MemStore.objects MemStore.empty ++ [(Scenario.path, Scenario.size)]
    /\ MemStore.uploads st3 = MemStore.uploads MemStore.empty.
Proof.
  refine (WriteStream_resumed_write_completes
            Scenario.path Scenario.size (5 * MB) (1 * MB) (2 * MB) 2 0 0 0
            (Some ErrUnexpectedEOF) (Some ErrUnexpectedEOF) MemStore.empty
            _ _ _ _ _ _ _ _ _ _).
  - vm_compute. split; congruence.
  - vm_compute. reflexivity.
  - intros u Hu. destruct Hu.
  - reflexivity.
  - reflexivity.
  - vm_compute. split; congruence.
  - vm_compute. reflexivity.
  - reflexivity.
  - vm_compute. reflexivity.
  - vm_compute. reflexivity.
Defined.

(** ** Construction *)

Section Constructing.

Context {W Region : Type}.
Variable RegionName : Region -> string.
Variable GetRegion : string -> Region.
Variable ParseBool : string -> bool * option ExtError.
Variable PutBucket : s3_Bucket Region -> W -> option ExtError * W.

Lemma absentOrEmpty_false (v : option string) :
  absentOrEmpty v = false <-> exists s, v = Some s /\ s <> ""%string.
Proof.
  destruct v as [s|]; cbn [absentOrEmpty].
  - rewrite String.eqb_neq. split.
    + intro H. exists s. split; [reflexivity|exact H].
    + intros (s' & E & H). injection E as ->. exact H.
  - split; [discriminate|]. intros (s & E & _). discriminate E.
Qed.

Lemma FromParameters_accepted
      (parameters : string -> option string) (w : W)
      (ak sk rn bn : string) (b : bool) :
  accepted RegionName GetRegion ParseBool parameters ak sk rn bn b ->
  FromParameters RegionName GetRegion ParseBool PutBucket parameters w
  = New PutBucket ak sk (GetRegion rn) b bn w.
Proof.
  intros (Hak & Hak' & Hsk & Hsk' & Hrn & Hrn' & Hname & Hbn & Hbn'
          & enc & Henc & Hparse).
  unfold FromParameters.
  rewrite Hak, Hsk, Hrn, Hbn, Henc, Hparse. cbn [absentOrEmpty valueOf].
  apply String.eqb_neq in Hak', Hsk', Hrn', Hname, Hbn'.
  rewrite Hak', Hsk', Hrn', Hname, Hbn'. reflexivity.
Qed.

Lemma FromParameters_cases
      (parameters : string -> option string) (w : W) :
  (exists ak sk rn bn b,
      accepted RegionName GetRegion ParseBool parameters ak sk rn bn b)
  \/ (exists err,
         FromParameters RegionName GetRegion ParseBool PutBucket
                        parameters w
         = ((None, Some err), w)).
Proof.
  unfold FromParameters.
  destruct (absentOrEmpty (parameters "accesskey"%string)) eqn:Hak;
    [right; eexists; reflexivity|].
  destruct (absentOrEmpty (parameters "secretkey"%string)) eqn:Hsk;
    [right; eexists; reflexivity|].
  destruct (absentOrEmpty (parameters "region"%string)) eqn:Hrn;
    [right; eexists; reflexivity|].
  destruct (String.eqb_spec
              (RegionName (GetRegion (valueOf (parameters "region"%string))))
              ""%string) as [Hname|Hname];
    [right; eexists; reflexivity|].
  destruct (absentOrEmpty (parameters "bucket"%string)) eqn:Hbn;
    [right; eexists; reflexivity|].
  destruct (parameters "encrypt"%string) as [enc|] eqn:Henc;
    [|right; eexists; reflexivity].
  destruct (ParseBool enc) as [b [perr|]] eqn:Hparse;
    [right; eexists; reflexivity|].
  left.
  apply absentOrEmpty_false in Hak, Hsk, Hrn, Hbn.
  destruct Hak as (ak & Hak & Hak'). destruct Hsk as (sk & Hsk & Hsk').
  destruct Hrn as (rn & Hrn & Hrn'). destruct Hbn as (bn & Hbn & Hbn').
  rewrite Hrn in Hname. cbn [valueOf] in Hname.
  exists ak, sk, rn, bn, b.
  repeat (split; [assumption|]).
  exists enc. split; [exact Henc|exact Hparse].
Qed.

Lemma alreadyOwnedByYou_iff (e : ExtError) :
  alreadyOwnedByYou e = true <-> e = S3Error "BucketAlreadyOwnedByYou".
Proof.
  destruct e as [| |c|c|msg]; cbn [alreadyOwnedByYou];
    try (split; discriminate).
  rewrite String.eqb_eq. split; [intros ->; reflexivity|].
  intro E. injection E as ->. reflexivity.
Qed.

(** X15. [FromParameters] asks the store for the bucket only when all five
    parameters pass their checks: [accesskey], [secretkey], [region] and
    [bucket] present and not empty, the region known to the client,
    [encrypt] present and accepted by [strconv.ParseBool] (an empty
    [encrypt] is handed to [ParseBool], not reported as missing).  In
    every other case it returns an error and no driver without any call to
    the store.  It returns a driver exactly when, in addition,
    [PutBucket] succeeds or fails with an [*s3.Error] of code
    [BucketAlreadyOwnedByYou]; the driver then holds the credentials, the
    region, the bucket name and the parsed flag. *)
Theorem FromParameters_driver_iff
        (parameters : string -> option string) (w : W) :
  ((forall ak sk rn bn b,
       ~ accepted RegionName GetRegion ParseBool parameters ak sk rn bn b) ->
   exists err,
     FromParameters RegionName GetRegion ParseBool PutBucket parameters w
     = ((None, Some err), w))
  /\ (forall d,
         fst (FromParameters RegionName GetRegion ParseBool PutBucket
                             parameters w)
         = (Some d, None)
         <-> exists ak sk rn bn b,
             accepted RegionName GetRegion ParseBool parameters
                      ak sk rn bn b
             /\ d = mkDriver
                      (mkS3 (mkAuth ak sk) (GetRegion rn))
                      (mkBucket (mkS3 (mkAuth ak sk) (GetRegion rn)) bn)
                      b
             /\ (fst (PutBucket
                        (mkBucket (mkS3 (mkAuth ak sk) (GetRegion rn)) bn)
                        w) = None
                 \/ fst (PutBucket
                           (mkBucket (mkS3 (mkAuth ak sk) (GetRegion rn))
                                     bn) w)
                    = Some (S3Error "BucketAlreadyOwnedByYou"))).
Proof.
  split.
  - intro Hnone.
    destruct (FromParameters_cases parameters w)
      as [(ak & sk & rn & bn & b & Hacc)|Herr]; [|exact Herr].
    exfalso. exact (Hnone ak sk rn bn b Hacc).
  - intro d. split.
    + intro Hret.
      destruct (FromParameters_cases parameters w)
        as [(ak & sk & rn & bn & b & Hacc)|(err & Herr)];
        [|rewrite Herr in Hret; discriminate Hret].
      exists ak, sk, rn, bn, b. split; [exact Hacc|].
      rewrite (FromParameters_accepted parameters w ak sk rn bn b Hacc)
        in Hret.
      unfold New in Hret.
      destruct (PutBucket (mkBucket (mkS3 (mkAuth ak sk) (GetRegion rn)) bn)
                          w) as [[e|] w1]; cbn [fst] in Hret |- *.
      * destruct (alreadyOwnedByYou e) eqn:Hown; cbn [negb fst] in Hret;
          [|discriminate Hret].
        injection Hret as <-. split; [reflexivity|].
        right. apply alreadyOwnedByYou_iff in Hown. rewrite Hown.
        reflexivity.
      * injection Hret as <-. split; [reflexivity|left; reflexivity].
    + intros (ak & sk & rn & bn & b & Hacc & -> & Hput).
      rewrite (FromParameters_accepted parameters w ak sk rn bn b Hacc).
      unfold New.
      destruct (PutBucket (mkBucket (mkS3 (mkAuth ak sk) (GetRegion rn)) bn)
                          w) as [[e|] w1]; cbn [fst] in Hput |- *.
      * destruct Hput as [Hput|Hput]; [discriminate Hput|].
        injection Hput as ->. reflexivity.
      * reflexivity.
Qed.

End Constructing.

Lemma FromParameters_driver_iff_witness :
  fst (FromParameters
         (fun r : string => r) Stub.getRegion Stub.parseBool Stub.putBucket
         (fun key =>
            if String.eqb key "accesskey" then Some "AK"%string
            else if String.eqb key "secretkey" then Some "SK"%string
            else if String.eqb key "region" then Some "us-east-1"%string
            else if String.eqb key "bucket" then Some "registry"%string
            else if String.eqb key "encrypt" then Some "true"%string
            else None)
         [Some (S3Error "BucketAlreadyOwnedByYou")])
  = (Some (mkDriver
             (mkS3 (mkAuth "AK" "SK") (Stub.getRegion "us-east-1"))
             (mkBucket (mkS3 (mkAuth "AK" "SK")
                             (Stub.getRegion "us-east-1")) "registry")
             true), None).
Proof.
  apply (proj2 (FromParameters_driver_iff
                  (fun r : string => r) Stub.getRegion Stub.parseBool
                  Stub.putBucket _ _)).
  exists "AK"%string, "SK"%string, "us-east-1"%string, "registry"%string,
         true.
  split; [|split; [reflexivity|right; reflexivity]].
  unfold accepted.
  repeat (split; [first [reflexivity|discriminate]|]).
  exists "true"%string. split; reflexivity.
Defined.

(** ** Move *)

Section MoveOutcomes.

Context {W : Type} (R : Remote W).
Variable PutCopy : string -> string -> W -> option ExtError * W.
Variable bucketName : string.

(** X16. [Move] returns [PathNotFoundError], naming the source, in
    exactly two cases: the copy fails, and then nothing is listed or
    deleted; or the copy succeeds and the first listing of [Delete] under
    the source fails or is empty, and then the copy made at the
    destination stays in the store.  With a successful copy and a listing
    that holds keys, the result of [Move] is the result of the deletion
    loop. *)
Theorem Move_PathNotFound_iff
        (fuel : nat) (sourcePath destPath : string) (w w1 : W)
        (cerr : option ExtError) :
  PutCopy destPath (bucketName ++ "/" ++ sourcePath)%string w = (cerr, w1) ->
  (cerr <> None ->
   Move R PutCopy bucketName fuel sourcePath destPath w
   = (Done (Some (PathNotFoundError sourcePath)), w1))
  /\ (forall (w2 : W) (listResponse : ListResp) (lerr : option ExtError),
         cerr = None ->
         BucketList R sourcePath "" "" listPartsMax w1
         = ((listResponse, lerr), w2) ->
         (lerr <> None \/ Contents listResponse = [] ->
          Move R PutCopy bucketName fuel sourcePath destPath w
          = (Done (Some (PathNotFoundError sourcePath)), w2))
         /\ (lerr = None -> Contents listResponse <> [] ->
             Move R PutCopy bucketName fuel sourcePath destPath w
             = deleteLoop R fuel sourcePath listResponse w2
             /\ forall p,
                 fst (Move R PutCopy bucketName fuel sourcePath destPath w)
                 <> Done (Some (PathNotFoundError p)))).
Proof.
  intro Hcopy. split.
  - intro Hfail. unfold Move. rewrite Hcopy.
    destruct cerr as [e|]; [reflexivity|congruence].
  - intros w2 listResponse lerr -> Hlist.
    assert (Hmove : Move R PutCopy bucketName fuel sourcePath destPath w
                    = Delete R fuel sourcePath w1)
      by (unfold Move; rewrite Hcopy; reflexivity).
    split.
    + intro Hcase. rewrite Hmove.
      exact (Delete_PathNotFound R fuel sourcePath w1 w2 listResponse lerr
                                 Hlist Hcase).
    + intros -> Hkeys.
      assert (Hloop : Delete R fuel sourcePath w1
                      = deleteLoop R fuel sourcePath listResponse w2).
      { unfold Delete. rewrite Hlist.
        destruct (Contents listResponse) as [|k ks] eqn:Hc; [congruence|].
        cbn [List.length]. rewrite Nat2Z.inj_succ.
        destruct (Z.eqb_spec (Z.succ (Z.of_nat (List.length ks))) 0);
          [lia|reflexivity]. }
      rewrite Hmove, Hloop. split; [reflexivity|].
      intro p. apply deleteLoop_not_PathNotFound.
Qed.

End MoveOutcomes.

Section MoveInMemory.

Import MemStore.

Lemma substring_whole (s : string) :
  String.substring 0 (String.length s) s = s.
Proof.
  induction s as [|a s IH]; [reflexivity|].
  cbn [String.length String.substring]. rewrite IH. reflexivity.
Qed.

Lemma sourceKey_of_source (key : string) :
  MemCopy.sourceKey (MemCopy.bucketName ++ "/" ++ key) = Some key.
Proof.
  unfold MemCopy.sourceKey, MemCopy.bucketName.
  cbn [String.append String.prefix String.length].
  repeat (match goal with
          | |- context [Ascii.ascii_dec ?a ?a] =>
              destruct (Ascii.ascii_dec a a); [|congruence]
          end).
  cbn [Nat.add Nat.sub String.substring].
  rewrite Nat.sub_0_r, substring_whole.
  destruct key; reflexivity.
Qed.

Lemma lookup_In (key : string) (objs : list (string * Z)) (v : Z) :
  MemCopy.lookup key objs = Some v -> In (key, v) objs.
Proof.
  induction objs as [|[k x] objs IH]; cbn [MemCopy.lookup];
    [discriminate|].
  destruct (String.eqb_spec k key) as [->|_].
  - intro E. injection E as ->. left. reflexivity.
  - intro E. right. exact (IH E).
Qed.

Lemma lookup_filter_out (key : string) (f : string * Z -> bool)
      (objs : list (string * Z)) :
  (forall v, f (key, v) = false) ->
  MemCopy.lookup key (filter f objs) = None.
Proof.
  intro Hf. induction objs as [|[k x] objs IH]; [reflexivity|].
  cbn [filter]. destruct (f (k, x)) eqn:E; [|exact IH].
  cbn [MemCopy.lookup].
  destruct (String.eqb_spec k key) as [->|_]; [|exact IH].
  rewrite Hf in E. discriminate E.
Qed.

Lemma lookup_filter_keep (key : string) (f : string * Z -> bool)
      (objs : list (string * Z)) :
  (forall v, f (key, v) = true) ->
  MemCopy.lookup key (filter f objs) = MemCopy.lookup key objs.
Proof.
  intro Hf. induction objs as [|[k x] objs IH]; [reflexivity|].
  cbn [filter MemCopy.lookup].
  destruct (String.eqb_spec k key) as [->|Hne].
  - rewrite Hf. cbn [MemCopy.lookup]. rewrite String.eqb_refl. reflexivity.
  - destruct (f (k, x)); [|exact IH].
    cbn [MemCopy.lookup].
    destruct (String.eqb_spec k key); [congruence|exact IH].
Qed.

Lemma lookup_store_same (key : string) (v : Z) (objs : list (string * Z)) :
  MemCopy.lookup key (MemCopy.store key v objs) = Some v.
Proof.
  unfold MemCopy.store.
  induction objs as [|[k x] objs IH]; cbn [filter fst app MemCopy.lookup].
  - rewrite String.eqb_refl. reflexivity.
  - destruct (String.eqb_spec k key) as [->|Hne]; cbn [negb]; [exact IH|].
    cbn [app MemCopy.lookup].
    destruct (String.eqb_spec k key); [congruence|exact IH].
Qed.

(** [Move] on the in-memory store. *)
Lemma Move_in_memory
      (fuel : nat) (sourcePath destPath : string) (v : Z) (st : Store) :
  faults st = [] ->
  MemCopy.lookup sourcePath (objects st) = Some v ->
  (List.length (objects st) + 1 < fuel)%nat ->
  exists st' : Store,
    Move remote MemCopy.putCopy MemCopy.bucketName fuel sourcePath destPath
         st
    = (Done None, st')
    /\ objects st'
       = filter (fun o => negb (String.prefix sourcePath (fst o)))
                (MemCopy.store destPath v (objects st))
    /\ MemCopy.lookup sourcePath (objects st') = None
    /\ (String.prefix sourcePath destPath = false ->
        MemCopy.lookup destPath (objects st') = Some v)
    /\ (String.prefix sourcePath destPath = true ->
        MemCopy.lookup destPath (objects st') = None).
Proof.
  intros Hfaults Hsrc Hfuel.
  set (st1 := mkStore (uploads st)
                      (MemCopy.store destPath v (objects st))
                      (nextId st) [] (log st)).
  assert (Hcopy : MemCopy.putCopy destPath
                    (MemCopy.bucketName ++ "/" ++ sourcePath)%string st
                  = (None, st1)).
  { unfold MemCopy.putCopy. rewrite Hfaults, sourceKey_of_source, Hsrc.
    reflexivity. }
  assert (Hsrc1 : In sourcePath
                     (filter (String.prefix sourcePath)
                             (map fst (objects st1)))).
  { apply filter_In. split; [|apply prefix_refl].
    cbn [objects st1]. unfold MemCopy.store. rewrite map_app.
    destruct (String.eqb_spec sourcePath destPath) as [->|Hne].
    - apply in_or_app. right. left. reflexivity.
    - apply in_or_app. left.
      apply (in_map fst _ (sourcePath, v)).
      apply filter_In. split; [exact (lookup_In _ _ _ Hsrc)|].
      cbn [fst]. apply negb_true_iff. apply String.eqb_neq. exact Hne. }
  assert (Hlen : (List.length (filter (String.prefix sourcePath)
                                      (map fst (objects st1)))
                  < fuel)%nat).
  { pose proof (filter_length_le (String.prefix sourcePath)
                                 (map fst (objects st1))) as Hle.
    rewrite length_map in Hle. cbn [objects st1] in Hle |- *.
    unfold MemCopy.store in Hle |- *.
    rewrite length_app in Hle. cbn [List.length] in Hle.
    pose proof (filter_length_le
                  (fun o : string * Z => negb (String.eqb (fst o) destPath))
                  (objects st)) as Hle2.
    lia. }
  destruct (Delete_in_memory fuel sourcePath st1 eq_refl Hlen)
    as [_ Hdel].
  destruct Hdel as (st' & Hrun & Hobj & _).
  { intro Hnil. rewrite Hnil in Hsrc1. destruct Hsrc1. }
  exists st'. split; [|split; [exact Hobj|]].
  - unfold Move. rewrite Hcopy. exact Hrun.
  - rewrite Hobj. cbn [objects st1].
    split; [|split].
    + apply lookup_filter_out. intro x. cbn [fst].
      rewrite prefix_refl. reflexivity.
    + intro Hp. rewrite lookup_filter_keep
        by (intro x; cbn [fst]; rewrite Hp; reflexivity).
      apply lookup_store_same.
    + intro Hp. apply lookup_filter_out. intro x. cbn [fst].
      rewrite Hp. reflexivity.
Qed.

(** X17. On the in-memory store, without store failure, [Move] of an
    existing object returns [nil] and removes every key that starts with
    the source path.  The destination then holds the content of the source
    when its key does not start with the source path; when it does (moving
    ["a"] to ["a.bak"], say), the copy just made is deleted with the rest
    and the content is in the store no more. *)
Theorem Move_deletes_keys_with_source_prefix
        (fuel : nat) (sourcePath destPath : string) (v : Z) (st : Store) :
  faults st = [] ->
  MemCopy.lookup sourcePath (objects st) = Some v ->
  (List.length (objects st) + 1 < fuel)%nat ->
  exists st' : Store,
    Move remote MemCopy.putCopy MemCopy.bucketName fuel sourcePath destPath
         st
    = (Done None, st')
    /\ objects st'
       = filter (fun o => negb (String.prefix sourcePath (fst o)))
                (MemCopy.store destPath v (objects st))
    /\ MemCopy.lookup sourcePath (objects st') = None
    /\ (String.prefix sourcePath destPath = false ->
        MemCopy.lookup destPath (objects st') = Some v)
    /\ (String.prefix sourcePath destPath = true ->
        MemCopy.lookup destPath (objects st') = None).
Proof.
  exact (Move_in_memory fuel sourcePath destPath v st).
Qed.

End MoveInMemory.

Lemma Move_PathNotFound_iff_witness :
  Move MemStore.remote MemCopy.putCopy MemCopy.bucketName 4 "a" "b"
       (MemStore.mkStore [] [("c"%string, 3)] 0 [] [])
  = (Done (Some (PathNotFoundError "a")),
     MemStore.mkStore [] [("c"%string, 3)] 0 [] []).
Proof.
  refine (proj1 (Move_PathNotFound_iff
                   MemStore.remote MemCopy.putCopy MemCopy.bucketName 4
                   "a" "b" _ _ (Some (S3Error "NoSuchKey")) _) _).
  - reflexivity.
  - discriminate.
Defined.

Lemma Move_deletes_keys_with_source_prefix_witness :
  exists st' : MemStore.Store,
    Move MemStore.remote MemCopy.putCopy MemCopy.bucketName 4 "a" "a.bak"
         (MemStore.mkStore [] [("a"%string, 3)] 0 [] [])
    = (Done None, st')
    /\ MemStore.objects st'
       = filter (fun o => negb (String.prefix "a" (fst o)))
                (MemCopy.store "a.bak" 3 [("a"%string, 3)])
    /\ MemCopy.lookup "a" (MemStore.objects st') = None
    /\ (String.prefix "a" "a.bak" = false ->
        MemCopy.lookup "a.bak" (MemStore.objects st') = Some 3)
    /\ (String.prefix "a" "a.bak" = true ->
        MemCopy.lookup "a.bak" (MemStore.objects st') = None).
Proof.
  refine (Move_deletes_keys_with_source_prefix
            4 "a" "a.bak" 3 (MemStore.mkStore [] [("a"%string, 3)] 0 [] [])
            _ _ _).
  - reflexivity.
  - reflexivity.
  - cbn. lia.
Defined.

(** ** Writes that start at the declared size, and reads that fail *)

Section WriterEdges.

Context {W : Type} (R : Remote W).

(** X18. A call at an offset equal to the declared size, on a session that
    has parts, with a reader that has nothing left: the offset is accepted
    whether or not it is a multiple of the chunk size, and the writer asks
    the store for one more part, empty, numbered [size / chunkSize + 1],
    then for the completion of the session with the first
    [size / chunkSize] known parts followed by that empty part.  A part
    with that number already in the session is thereby replaced and left
    out of the completion. *)
Theorem WriteStream_at_declared_size
        (fuel : nat) (path : string) (size chunkSize : Z) (w w1 : W)
        (m : Multi) (parts : list Part) :
  U64.in_range size ->
  deriveChunkSize size = Done chunkSize ->
  getAllParts R path w = (Done (Some m, parts, None), w1) ->
  parts <> [] ->
  size <= (Z.of_nat (List.length parts) * chunkSize) mod U64.modulus ->
  WriteStream R (S fuel) path size size [] w
  = match PutPart R m (size / chunkSize + 1) 0 w1 with
    | ((_, Some e), w2) => (Done (Some (Ext e)), w2)
    | ((part, None), w2) =>
        (Done None,
         snd (Complete R m
                       (firstn (Z.to_nat (size / chunkSize)) parts ++ [part])
                       w2))
    end.
Proof.
  intros Hsize Hchunk Hget Hne Hlimit.
  destruct (deriveChunkSize_Done size chunkSize Hsize Hchunk) as [HC _].
  assert (Hinv : invalidOffset size size chunkSize parts = false).
  { unfold invalidOffset. rewrite U64_mul_wrap_l, Z.ltb_irrefl.
    cbn [andb]. rewrite orb_false_r. apply Z.ltb_ge. exact Hlimit. }
  destruct (resumeState_parts size size chunkSize parts Hsize HC Hne Hinv)
    as [_ Hres].
  unfold WriteStream. rewrite Hchunk, Hget, Hinv, Hres.
  cbn [streamLoop ReadFull fatalRead].
  assert (Htot : U64.add size (U64.wrap 0) = size).
  { unfold U64.add. change (U64.wrap 0) with 0. rewrite Z.add_0_r.
    apply U64_wrap_small. exact Hsize. }
  rewrite Htot, Z.eqb_refl. cbn [negb]. rewrite andb_false_r.
  destruct (PutPart R m (size / chunkSize + 1) 0 w1) as [[part [e|]] w2];
    [reflexivity|].
  destruct (Complete R m
                     (firstn (Z.to_nat (size / chunkSize)) parts ++ [part])
                     w2).
  reflexivity.
Qed.

End WriterEdges.

Lemma WriteStream_at_declared_size_witness :
  fst (WriteStream MemStore.remote 1 Scenario.path Scenario.size
                   Scenario.size []
                   (MemStore.mkStore
                      [(mkMulti Scenario.path "u",
                        MemStore.uniformParts 2 (5 * MB)
                        ++ [mkPart 3 "etag" (2 * MB)])]
                      [] 1 [] []))
  = Done None.
Proof.
  assert (Hr : U64.in_range Scenario.size)
    by (vm_compute; split; congruence).
  assert (Hc : deriveChunkSize Scenario.size = Done (5 * MB))
    by (vm_compute; reflexivity).
  assert (Hg : getAllParts MemStore.remote Scenario.path
                 (MemStore.mkStore
                    [(mkMulti Scenario.path "u",
                      MemStore.uniformParts 2 (5 * MB)
                      ++ [mkPart 3 "etag" (2 * MB)])]
                    [] 1 [] [])
               = (Done (Some (mkMulti Scenario.path "u"),
                        MemStore.uniformParts 2 (5 * MB)
                        ++ [mkPart 3 "etag" (2 * MB)], None),
                  MemStore.mkStore
                    [(mkMulti Scenario.path "u",
                      MemStore.uniformParts 2 (5 * MB)
                      ++ [mkPart 3 "etag" (2 * MB)])]
                    [] 1 []
                    [MemStore.CallListMulti Scenario.path "";
                     MemStore.CallListParts (mkMulti Scenario.path "u")]))
    by (vm_compute; reflexivity).
  assert (Hne : MemStore.uniformParts 2 (5 * MB)
                ++ [mkPart 3 "etag" (2 * MB)] <> [])
    by discriminate.
  assert (Hl : Scenario.size
               <= (Z.of_nat (List.length
                               (MemStore.uniformParts 2 (5 * MB)
                                ++ [mkPart 3 "etag" (2 * MB)]))
                   * (5 * MB)) mod U64.modulus)
    by (vm_compute; congruence).
  rewrite (WriteStream_at_declared_size
             MemStore.remote 0 Scenario.path Scenario.size (5 * MB) _ _ _ _
             Hr Hc Hg Hne Hl).
  vm_compute. reflexivity.
Defined.

Section WriterEdgesInMemory.

Import MemStore.

(** The read that brings the running total to the declared size, on a
    session with any parts. *)
Lemma streamLoop_completing_read
      (ups0 : list (Multi * list Part)) (m : Multi) (ps : list Part)
      (C size n partNumber totalRead : Z) (e : option ExtError)
      (reader rest : Reader) (fuel : nat) (parts : list Part) (st : Store) :
  (forall u, In u ups0 -> multi_eqb m (fst u) = false) ->
  uploads st = ups0 ++ [(m, ps)] ->
  faults st = [] ->
  ReadFull reader = ((n, e), rest) ->
  fatalRead e = false ->
  0 <= n ->
  0 <= totalRead ->
  totalRead + n = size ->
  size < U64.modulus ->
  exists st' : Store,
    streamLoop remote (S fuel) (Some m) C size reader partNumber totalRead
               parts st
    = (Done None, st')
    /\ uploads st' = ups0
    /\ faults st' = []
    /\ objects st'
       = objects st ++ [(Key m, fold_right Z.add 0 (map Size parts) + n)].
Proof.
  intros Hother Hups Hfaults Hread Hfatal Hn Htr Hsum Hmax.
  assert (Hwn : U64.wrap n = n)
    by (apply U64_wrap_small; unfold U64.in_range; lia).
  assert (Htot : U64.add totalRead n = size).
  { unfold U64.add. rewrite U64_wrap_small; [exact Hsum|].
    unfold U64.in_range. lia. }
  cbn [streamLoop]. rewrite Hread, Hfatal, Hwn, Htot, Z.eqb_refl.
  cbn [negb]. rewrite andb_false_r.
  cbn [PutPart remote]. unfold putPart, enter.
  rewrite Hfaults. cbn [hd tl uploads].
  rewrite Hups, (findParts_last m _ ups0 Hother).
  rewrite (setParts_last m _ _ ups0 Hother).
  cbn [Complete remote]. unfold complete, enter, withUploads.
  cbn [hd tl uploads faults objects nextId log].
  rewrite (findParts_last m _ ups0 Hother).
  eexists. split; [reflexivity|].
  cbn [uploads faults objects].
  split; [|split; [reflexivity|]].
  - rewrite filter_app. cbn [filter fst]. rewrite multi_eqb_refl.
    cbn [negb]. rewrite app_nil_r.
    apply filter_all. intros u Hu. rewrite (Hother u Hu). reflexivity.
  - rewrite sum_sizes_app. cbn [map fold_right Size].
    rewrite Z.add_0_r. reflexivity.
Qed.

(** [k] whole parts and a last part of [n] bytes are accounted as
    [k * C + n] bytes. *)
Lemma sizeOfParts_short_last (k : nat) (C n : Z) :
  0 <= C -> 0 <= n -> Z.of_nat k * C + n < U64.modulus ->
  sizeOfParts (uniformParts k C ++ [mkPart (Z.of_nat k + 1) "etag" n])
  = Z.of_nat k * C + n.
Proof.
  intros HC Hn Hmax.
  destruct k as [|k].
  - cbn [uniformParts seq map app Z.of_nat Z.add].
    rewrite sizeOfParts_mod. cbn [List.length last Size Z.of_nat].
    apply Z.mod_small. lia.
  - assert (Hshape : uniformParts (S k) C
                     ++ [mkPart (Z.of_nat (S k) + 1) "etag" n]
                     = mkPart (Z.of_nat 1) "etag" C
                         :: (map (fun i => mkPart (Z.of_nat i) "etag" C)
                                 (seq 2 k)
                             ++ [mkPart (Z.of_nat (S k) + 1) "etag" n]))
      by reflexivity.
    rewrite Hshape, sizeOfParts_mod.
    rewrite app_comm_cons, last_last.
    rewrite length_app. cbn [List.length Size].
    rewrite length_map, length_seq.
    replace (Z.of_nat (S k + 1) - 1) with (Z.of_nat (S k)) by lia.
    apply Z.mod_small. split; [nia|exact Hmax].
Qed.

(** X19. On the in-memory store: when all the parts of a write are in the
    session but the session was not completed (its last part, of [n]
    bytes, shorter than a chunk), calling [WriteStream] at the offset
    [CurrentSize] reports, that is the declared size, with nothing left to
    read, returns [nil] and completes the session, but the object stored is
    [n] bytes short of the declared size: the short last part was replaced
    by an empty one. *)
Theorem WriteStream_at_declared_size_truncates
        (fuel : nat) (path : string) (size C n : Z) (k : nat)
        (st : Store) (others : list (Multi * list Part)) (m : Multi) :
  U64.in_range size ->
  deriveChunkSize size = Done C ->
  unlisted path others ->
  Key m = path ->
  uploads st
  = others ++ [(m, uniformParts k C ++ [mkPart (Z.of_nat k + 1) "etag" n])] ->
  faults st = [] ->
  0 < n < C ->
  Z.of_nat k * C + n = size ->
  (Z.of_nat k + 1) * C < U64.modulus ->
  exists st1 st' : Store,
    CurrentSize remote path st = (Done (size, None), st1)
    /\ WriteStream remote (S fuel) path size size [] st1 = (Done None, st')
    /\ objects st' = objects st ++ [(path, Z.of_nat k * C)]
    /\ uploads st' = others
    /\ Z.of_nat k * C < size.
Proof.
  intros Hsize Hchunk Hun Hkey Hups Hfaults Hn Hsum Hfit.
  destruct (deriveChunkSize_Done size C Hsize Hchunk) as [HC HCmax].
  assert (Hmc : minChunkSize = 5242880) by reflexivity.
  assert (HC0 : 0 < C) by (rewrite Hmc in HC; lia).
  pose proof Hsize as [Hsize0 HsizeM].
  set (ps := uniformParts k C ++ [mkPart (Z.of_nat k + 1) "etag" n]).
  assert (Hother : forall u, In u others -> multi_eqb m (fst u) = false)
    by (apply (unlisted_multi_eqb path); assumption).
  assert (Hlen : List.length ps = S k).
  { unfold ps. rewrite length_app, uniformParts_length. cbn. lia. }
  destruct (getAllParts_session_frame path st others m ps Hun Hkey Hups
                                      Hfaults)
    as (st1 & Hget1 & Hups1 & Hf1 & Hobj1).
  rewrite Hups in Hups1.
  destruct (getAllParts_session_frame path st1 others m ps Hun Hkey Hups1
                                      Hf1)
    as (st2 & Hget2 & Hups2 & Hf2 & Hobj2).
  rewrite Hups1 in Hups2.
  assert (Hinv : invalidOffset size size C ps = false).
  { unfold invalidOffset. rewrite U64_mul_wrap_l, Hlen, Z.ltb_irrefl.
    cbn [andb]. rewrite orb_false_r. apply Z.ltb_ge.
    rewrite Z.mod_small; [rewrite Nat2Z.inj_succ; lia|].
    rewrite Nat2Z.inj_succ. split; [nia|lia]. }
  assert (Hne : ps <> []).
  { intro E. apply (f_equal (@List.length Part)) in E.
    rewrite Hlen in E. discriminate E. }
  destruct (resumeState_parts size size C ps Hsize HC Hne Hinv)
    as [_ Hres].
  assert (Hq : size / C = Z.of_nat k).
  { symmetry. apply (Z.div_unique size C (Z.of_nat k) n); lia. }
  rewrite Hq, Nat2Z.id in Hres.
  assert (Hfirst : firstn k ps = uniformParts k C).
  { unfold ps. rewrite firstn_app, uniformParts_length, Nat.sub_diag.
    cbn [firstn]. rewrite app_nil_r. apply firstn_all2.
    rewrite uniformParts_length. lia. }
  rewrite Hfirst in Hres.
  destruct (streamLoop_completing_read others m ps C size 0
              (Z.of_nat k + 1) size (Some EOF) [] [] fuel
              (uniformParts k C) st2 Hother Hups2 Hf2 eq_refl eq_refl
              ltac:(lia) Hsize0 ltac:(lia) HsizeM)
    as (st' & Hrun & Hups' & Hf' & Hobj').
  exists st1, st'. split; [|split; [|split; [|split]]].
  - rewrite (CurrentSize_parts remote path st st1 _ _ Hget1).
    unfold ps. rewrite sizeOfParts_short_last; [rewrite Hsum; reflexivity| | |];
      lia.
  - unfold WriteStream. rewrite Hchunk, Hget2, Hinv, Hres. exact Hrun.
  - rewrite Hobj', Hobj2, Hobj1. unfold uniformParts.
    rewrite sum_sizes_chunks, Z.add_0_r, Hkey. reflexivity.
  - exact Hups'.
  - lia.
Qed.

(** X20. On the in-memory store, without store failure: when the reader
    fails (with an error other than the two end-of-input ones) after [k]
    whole chunks, none of which reached the declared size, [WriteStream]
    returns the reader's error; the [k] parts uploaded before stay in the
    session, whatever was read with the failure is not uploaded, and
    [CurrentSize] returns [k * chunkSize]. *)
Theorem WriteStream_failed_read_keeps_parts
        (path : string) (size C t : Z) (k extra : nat) (e : ExtError)
        (st : Store) :
  U64.in_range size ->
  deriveChunkSize size = Done C ->
  unlisted path (uploads st) ->
  faults st = [] ->
  fatalRead (Some e) = true ->
  Z.of_nat k * C < size ->
  exists st' : Store,
    WriteStream remote (S k + extra) path 0 size
                (repeat (C, None) k ++ [(t, Some e)]) st
    = (Done (Some (Ext e)), st')
    /\ uploads st'
       = uploads st
         ++ [(mkMulti path (freshId (nextId st)), uniformParts k C)]
    /\ objects st' = objects st
    /\ fst (CurrentSize remote path st') = Done (Z.of_nat k * C, None).
Proof.
  intros Hsize Hchunk Hun Hfaults Hfatal Hk.
  destruct (deriveChunkSize_Done size C Hsize Hchunk) as [HC HCmax].
  assert (Hmc : minChunkSize = 5242880) by reflexivity.
  destruct Hsize as [Hsize0 HsizeM].
  set (m := mkMulti path (freshId (nextId st))).
  assert (Hother : forall u, In u (uploads st) ->
                             multi_eqb m (fst u) = false)
    by (apply (unlisted_multi_eqb path); [exact Hun|reflexivity]).
  destruct (getAllParts_fresh_frame path st Hun Hfaults)
    as (sa & Hget & Hupsa & Hfa & Hobja).
  destruct (streamLoop_chunks_then (uploads st) m C size [(t, Some e)] k 0
              (S extra) [] sa Hother Hupsa Hfa HC
              ltac:(cbn [Nat.add]; exact Hk) HsizeM)
    as (st' & Hrun & Hups' & Hf' & Hobj').
  change (0 + k)%nat with k in Hups'.
  pose proof (streamLoop_fatal_read remote extra (Some m) C size
                [(t, Some e)] [] t e (Z.of_nat (0 + k) + 1)
                (Z.of_nat (0 + k) * C)
                ([] ++ map (fun i => mkPart (Z.of_nat i) "etag" C)
                           (seq 1 k))
                st' eq_refl Hfatal) as Hfail.
  exists st'. split; [|split; [exact Hups'|split; [congruence|]]].
  - unfold WriteStream. rewrite Hchunk, Hget.
    rewrite (invalidOffset_zero_no_parts size C HC).
    cbn [resumeState List.length Z.of_nat Z.ltb Z.compare].
    replace (S k + extra)%nat with (k + S extra)%nat by lia.
    exact (eq_trans Hrun Hfail).
  - destruct (getAllParts_session_frame path st' (uploads st) m
                (uniformParts k C) Hun eq_refl Hups' Hf')
      as (st2 & Hget2 & _).
    rewrite (CurrentSize_parts remote path st' st2 _ _ Hget2).
    cbn [fst].
    rewrite sizeOfParts_uniform; [reflexivity| |];
      rewrite Hmc in HC; lia.
Qed.

End WriterEdgesInMemory.

Lemma WriteStream_at_declared_size_truncates_witness :
  exists st1 st' : MemStore.Store,
    CurrentSize MemStore.remote Scenario.path
      (MemStore.mkStore
         [(mkMulti Scenario.path "u",
           MemStore.uniformParts 2 (5 * MB)
           ++ [mkPart (Z.of_nat 2 + 1) "etag" (2 * MB)])]
         [] 1 [] [])
    = (Done (Scenario.size, None), st1)
    /\ WriteStream MemStore.remote 1 Scenario.path Scenario.size
                   Scenario.size [] st1
       = (Done None, st')
    /\ MemStore.objects st' = [] ++ [(Scenario.path, Z.of_nat 2 * (5 * MB))]
    /\ MemStore.uploads st' = []
    /\ Z.of_nat 2 * (5 * MB) < Scenario.size.
Proof.
  refine (WriteStream_at_declared_size_truncates
            0 Scenario.path Scenario.size (5 * MB) (2 * MB) 2
            (MemStore.mkStore
               [(mkMulti Scenario.path "u",
                 MemStore.uniformParts 2 (5 * MB)
                 ++ [mkPart (Z.of_nat 2 + 1) "etag" (2 * MB)])]
               [] 1 [] [])
            [] (mkMulti Scenario.path "u") _ _ _ _ _ _ _ _ _).
  - vm_compute. split; congruence.
  - vm_compute. reflexivity.
  - intros u Hu. destruct Hu.
  - reflexivity.
  - reflexivity.
  - reflexivity.
  - vm_compute. split; reflexivity.
  - vm_compute. reflexivity.
  - vm_compute. reflexivity.
Defined.

Lemma WriteStream_failed_read_keeps_parts_witness :
  exists st' : MemStore.Store,
    WriteStream MemStore.remote (3 + 0) Scenario.path 0 Scenario.size
                (repeat (5 * MB, None) 2
                 ++ [(1 * MB, Some (OtherError "connection reset"))])
                MemStore.empty
    = (Done (Some (Ext (OtherError "connection reset"))), st')
    /\ MemStore.uploads st'
       = MemStore.uploads MemStore.empty
         ++ [(mkMulti Scenario.path
                (MemStore.freshId (MemStore.nextId MemStore.empty)),
              MemStore.uniformParts 2 (5 * MB))]
    /\ MemStore.objects st' = MemStore.objects MemStore.empty
    /\ fst (CurrentSize MemStore.remote Scenario.path st')
       = Done (Z.of_nat 2 * (5 * MB), None).
Proof.
  refine (WriteStream_failed_read_keeps_parts
            Scenario.path Scenario.size (5 * MB) (1 * MB) 2 0
            (OtherError "connection reset") MemStore.empty _ _ _ _ _ _).
  - vm_compute. split; congruence.
  - vm_compute. reflexivity.
  - intros u Hu. destruct Hu.
  - reflexivity.
  - reflexivity.
  - vm_compute. reflexivity.
Defined.
